(** * Collections-C: dynamic array (cc_array) and singly-linked list (cc_slist)

    A shallow embedding of the two containers.  Machine integers are [Z] with
    the wrap-around of a 64-bit [size_t] written out, the growth factor is a
    single-precision value with round-to-nearest-even, heap blocks are lists of
    slots, list nodes live in a finite map from addresses to nodes, and every
    access outside an allocated object is a [Fault]. *)

From Stdlib Require Import ZArith Lia Bool.
From stdpp Require Import base tactics option list gmap.

Open Scope Z_scope.

(** ** Results of running C code *)

(** Status codes of [enum cc_stat] that the two source files return. *)
Inductive cc_stat :=
| CC_OK
| CC_ERR_ALLOC
| CC_ERR_INVALID_RANGE
| CC_ERR_MAX_CAPACITY
| CC_ERR_VALUE_NOT_FOUND
| CC_ERR_OUT_OF_RANGE.

Global Instance cc_stat_eq_dec : EqDecision cc_stat.
Proof. solve_decision. Defined.

(** A call either returns, or runs into undefined behaviour ([Fault]: a null
    or out-of-block access, an unrepresentable float-to-integer conversion),
    or is still looping when the fuel given to a [while] loop runs out. *)
Inductive outcome (A : Type) :=
| Ret (a : A)
| Fault
| OutOfFuel.
Arguments Ret {A} a.
Arguments Fault {A}.
Arguments OutOfFuel {A}.

Definition obind {A B} (m : outcome A) (k : A → outcome B) : outcome B :=
  match m with
  | Ret a => k a
  | Fault => Fault
  | OutOfFuel => OutOfFuel
  end.

Definition of_option {A} (o : option A) : outcome A :=
  match o with
  | Some a => Ret a
  | None => Fault
  end.

Global Instance outcome_bind : MBind outcome := λ A B k m, obind m k.
Global Instance outcome_ret : MRet outcome := λ A a, Ret a.

(** ** Machine parameters (LP64) *)

Definition SIZE_MODULUS : Z := 2 ^ 64.
Definition SIZE_MAX : Z := SIZE_MODULUS - 1.
Definition sizeof_ptr : Z := 8.

(** Arithmetic on [size_t] is modulo [2^64]. *)
Definition wrap (x : Z) : Z := x mod SIZE_MODULUS.

(** An element is a [void*], an address; [NULL] is 0. *)
Definition NULL : Z := 0.

(** A slot of a block obtained from the allocator: [None] is the indeterminate
    content [malloc] leaves, [Some p] holds the pointer [p]. *)
Abbreviation cell := (option Z) (only parsing).

(** The optional output parameter [void **out]: a null pointer, or a pointer
    to a caller's slot together with what the slot holds. *)
Inductive out_slot :=
| NullOut
| Slot (c : cell).

(** [if (out) *out = v;] *)
Definition store_out_opt (out : out_slot) (v : cell) : out_slot :=
  match out with
  | NullOut => NullOut
  | Slot _ => Slot v
  end.

(** [*out = v;] *)
Definition store_out (out : out_slot) (v : cell) : outcome out_slot :=
  match out with
  | NullOut => Fault
  | Slot _ => Ret (Slot v)
  end.

(** Unfolds the plumbing of [outcome] without touching the memory
    operations. *)
Ltac step := cbn [mbind outcome_bind obind of_option mret outcome_ret].

(** ** Single-precision floating point

    [exp_factor] is a C [float]; the product [capacity * exp_factor] is
    computed in binary32 (IEEE 754, round to nearest, ties to even) after the
    capacity has been converted to [float]. *)
Module Float32.

Inductive float :=
| F_zero (neg : bool)
| F_inf (neg : bool)
| F_nan
| F_fin (neg : bool) (m : Z) (e : Z).   (* (-1)^neg * m * 2^e, 0 < m *)

Definition prec : Z := 24.
Definition emin : Z := -149.
Definition emax : Z := 128.

(** The significand and exponent of the positive dyadic [m * 2^e] rounded
    to 24 significant bits (fewer in the subnormal range), ties to even. *)
Definition round_mant (m e : Z) : Z * Z :=
  let d := Z.max (Z.log2 m + 1 - prec) (emin - e) in
  if d <=? 0 then (m, e)
  else
    let q := m / 2 ^ d in
    let r := m mod 2 ^ d in
    let h := 2 ^ (d - 1) in
    (if (h <? r) || ((r =? h) && Z.odd q) then q + 1 else q, e + d).

(** Rounding proper: underflow to zero, overflow to infinity. *)
Definition round (neg : bool) (m e : Z) : float :=
  let '(m', e') := round_mant m e in
  if m' =? 0 then F_zero neg
  else if emax <=? Z.log2 m' + e' then F_inf neg
  else F_fin neg m' e'.

(** Conversion [size_t -> float]. *)
Definition of_size_t (n : Z) : float :=
  if n =? 0 then F_zero false else round false n 0.

Definition mul (x y : float) : float :=
  match x, y with
  | F_nan, _ | _, F_nan => F_nan
  | F_inf _, F_zero _ | F_zero _, F_inf _ => F_nan
  | F_inf s1, F_inf s2 | F_inf s1, F_fin s2 _ _ | F_fin s1 _ _, F_inf s2 =>
      F_inf (xorb s1 s2)
  | F_zero s1, F_zero s2 | F_zero s1, F_fin s2 _ _ | F_fin s1 _ _, F_zero s2 =>
      F_zero (xorb s1 s2)
  | F_fin s1 m1 e1, F_fin s2 m2 e2 => round (xorb s1 s2) (m1 * m2) (e1 + e2)
  end.

(** Conversion [float -> size_t]: the value is truncated toward zero, and
    the behaviour is undefined ([None]) when the truncated value is not a
    [size_t]. *)
Definition to_size_t (x : float) : option Z :=
  match x with
  | F_zero _ => Some 0
  | F_fin neg m e =>
      let t := if 0 <=? e then m * 2 ^ e else m / 2 ^ (- e) in
      if neg then (if t =? 0 then Some 0 else None)
      else if t <? SIZE_MODULUS then Some t else None
  | F_inf _ | F_nan => None
  end.

(** The factor [cc_array_new] installs, [(float) 2]. *)
Definition f_two : float := of_size_t 2.

(** [c] survives the conversion to [float] and back. *)
Definition exact (c : Z) : Prop := to_size_t (of_size_t c) = Some c.

End Float32.

(** ** The dynamic array *)
Module Array.
Import Float32.

(** [struct cc_array_s]; [buffer] is the block the field points to, one list
    element per [void*] slot of the allocation. *)
Record CC_Array := mkArray {
  size : Z;
  capacity : Z;
  exp_factor : float;
  buffer : list cell;
}.

Definition DEFAULT_CAPACITY : Z := 8.
Definition DEFAULT_EXPANSION_FACTOR : Z := 2.

Definition set_size (ar : CC_Array) (n : Z) : CC_Array :=
  mkArray n (capacity ar) (exp_factor ar) (buffer ar).
Definition set_capacity (ar : CC_Array) (n : Z) : CC_Array :=
  mkArray (size ar) n (exp_factor ar) (buffer ar).
Definition set_buffer (ar : CC_Array) (b : list cell) : CC_Array :=
  mkArray (size ar) (capacity ar) (exp_factor ar) b.

(** *** Blocks *)

(** [malloc(bytes)]: the allocator either fails ([ok = false], a null
    result) or hands out a block of [bytes / 8] slots of indeterminate
    content. *)
Definition malloc (ok : bool) (bytes : Z) : option (list cell) :=
  if ok then Some (replicate (Z.to_nat (bytes / sizeof_ptr)) None) else None.

(** [calloc(n, 8)]: fails when the allocator does or when [n * 8] is not a
    [size_t]; the block is zeroed. *)
Definition calloc (ok : bool) (n : Z) : option (list cell) :=
  if ok && (n * sizeof_ptr <=? SIZE_MAX)
  then Some (replicate (Z.to_nat n) (Some NULL)) else None.

(** [buffer[i]] as an rvalue. *)
Definition load (b : list cell) (i : Z) : outcome cell :=
  if (0 <=? i) && (i <? Z.of_nat (length b))
  then of_option (b !! Z.to_nat i) else Fault.

(** [buffer[i] = v]. *)
Definition store (b : list cell) (i : Z) (v : cell) : outcome (list cell) :=
  if (0 <=? i) && (i <? Z.of_nat (length b))
  then Ret (<[Z.to_nat i := v]> b) else Fault.

(** [memcpy(&dst[d], &src[s], bytes)] and [memmove] (the source range is
    read before anything is written): both ranges must lie inside their
    blocks. *)
Definition copy_slots (dst : list cell) (d : Z) (src : list cell) (s : Z)
    (bytes : Z) : outcome (list cell) :=
  let n := bytes / sizeof_ptr in
  if (0 <=? s) && (s + n <=? Z.of_nat (length src))
     && (0 <=? d) && (d + n <=? Z.of_nat (length dst))
  then Ret (take (Z.to_nat d) dst
            ++ take (Z.to_nat n) (drop (Z.to_nat s) src)
            ++ drop (Z.to_nat (d + n)) dst)
  else Fault.

Section WithMaxElements.

(** [CC_MAX_ELEMENTS] is a macro of a header that is not among the sources;
    the array code only compares against it and assigns it. *)
Variable CC_MAX_ELEMENTS : Z.

(** *** expand_capacity *)
Definition expand_capacity (alloc_ok : bool) (ar : CC_Array)
    : outcome (cc_stat * CC_Array) :=
  if capacity ar =? CC_MAX_ELEMENTS then Ret (CC_ERR_MAX_CAPACITY, ar)
  else
    new_capacity ← of_option
      (to_size_t (mul (of_size_t (capacity ar)) (exp_factor ar)));
    let ar :=
      if new_capacity <=? capacity ar
      then set_capacity ar CC_MAX_ELEMENTS
      else set_capacity ar new_capacity in
    match malloc alloc_ok (wrap (capacity ar * sizeof_ptr)) with
    | None => Ret (CC_ERR_ALLOC, ar)
    | Some new_buff =>
        new_buff ← copy_slots new_buff 0 (buffer ar) 0
                    (wrap (size ar * sizeof_ptr));
        Ret (CC_OK, set_buffer ar new_buff)
    end.

(** *** cc_array_add *)
Definition cc_array_add (alloc_ok : bool) (ar : CC_Array) (element : Z)
    : outcome (cc_stat * CC_Array) :=
  '(status, ar) ←
    (if capacity ar <=? size ar then expand_capacity alloc_ok ar
     else Ret (CC_OK, ar));
  if decide (status ≠ CC_OK) then Ret (status, ar)
  else
    b ← store (buffer ar) (size ar) (Some element);
    Ret (CC_OK, set_size (set_buffer ar b) (wrap (size ar + 1))).

(** *** cc_array_add_at *)
Definition cc_array_add_at (alloc_ok : bool) (ar : CC_Array) (element : Z)
    (index : Z) : outcome (cc_stat * CC_Array) :=
  if index =? size ar then cc_array_add alloc_ok ar element
  else if ((size ar =? 0) && negb (index =? 0))
          || (wrap (size ar - 1) <? index)
  then Ret (CC_ERR_OUT_OF_RANGE, ar)
  else
    '(status, ar) ←
      (if capacity ar <=? size ar then expand_capacity alloc_ok ar
       else Ret (CC_OK, ar));
    if decide (status ≠ CC_OK) then Ret (status, ar)
    else
      let shift := wrap (wrap (size ar - index) * sizeof_ptr) in
      b ← copy_slots (buffer ar) (index + 1) (buffer ar) index shift;
      b ← store b index (Some element);
      Ret (CC_OK, set_size (set_buffer ar b) (wrap (size ar + 1))).

(** The capacity [expand_capacity] settles on, from the product computed in
    single precision. *)
Definition grown (ar : CC_Array) : option Z :=
  nc ← to_size_t (mul (of_size_t (capacity ar)) (exp_factor ar));
  Some (if nc <=? capacity ar then CC_MAX_ELEMENTS else nc).

(** The capacity check that opens both [cc_array_add] and [cc_array_add_at]. *)
Definition ensure_room (alloc_ok : bool) (ar : CC_Array)
    : outcome (cc_stat * CC_Array) :=
  if capacity ar <=? size ar then expand_capacity alloc_ok ar
  else Ret (CC_OK, ar).

End WithMaxElements.

(** What [cc_array_add] does once there is room. *)
Definition append_body (ar : CC_Array) (element : Z)
    : outcome (cc_stat * CC_Array) :=
  b ← store (buffer ar) (size ar) (Some element);
  Ret (CC_OK, set_size (set_buffer ar b) (wrap (size ar + 1))).

(** What [cc_array_add_at] does once there is room. *)
Definition insert_body (ar : CC_Array) (element index : Z)
    : outcome (cc_stat * CC_Array) :=
  let shift := wrap (wrap (size ar - index) * sizeof_ptr) in
  b ← copy_slots (buffer ar) (index + 1) (buffer ar) index shift;
  b ← store b index (Some element);
  Ret (CC_OK, set_size (set_buffer ar b) (wrap (size ar + 1))).

(** *** cc_array_new
    [a1] and [a2] tell whether the two allocations succeed. *)
Definition cc_array_new (a1 a2 : bool) : cc_stat * option CC_Array :=
  if negb a1 then (CC_ERR_ALLOC, None)
  else
    match malloc a2 (wrap (DEFAULT_CAPACITY * sizeof_ptr)) with
    | None => (CC_ERR_ALLOC, None)
    | Some buff =>
        (CC_OK, Some (mkArray 0 DEFAULT_CAPACITY
                        (of_size_t DEFAULT_EXPANSION_FACTOR) buff))
    end.

(** *** cc_array_replace_at *)
Definition cc_array_replace_at (ar : CC_Array) (element : Z) (index : Z)
    (out : out_slot) : outcome (cc_stat * CC_Array * out_slot) :=
  if size ar <=? index then Ret (CC_ERR_OUT_OF_RANGE, ar, out)
  else
    out ← match out with
          | NullOut => Ret NullOut
          | Slot _ => old ← load (buffer ar) index; Ret (Slot old)
          end;
    b ← store (buffer ar) index (Some element);
    Ret (CC_OK, set_buffer ar b, out).

(** *** cc_array_swap_at *)
Definition cc_array_swap_at (ar : CC_Array) (index1 index2 : Z)
    : outcome (cc_stat * CC_Array) :=
  if (size ar <=? index1) || (size ar <=? index2)
  then Ret (CC_ERR_OUT_OF_RANGE, ar)
  else
    tmp ← load (buffer ar) index1;
    v2 ← load (buffer ar) index2;
    b ← store (buffer ar) index1 v2;
    b ← store b index2 tmp;
    Ret (CC_OK, set_buffer ar b).

(** [ar->buffer[i] == element]: the slot is read and compared as a pointer;
    comparing an indeterminate value is undefined. *)
Definition slot_equals (b : list cell) (i : Z) (element : Z) : outcome bool :=
  c ← load b i;
  match c with
  | Some p => Ret (p =? element)
  | None => Fault
  end.

(** *** cc_array_index_of
    The loop [for (i = 0; i < ar->size; i++)], with [n] iterations left; the
    counter stays below [size], so [i++] does not wrap. *)
Fixpoint index_of_loop (n : nat) (i : Z) (b : list cell) (element : Z)
    : outcome (option Z) :=
  match n with
  | O => Ret None
  | S n' =>
      eq ← slot_equals b i element;
      if eq : bool then Ret (Some i) else index_of_loop n' (i + 1) b element
  end.

Definition cc_array_index_of (ar : CC_Array) (element : Z)
    : outcome (cc_stat * option Z) :=
  r ← index_of_loop (Z.to_nat (size ar)) 0 (buffer ar) element;
  match r with
  | Some i => Ret (CC_OK, Some i)
  | None => Ret (CC_ERR_OUT_OF_RANGE, None)
  end.

(** The tail of [cc_array_remove] and [cc_array_remove_at]: close the gap
    at [index] and decrement the size. *)
Definition remove_slot (ar : CC_Array) (index : Z) : outcome CC_Array :=
  b ← (if index =? wrap (size ar - 1) then Ret (buffer ar)
       else
         let block_size := wrap (wrap (size ar - 1 - index) * sizeof_ptr) in
         copy_slots (buffer ar) index (buffer ar) (index + 1) block_size);
  Ret (set_size (set_buffer ar b) (wrap (size ar - 1))).

(** *** cc_array_remove *)
Definition cc_array_remove (ar : CC_Array) (element : Z) (out : out_slot)
    : outcome (cc_stat * CC_Array * out_slot) :=
  '(status, index) ← cc_array_index_of ar element;
  if decide (status = CC_ERR_OUT_OF_RANGE)
  then Ret (CC_ERR_VALUE_NOT_FOUND, ar, out)
  else
    index ← of_option index;
    ar ← remove_slot ar index;
    Ret (CC_OK, ar, store_out_opt out (Some element)).

(** *** cc_array_remove_at *)
Definition cc_array_remove_at (ar : CC_Array) (index : Z) (out : out_slot)
    : outcome (cc_stat * CC_Array * out_slot) :=
  if size ar <=? index then Ret (CC_ERR_OUT_OF_RANGE, ar, out)
  else
    out ← match out with
          | NullOut => Ret NullOut
          | Slot _ => old ← load (buffer ar) index; Ret (Slot old)
          end;
    ar ← remove_slot ar index;
    Ret (CC_OK, ar, out).

(** *** cc_array_remove_all *)
Definition cc_array_remove_all (ar : CC_Array) : CC_Array := set_size ar 0.

(** *** cc_array_get_at *)
Definition cc_array_get_at (ar : CC_Array) (index : Z) (out : out_slot)
    : outcome (cc_stat * out_slot) :=
  if size ar <=? index then Ret (CC_ERR_OUT_OF_RANGE, out)
  else
    v ← load (buffer ar) index;
    out ← store_out out v;
    Ret (CC_OK, out).

(** *** cc_array_subarray
    The structure comes from [calloc], so the fields that are not assigned
    ([exp_factor]) are all-bits-zero, the float [+0.0]. *)
Definition cc_array_subarray (a1 a2 : bool) (ar : CC_Array) (b e : Z)
    : outcome (cc_stat * option CC_Array) :=
  if (e <? b) || (size ar <=? e) then Ret (CC_ERR_INVALID_RANGE, None)
  else if negb a1 then Ret (CC_ERR_ALLOC, None)
  else
    match malloc a2 (wrap (capacity ar * sizeof_ptr)) with
    | None => Ret (CC_ERR_ALLOC, None)
    | Some buff =>
        let sub_size := wrap (wrap (e - b) + 1) in
        buff ← copy_slots buff 0 (buffer ar) b (wrap (sub_size * sizeof_ptr));
        Ret (CC_OK, Some (mkArray sub_size sub_size (F_zero false) buff))
    end.

(** *** cc_array_copy_shallow *)
Definition cc_array_copy_shallow (a1 a2 : bool) (ar : CC_Array)
    : outcome (cc_stat * option CC_Array) :=
  if negb a1 then Ret (CC_ERR_ALLOC, None)
  else
    match calloc a2 (capacity ar) with
    | None => Ret (CC_ERR_ALLOC, None)
    | Some buff =>
        buff ← copy_slots buff 0 (buffer ar) 0 (wrap (size ar * sizeof_ptr));
        Ret (CC_OK, Some (mkArray (size ar) (capacity ar) (exp_factor ar) buff))
    end.

(** *** cc_array_reverse
    The loop [for (i = 0, j = size - 1; i < size / 2; i++, j--)] with [n]
    iterations left. *)
Fixpoint reverse_loop (n : nat) (i j : Z) (b : list cell)
    : outcome (list cell) :=
  match n with
  | O => Ret b
  | S n' =>
      tmp ← load b i;
      vj ← load b j;
      b ← store b i vj;
      b ← store b j tmp;
      reverse_loop n' (i + 1) (j - 1) b
  end.

Definition cc_array_reverse (ar : CC_Array) : outcome CC_Array :=
  if size ar =? 0 then Ret ar
  else
    b ← reverse_loop (Z.to_nat (size ar / 2)) 0 (size ar - 1) (buffer ar);
    Ret (set_buffer ar b).

(** *** cc_array_trim_capacity *)
Definition cc_array_trim_capacity (alloc_ok : bool) (ar : CC_Array)
    : outcome (cc_stat * CC_Array) :=
  if size ar =? capacity ar then Ret (CC_OK, ar)
  else
    match calloc alloc_ok (size ar) with
    | None => Ret (CC_ERR_ALLOC, ar)
    | Some new_buff =>
        let size' := if size ar <? 1 then 1 else size ar in
        new_buff ← copy_slots new_buff 0 (buffer ar) 0
                    (wrap (size' * sizeof_ptr));
        Ret (CC_OK, set_capacity (set_buffer ar new_buff) (size ar))
    end.

(** *** cc_array_contains *)
Fixpoint contains_loop (n : nat) (i : Z) (b : list cell) (element : Z)
    (o : Z) : outcome Z :=
  match n with
  | O => Ret o
  | S n' =>
      eq ← slot_equals b i element;
      contains_loop n' (i + 1) b element (if eq : bool then wrap (o + 1) else o)
  end.

Definition cc_array_contains (ar : CC_Array) (element : Z) : outcome Z :=
  contains_loop (Z.to_nat (size ar)) 0 (buffer ar) element 0.

Definition cc_array_size (ar : CC_Array) : Z := size ar.
Definition cc_array_capacity (ar : CC_Array) : Z := capacity ar.

(** *** Well-formed arrays and their contents *)

(** The live slots are inside the capacity, the capacity is inside the
    block, and the block is one the allocator can hand out (its size in
    bytes is a [size_t]). *)
Definition wf (ar : CC_Array) : Prop :=
  0 ≤ size ar ∧ size ar ≤ capacity ar
  ∧ capacity ar ≤ Z.of_nat (length (buffer ar))
  ∧ Z.of_nat (length (buffer ar)) * sizeof_ptr ≤ SIZE_MAX.

(** The stored elements, in index order. *)
Definition elements (ar : CC_Array) : list cell :=
  take (Z.to_nat (size ar)) (buffer ar).

(** What [get_at] delivers into a caller's slot, if it succeeds. *)
Definition get (ar : CC_Array) (index : Z) : option cell :=
  match cc_array_get_at ar index (Slot None) with
  | Ret (CC_OK, Slot v) => Some v
  | _ => None
  end.

(** Every live slot has been written. *)
Definition initialized (ar : CC_Array) : Prop :=
  Forall is_Some (elements ar).

(** The growth factors the library installs: 2 in [cc_array_new], the zeroed
    field left by [cc_array_subarray]; [cc_array_copy_shallow] copies one of
    them. *)
Definition installed_factor (f : float) : Prop :=
  f = of_size_t DEFAULT_EXPANSION_FACTOR ∨ f = F_zero false.

(** [floor(capacity * growth_factor)] over the reals, for a finite factor. *)
Definition floor_mul (c : Z) (f : float) : option Z :=
  match f with
  | F_zero _ => Some 0
  | F_fin neg m e =>
      let p := if neg then - (c * m) else c * m in
      Some (if 0 <=? e then p * 2 ^ e else p / 2 ^ (- e))
  | F_inf _ | F_nan => None
  end.

(** *** Particular arrays *)

(** The array [cc_array_new] returns. *)
Definition empty8 : CC_Array :=
  mkArray 0 8 (F_fin false 2 0) (replicate 8 None).

(** The new array after eight [add]s: full, capacity 8. *)
Definition full8 : CC_Array :=
  mkArray 8 8 (F_fin false 2 0)
    [Some 101; Some 102; Some 103; Some 104;
     Some 105; Some 106; Some 107; Some 108].

(** A full array of [2^24 + 1] elements with the default growth factor, as
    [trim_capacity] leaves it after that many [add]s. *)
Definition big : CC_Array :=
  mkArray 16777217 16777217 (F_fin false 2 0)
    (replicate (Z.to_nat 16777217) (Some NULL)).

(** *** The growth rule in the specification's words
    A call of [add] that finds the array full reports [CC_ERR_MAX_CAPACITY]
    exactly at the maximum, and otherwise leaves the capacity at
    [floor(capacity * growth_factor)], or at the maximum if that product does
    not exceed the old capacity, and never below the size. *)
Definition growth_as_stated (max_elements : Z) (ar : CC_Array) : Prop :=
  ∀ ok e st ar',
    capacity ar ≤ size ar →
    cc_array_add max_elements ok ar e = Ret (st, ar') →
    (st = CC_ERR_MAX_CAPACITY ↔ capacity ar = max_elements)
    ∧ (capacity ar ≠ max_elements →
       ∃ p, floor_mul (capacity ar) (exp_factor ar) = Some p
            ∧ capacity ar' = if p <=? capacity ar then max_elements else p)
    ∧ size ar' ≤ capacity ar'.

(** *** Optional output slots in the specification's words
    With a valid index, [get_at], [replace_at] and [remove_at] succeed when
    the caller passes no output slot. *)
Definition null_out_as_stated (ar : CC_Array) (index : Z) : Prop :=
  (∃ r, cc_array_get_at ar index NullOut = Ret (CC_OK, r))
  ∧ (∃ ar' r, cc_array_replace_at ar NULL index NullOut = Ret (CC_OK, ar', r))
  ∧ (∃ ar' r, cc_array_remove_at ar index NullOut = Ret (CC_OK, ar', r)).

(** *** cc_array_contains_value
    The comparator is a C function of two element pointers returning an
    [int], taken here as a function of the two pointer values; it is called
    as [cmp(element, ar->buffer[i])]. *)
Fixpoint contains_value_loop (n : nat) (i : Z) (b : list cell) (element : Z)
    (cmp : Z → Z → Z) (o : Z) : outcome Z :=
  match n with
  | O => Ret o
  | S n' =>
      c ← load b i;
      match c with
      | Some p =>
          contains_value_loop n' (i + 1) b element cmp
            (if cmp element p =? 0 then wrap (o + 1) else o)
      | None => Fault
      end
  end.

Definition cc_array_contains_value (ar : CC_Array) (element : Z)
    (cmp : Z → Z → Z) : outcome Z :=
  contains_value_loop (Z.to_nat (size ar)) 0 (buffer ar) element cmp 0.

(** *** cc_array_remove_all_free
    [live] are the addresses of the blocks the elements may own.
    [free(p)] ignores a null pointer and releases a live block; freeing
    anything else (a block released before) is undefined. *)
Definition free_element (live : gset Z) (p : Z) : outcome (gset Z) :=
  if p =? NULL then Ret live
  else if decide (p ∈ live) then Ret (live ∖ {[p]})
  else Fault.

(** The loop [for (i = 0; i < ar->size; i++) free(ar->buffer[i])], with [n]
    iterations left. *)
Fixpoint free_loop (n : nat) (i : Z) (b : list cell) (live : gset Z)
    : outcome (gset Z) :=
  match n with
  | O => Ret live
  | S n' =>
      c ← load b i;
      match c with
      | Some p => live ← free_element live p; free_loop n' (i + 1) b live
      | None => Fault
      end
  end.

Definition cc_array_remove_all_free (ar : CC_Array) (live : gset Z)
    : outcome (CC_Array * gset Z) :=
  live ← free_loop (Z.to_nat (size ar)) 0 (buffer ar) live;
  Ret (cc_array_remove_all ar, live).

(** *** Sequences of calls *)

(** [cc_array_add] of the elements [es] one after the other, stopping at the
    first call that does not return [CC_OK]. *)
Fixpoint add_all (max_elements : Z) (alloc_ok : bool) (ar : CC_Array)
    (es : list Z) : outcome (cc_stat * CC_Array) :=
  match es with
  | [] => Ret (CC_OK, ar)
  | e :: es' =>
      '(status, ar) ← cc_array_add max_elements alloc_ok ar e;
      if decide (status ≠ CC_OK) then Ret (status, ar)
      else add_all max_elements alloc_ok ar es'
  end.

(** The number of slots of [l] that hold a pointer satisfying [f]. *)
Fixpoint count_slots (f : Z → bool) (l : list cell) : Z :=
  match l with
  | [] => 0
  | Some p :: l' => (if f p then 1 else 0) + count_slots f l'
  | None :: l' => count_slots f l'
  end.

End Array.

(** ** The singly-linked list *)
Module SList.

(** [SNode]: an element and the address of the next node ([NULL] at the
    end). *)
Record SNode := mkNode {
  data : Z;
  next : Z;
}.

(** [struct cc_slist_s]. *)
Record CC_SList := mkList {
  size : Z;
  head : Z;
  tail : Z;
}.

(** The nodes that are allocated, by address. *)
Abbreviation heap := (gmap Z SNode).

(** *** Node memory *)

(** [calloc(1, sizeof(SNode))] returned [p]: a zeroed node at [p]. *)
Definition alloc_node (h : heap) (p : Z) : heap := <[p := mkNode 0 NULL]> h.

(** [free(p)]. *)
Definition free_node (h : heap) (p : Z) : heap := delete p h.

(** Reading [*p]; a null or dangling [p] is a fault. *)
Definition load_node (h : heap) (p : Z) : outcome SNode := of_option (h !! p).

(** [p->data = v]. *)
Definition store_data (h : heap) (p : Z) (v : Z) : outcome heap :=
  nd ← load_node h p; Ret (<[p := mkNode v (next nd)]> h).

(** [p->next = q]. *)
Definition store_next (h : heap) (p : Z) (q : Z) : outcome heap :=
  nd ← load_node h p; Ret (<[p := mkNode (data nd) q]> h).

Definition set_size (l : CC_SList) (n : Z) : CC_SList :=
  mkList n (head l) (tail l).
Definition set_head (l : CC_SList) (p : Z) : CC_SList :=
  mkList (size l) p (tail l).
Definition set_tail (l : CC_SList) (p : Z) : CC_SList :=
  mkList (size l) (head l) p.

(** *** cc_slist_new *)
Definition cc_slist_new (ok : bool) : cc_stat * option CC_SList :=
  if ok then (CC_OK, Some (mkList 0 NULL NULL)) else (CC_ERR_ALLOC, None).

(** *** cc_slist_add_first
    [p] is what [calloc] returns for the node: [NULL] on failure. *)
Definition cc_slist_add_first (h : heap) (list : CC_SList) (p : Z)
    (element : Z) : outcome (cc_stat * heap * CC_SList) :=
  if p =? NULL then Ret (CC_ERR_ALLOC, h, list)
  else
    let h := alloc_node h p in
    h ← store_data h p element;
    '(h, list) ←
      (if size list =? 0 then Ret (h, set_tail (set_head list p) p)
       else h ← store_next h p (head list); Ret (h, set_head list p));
    Ret (CC_OK, h, set_size list (wrap (size list + 1))).

(** *** cc_slist_add_last *)
Definition cc_slist_add_last (h : heap) (list : CC_SList) (p : Z)
    (element : Z) : outcome (cc_stat * heap * CC_SList) :=
  if p =? NULL then Ret (CC_ERR_ALLOC, h, list)
  else
    let h := alloc_node h p in
    h ← store_data h p element;
    '(h, list) ←
      (if size list =? 0 then Ret (h, set_tail (set_head list p) p)
       else h ← store_next h (tail list) p; Ret (h, set_tail list p));
    Ret (CC_OK, h, set_size list (wrap (size list + 1))).

(** *** get_node_at
    The loop [for (i = 0; i < index; i++)] with [n] iterations left. *)
Fixpoint walk (n : nat) (h : heap) (node prev : Z) : outcome (Z * Z) :=
  match n with
  | O => Ret (node, prev)
  | S n' => nd ← load_node h node; walk n' h (next nd) node
  end.

(** Returns the status and the values left in [*node] and [*prev]; the
    callers initialise both to [NULL]. *)
Definition get_node_at (h : heap) (list : CC_SList) (index : Z)
    : outcome (cc_stat * Z * Z) :=
  if size list <=? index then Ret (CC_ERR_OUT_OF_RANGE, NULL, NULL)
  else
    '(node, prev) ← walk (Z.to_nat index) h (head list) NULL;
    Ret (CC_OK, node, prev).

(** *** get_node
    The [while] loop over [*node], given [fuel] iterations. *)
Fixpoint get_node_loop (fuel : nat) (h : heap) (node prev : Z) (element : Z)
    : outcome (cc_stat * Z * Z) :=
  if node =? NULL then Ret (CC_ERR_VALUE_NOT_FOUND, node, prev)
  else
    match fuel with
    | O => OutOfFuel
    | S fuel' =>
        nd ← load_node h node;
        if data nd =? element then Ret (CC_OK, node, prev)
        else get_node_loop fuel' h (next nd) node element
    end.

Definition get_node (fuel : nat) (h : heap) (list : CC_SList) (element : Z)
    : outcome (cc_stat * Z * Z) :=
  get_node_loop fuel h (head list) NULL element.

(** *** cc_slist_add_at *)
Definition cc_slist_add_at (h : heap) (list : CC_SList) (p : Z)
    (element : Z) (index : Z) : outcome (cc_stat * heap * CC_SList) :=
  '(status, node, prev) ← get_node_at h list index;
  if decide (status ≠ CC_OK) then Ret (status, h, list)
  else if p =? NULL then Ret (CC_ERR_ALLOC, h, list)
  else
    let h := alloc_node h p in
    h ← store_data h p element;
    '(h, list) ←
      (if prev =? NULL then
         h ← store_next h p (head list); Ret (h, set_head list p)
       else
         pn ← load_node h prev;
         let tmp := next pn in
         h ← store_next h prev p;
         h ← store_next h p tmp;
         Ret (h, list));
    Ret (CC_OK, h, set_size list (wrap (size list + 1))).

(** *** cc_slist_splice *)
Definition cc_slist_splice (h : heap) (list1 list2 : CC_SList)
    : outcome (cc_stat * heap * CC_SList * CC_SList) :=
  if size list2 =? 0 then Ret (CC_OK, h, list1, list2)
  else
    '(h, list1) ←
      (if size list1 =? 0
       then Ret (h, set_tail (set_head list1 (head list2)) (tail list2))
       else
         h ← store_next h (tail list1) (head list2);
         Ret (h, set_tail list1 (tail list2)));
    let list1 := set_size list1 (wrap (size list1 + size list2)) in
    Ret (CC_OK, h, list1, mkList 0 NULL NULL).

(** *** unlinkn *)
Definition unlinkn (h : heap) (list : CC_SList) (node prev : Z)
    : outcome (Z * heap * CC_SList) :=
  nd ← load_node h node;
  let data := data nd in
  '(h, list) ←
    (if negb (prev =? NULL) then
       h ← store_next h prev (next nd); Ret (h, list)
     else Ret (h, set_head list (next nd)));
  nd ← load_node h node;
  let list := if next nd =? NULL then set_tail list prev else list in
  let h := free_node h node in
  Ret (data, h, set_size list (wrap (size list - 1))).

(** *** unlinkn_all
    [cb] tells whether a callback was passed; the elements it is called on
    are collected in order. *)
Fixpoint unlinkn_all_loop (fuel : nat) (h : heap) (list : CC_SList) (n : Z)
    (cb : bool) : outcome (heap * CC_SList * Datatypes.list Z) :=
  if n =? NULL then Ret (h, list, [])
  else
    match fuel with
    | O => OutOfFuel
    | S fuel' =>
        nd ← load_node h n;
        let tmp := next nd in
        let h := free_node h n in
        let list := set_size list (wrap (size list - 1)) in
        '(h, list, released) ← unlinkn_all_loop fuel' h list tmp cb;
        Ret (h, list, if cb then data nd :: released else released)
    end.

Definition unlinkn_all (fuel : nat) (h : heap) (list : CC_SList) (cb : bool)
    : outcome (bool * heap * CC_SList * Datatypes.list Z) :=
  if size list =? 0 then Ret (false, h, list, [])
  else
    '(h, list, released) ← unlinkn_all_loop fuel h list (head list) cb;
    Ret (true, h, list, released).

(** *** cc_slist_remove *)
Definition cc_slist_remove (fuel : nat) (h : heap) (list : CC_SList)
    (element : Z) (out : out_slot)
    : outcome (cc_stat * heap * CC_SList * out_slot) :=
  '(status, node, prev) ← get_node fuel h list element;
  if decide (status ≠ CC_OK) then Ret (status, h, list, out)
  else
    '(val, h, list) ← unlinkn h list node prev;
    Ret (CC_OK, h, list, store_out_opt out (Some val)).

(** *** cc_slist_remove_at *)
Definition cc_slist_remove_at (h : heap) (list : CC_SList) (index : Z)
    (out : out_slot) : outcome (cc_stat * heap * CC_SList * out_slot) :=
  '(status, node, prev) ← get_node_at h list index;
  if decide (status ≠ CC_OK) then Ret (status, h, list, out)
  else
    '(e, h, list) ← unlinkn h list node prev;
    Ret (CC_OK, h, list, store_out_opt out (Some e)).

(** *** cc_slist_remove_first *)
Definition cc_slist_remove_first (h : heap) (list : CC_SList)
    (out : out_slot) : outcome (cc_stat * heap * CC_SList * out_slot) :=
  if size list =? 0 then Ret (CC_ERR_VALUE_NOT_FOUND, h, list, out)
  else
    '(e, h, list) ← unlinkn h list (head list) NULL;
    Ret (CC_OK, h, list, store_out_opt out (Some e)).

(** *** cc_slist_remove_all and cc_slist_remove_all_cb *)
Definition remove_all_with (fuel : nat) (h : heap) (list : CC_SList)
    (cb : bool) : outcome (cc_stat * heap * CC_SList * Datatypes.list Z) :=
  '(unlinked, h, list, released) ← unlinkn_all fuel h list cb;
  if unlinked : bool
  then Ret (CC_OK, h, set_tail (set_head list NULL) NULL, released)
  else Ret (CC_ERR_VALUE_NOT_FOUND, h, list, released).

Definition cc_slist_remove_all (fuel : nat) (h : heap) (list : CC_SList)
    : outcome (cc_stat * heap * CC_SList) :=
  '(status, h, list, _) ← remove_all_with fuel h list false;
  Ret (status, h, list).

Definition cc_slist_remove_all_cb (fuel : nat) (h : heap) (list : CC_SList)
    : outcome (cc_stat * heap * CC_SList * Datatypes.list Z) :=
  remove_all_with fuel h list true.

(** *** cc_slist_replace_at *)
Definition cc_slist_replace_at (h : heap) (list : CC_SList) (element : Z)
    (index : Z) (out : out_slot)
    : outcome (cc_stat * heap * CC_SList * out_slot) :=
  '(status, node, prev) ← get_node_at h list index;
  if decide (status ≠ CC_OK) then Ret (status, h, list, out)
  else
    nd ← load_node h node;
    let old := data nd in
    h ← store_data h node element;
    Ret (CC_OK, h, list, store_out_opt out (Some old)).

(** *** cc_slist_get_at *)
Definition cc_slist_get_at (h : heap) (list : CC_SList) (index : Z)
    (out : out_slot) : outcome (cc_stat * out_slot) :=
  '(status, node, prev) ← get_node_at h list index;
  if decide (status ≠ CC_OK) then Ret (status, out)
  else
    nd ← load_node h node;
    out ← store_out out (Some (data nd));
    Ret (CC_OK, out).

Definition cc_slist_size (list : CC_SList) : Z := size list.

(** *** cc_slist_reverse
    The loop [while (flip)], given [fuel] iterations; returns the heap and
    the final [prev]. *)
Fixpoint reverse_loop (fuel : nat) (h : heap) (prev flip : Z)
    : outcome (heap * Z) :=
  if flip =? NULL then Ret (h, prev)
  else
    match fuel with
    | O => OutOfFuel
    | S fuel' =>
        nd ← load_node h flip;
        let next := next nd in
        h ← store_next h flip prev;
        reverse_loop fuel' h flip next
    end.

Definition cc_slist_reverse (fuel : nat) (h : heap) (list : CC_SList)
    : outcome (heap * CC_SList) :=
  if (size list =? 0) || (size list =? 1) then Ret (h, list)
  else
    let flip := head list in
    let list := set_tail list (head list) in
    '(h, prev) ← reverse_loop fuel h NULL flip;
    Ret (h, set_head list prev).

(** *** cc_slist_copy_shallow
    [ps] are the addresses [calloc] returns for the nodes of the copy, one
    per iteration of [while (node)]; the loop is cut off when they run
    out.  On a failed [add_last] the copy is destroyed. *)
Fixpoint copy_loop (ps : list Z) (fuel : nat) (h : heap) (copy : CC_SList)
    (node : Z) : outcome (cc_stat * heap * option CC_SList) :=
  if node =? NULL then Ret (CC_OK, h, Some copy)
  else
    match ps with
    | [] => OutOfFuel
    | p :: ps' =>
        nd ← load_node h node;
        '(status, h, copy) ← cc_slist_add_last h copy p (data nd);
        if decide (status ≠ CC_OK) then
          '(_, h, _) ← cc_slist_remove_all fuel h copy;
          Ret (status, h, None)
        else copy_loop ps' fuel h copy (next nd)
    end.

Definition cc_slist_copy_shallow (ok : bool) (ps : list Z) (fuel : nat)
    (h : heap) (list : CC_SList)
    : outcome (cc_stat * heap * option CC_SList) :=
  match cc_slist_new ok with
  | (status, None) => Ret (status, h, None)
  | (_, Some copy) => copy_loop ps fuel h copy (head list)
  end.

(** *** cc_slist_contains *)
Fixpoint contains_loop (fuel : nat) (h : heap) (node : Z) (element : Z)
    (e_count : Z) : outcome Z :=
  if node =? NULL then Ret e_count
  else
    match fuel with
    | O => OutOfFuel
    | S fuel' =>
        nd ← load_node h node;
        contains_loop fuel' h (next nd) element
          (if data nd =? element then wrap (e_count + 1) else e_count)
    end.

Definition cc_slist_contains (fuel : nat) (h : heap) (list : CC_SList)
    (element : Z) : outcome Z :=
  contains_loop fuel h (head list) element 0.

(** *** Structure of a list in the heap *)

(** The chain of nodes [ns] leads from [p] to [q]. *)
Fixpoint seg (h : heap) (p : Z) (ns : list Z) (q : Z) : Prop :=
  match ns with
  | [] => p = q
  | n :: ns' => p = n ∧ ∃ nd, h !! n = Some nd ∧ seg h (next nd) ns' q
  end.

(** The elements stored in the nodes [ns]. *)
Definition contents (h : heap) (ns : list Z) : list Z :=
  omap (λ n, data <$> h !! n) ns.

(** Addresses are non-null values of [size_t]. *)
Definition heap_ok (h : heap) : Prop :=
  ∀ p nd, h !! p = Some nd → 0 < p ≤ SIZE_MAX.

(** The list [l] consists of exactly the nodes [ns], in this order. *)
Definition repr (h : heap) (l : CC_SList) (ns : list Z) : Prop :=
  seg h (head l) ns NULL
  ∧ tail l = default NULL (last ns)
  ∧ size l = Z.of_nat (length ns).

(** What [calloc] may return for a node: [NULL], or an address that is not
    in use. *)
Definition fresh (h : heap) (p : Z) : Prop :=
  p = NULL ∨ (h !! p = None ∧ 0 < p ≤ SIZE_MAX).

(** [k] steps along the forward links from [p]. *)
Fixpoint follow (k : nat) (h : heap) (p : Z) : option Z :=
  match k with
  | O => Some p
  | S k' => nd ← h !! p; follow k' h (next nd)
  end.

(** The invariant of the data model: the list is empty exactly when head
    and tail are null; otherwise the tail is reached from the head after
    exactly [size - 1] steps, and its forward link is null. *)
Definition structural_invariant (h : heap) (l : CC_SList) : Prop :=
  0 ≤ size l
  ∧ (size l = 0 ↔ head l = NULL ∧ tail l = NULL)
  ∧ (0 < size l →
     follow (Z.to_nat (size l - 1)) h (head l) = Some (tail l)
     ∧ (∀ k, (k < Z.to_nat (size l - 1))%nat →
          follow k h (head l) ≠ Some (tail l))
     ∧ ∃ nd, h !! tail l = Some nd ∧ next nd = NULL).

(** A list in good order: its nodes sit at proper addresses and the
    invariant of the data model holds. *)
Definition list_ok (h : heap) (l : CC_SList) : Prop :=
  heap_ok h ∧ structural_invariant h l.

(** Two lists that share no node. *)
Definition disjoint_lists (h : heap) (a b : CC_SList) : Prop :=
  ∀ na nb, repr h a na → repr h b nb → ∀ n, n ∈ na → n ∉ nb.

(** *** Particular lists *)

(** The list [[100; 200; 300]] in nodes at 16, 32 and 48, and beside it the
    one-element list [[400]] in a node at 64. *)
Definition heap4 : heap :=
  <[16 := mkNode 100 32]> (<[32 := mkNode 200 48]> (<[48 := mkNode 300 NULL]>
    (<[64 := mkNode 400 NULL]> ∅))).
Definition list3 : CC_SList := mkList 3 16 48.
Definition list1 : CC_SList := mkList 1 64 64.

(** *** cc_slist_contains_value
    The comparator is called as [cmp(node->data, element)]. *)
Fixpoint contains_value_loop (fuel : nat) (h : heap) (node : Z) (element : Z)
    (cmp : Z → Z → Z) (e_count : Z) : outcome Z :=
  if node =? NULL then Ret e_count
  else
    match fuel with
    | O => OutOfFuel
    | S fuel' =>
        nd ← load_node h node;
        contains_value_loop fuel' h (next nd) element cmp
          (if cmp (data nd) element =? 0 then wrap (e_count + 1) else e_count)
    end.

Definition cc_slist_contains_value (fuel : nat) (h : heap) (list : CC_SList)
    (element : Z) (cmp : Z → Z → Z) : outcome Z :=
  contains_value_loop fuel h (head list) element cmp 0.

(** *** cc_slist_destroy and cc_slist_destroy_cb
    The nodes are removed, then the list structure itself is released; what
    is left is the node heap (and the elements the callback was called
    on). *)
Definition cc_slist_destroy (fuel : nat) (h : heap) (list : CC_SList)
    : outcome heap :=
  '(_, h, _) ← cc_slist_remove_all fuel h list;
  Ret h.

Definition cc_slist_destroy_cb (fuel : nat) (h : heap) (list : CC_SList)
    : outcome (heap * Datatypes.list Z) :=
  '(_, h, _, released) ← cc_slist_remove_all_cb fuel h list;
  Ret (h, released).

(** The number of elements of [l] satisfying [f]. *)
Fixpoint count_if (f : Z → bool) (l : Datatypes.list Z) : Z :=
  match l with
  | [] => 0
  | x :: l' => (if f x then 1 else 0) + count_if f l'
  end.

End SList.

(** * Facts *)

Lemma wrap_small x : 0 ≤ x ≤ SIZE_MAX → wrap x = x.
Proof. intros H. unfold wrap. apply Z.mod_small. unfold SIZE_MAX in H. lia. Qed.

Lemma wrap_range x : 0 ≤ wrap x ≤ SIZE_MAX.
Proof.
  unfold wrap, SIZE_MAX.
  pose proof (Z.mod_pos_bound x SIZE_MODULUS ltac:(done)). lia.
Qed.

(** ** Rounding *)
Module Float32Facts.
Import Float32.

Lemma f_two_eq : f_two = F_fin false 2 0.
Proof. reflexivity. Qed.

(** Up to 24 significant bits (and a non-negative exponent) nothing is
    rounded away. *)
Lemma round_mant_small m e :
  0 < m → Z.log2 m < prec → emin ≤ e → round_mant m e = (m, e).
Proof.
  intros Hm Hl He. unfold round_mant.
  replace (Z.max _ _ <=? 0) with true; [done|].
  symmetry. apply Z.leb_le. unfold prec in *. lia.
Qed.

(** Above 24 bits the low [d] bits are dropped; when they are all zero the
    value is unchanged. *)
Lemma round_mant_large m e :
  prec ≤ Z.log2 m → 0 ≤ e →
  let d := Z.log2 m + 1 - prec in
  m mod 2 ^ d = 0 → round_mant m e = (m / 2 ^ d, e + d).
Proof.
  intros Hl He d Hr. unfold round_mant.
  replace (Z.max (Z.log2 m + 1 - prec) (emin - e)) with d
    by (unfold emin, prec in *; lia).
  replace (d <=? 0) with false by (symmetry; apply Z.leb_gt; lia).
  rewrite Hr.
  assert (0 < 2 ^ (d - 1)) by (apply Z.pow_pos_nonneg; lia).
  replace (2 ^ (d - 1) <? 0) with false by (symmetry; apply Z.ltb_ge; lia).
  replace (0 =? 2 ^ (d - 1)) with false by (symmetry; apply Z.eqb_neq; lia).
  done.
Qed.

(** The rounded significand is at most one above the given one, and the
    exponent grows by the number of bits dropped. *)
Lemma round_mant_bounds m e m' e' :
  0 < m → round_mant m e = (m', e') →
  0 ≤ m' ≤ m + 1 ∧ e' ≤ Z.max e (Z.max (e + Z.log2 m + 1 - prec) emin).
Proof.
  intros Hm. unfold round_mant.
  destruct (Z.max _ _ <=? 0) eqn:Hd.
  - intros [= <- <-]. lia.
  - apply Z.leb_gt in Hd. set (d := Z.max _ _) in *.
    intros [= <- <-].
    assert (0 < 2 ^ d) by (apply Z.pow_pos_nonneg; lia).
    assert (0 ≤ m / 2 ^ d ≤ m).
    { split; [apply Z.div_pos; lia|].
      apply Z.div_le_upper_bound; [lia|]. nia. }
    split; [destruct (_ || _); lia | lia].
Qed.

(** Converting a [size_t] never overflows the float range. *)
Lemma of_size_t_finite c :
  0 ≤ c < SIZE_MODULUS →
  of_size_t c = F_zero false ∨ ∃ m e, of_size_t c = F_fin false m e.
Proof.
  intros Hc. unfold of_size_t. destruct (c =? 0) eqn:E; [by left|].
  apply Z.eqb_neq in E. unfold round.
  destruct (round_mant c 0) as [m' e'] eqn:Hr.
  apply round_mant_bounds in Hr as [Hm' He']; [|lia].
  destruct (m' =? 0) eqn:E0; [by left|]. apply Z.eqb_neq in E0.
  assert (Z.log2 c < 64).
  { apply Z.log2_lt_pow2; unfold SIZE_MODULUS in Hc; lia. }
  assert (Z.log2 m' ≤ 64).
  { transitivity (Z.log2 (2 ^ 64)); [|by rewrite Z.log2_pow2].
    apply Z.log2_le_mono. unfold SIZE_MODULUS in Hc. lia. }
  replace (emax <=? Z.log2 m' + e') with false; [right; eauto|].
  symmetry. apply Z.leb_gt. unfold emax, prec, emin in *. lia.
Qed.

(** A growth factor of [+0.0] makes the product zero. *)
Lemma mul_zero_r c :
  0 ≤ c < SIZE_MODULUS → to_size_t (mul (of_size_t c) (F_zero false)) = Some 0.
Proof.
  intros Hc. destruct (of_size_t_finite c Hc) as [->|(m & e & ->)]; done.
Qed.

Lemma exact_round_mant c :
  0 < c < SIZE_MODULUS → exact c →
  ∃ m e, round_mant c 0 = (m, e) ∧ 0 < m ∧ Z.log2 m < prec ∧ 0 ≤ e ≤ 40
         ∧ c = m * 2 ^ e.
Proof.
  intros Hc. unfold exact, of_size_t.
  replace (c =? 0) with false by (symmetry; apply Z.eqb_neq; lia).
  assert (Hlog : 0 ≤ Z.log2 c < 64).
  { split; [apply Z.log2_nonneg|].
    apply Z.log2_lt_pow2; unfold SIZE_MODULUS in Hc; lia. }
  destruct (Z_lt_le_dec (Z.log2 c) prec) as [Hs|Hl].
  - intros _. exists c, 0. rewrite round_mant_small; unfold emin; try lia.
    repeat split; try lia.
  - unfold round. unfold round_mant.
    set (d := Z.log2 c + 1 - prec).
    assert (Hd : 0 < d ≤ 40) by (unfold d, prec in *; lia).
    replace (Z.max d (emin - 0)) with d by (unfold emin; lia).
    replace (d <=? 0) with false by (symmetry; apply Z.leb_gt; lia).
    assert (Hp : 0 < 2 ^ d) by (apply Z.pow_pos_nonneg; lia).
    pose proof (Z.div_mod c (2 ^ d) ltac:(lia)) as Hdm.
    pose proof (Z.mod_pos_bound c (2 ^ d) Hp) as Hrb.
    set (q := c / 2 ^ d) in *. set (r := c mod 2 ^ d) in *.
    assert (Hq : Z.log2 q = prec - 1).
    { unfold q. rewrite <- Z.shiftr_div_pow2 by lia.
      rewrite Z.log2_shiftr by lia. unfold d, prec in *. lia. }
    assert (Hqpos : 0 < q).
    { destruct (Z_lt_le_dec 0 q); [done|].
      rewrite Z.log2_nonpos in Hq by lia. unfold prec in Hq. lia. }
    destruct (_ || _) eqn:Hup.
    + (* rounded up: the value changed *)
      replace (q + 1 =? 0) with false by (symmetry; apply Z.eqb_neq; lia).
      destruct (emax <=? _); [done|]. cbn.
      replace (0 <=? 0 + d) with true by (symmetry; apply Z.leb_le; lia).
      destruct (_ <? SIZE_MODULUS); [|done].
      intros [= Hv]. exfalso. rewrite Z.add_0_l in Hv. nia.
    + replace (q =? 0) with false by (symmetry; apply Z.eqb_neq; lia).
      destruct (emax <=? _); [done|]. cbn.
      replace (0 <=? 0 + d) with true by (symmetry; apply Z.leb_le; lia).
      destruct (_ <? SIZE_MODULUS); [|done].
      intros [= Hv]. exists q, (0 + d). unfold prec in *.
      repeat split; try lia.
Qed.

Lemma round_fin neg m e :
  0 < m → Z.log2 m < prec → emin ≤ e → Z.log2 m + e < emax →
  round neg m e = F_fin neg m e.
Proof.
  intros Hm Hl He Hx. unfold round. rewrite round_mant_small by done.
  replace (m =? 0) with false by (symmetry; apply Z.eqb_neq; lia).
  replace (emax <=? Z.log2 m + e) with false; [done|].
  symmetry. apply Z.leb_gt. lia.
Qed.

(** Doubling a capacity that is exact in single precision is exact. *)
Lemma mul_two_exact c :
  0 ≤ c → 2 * c < SIZE_MODULUS → exact c →
  to_size_t (mul (of_size_t c) f_two) = Some (2 * c).
Proof.
  intros Hc H2 Hex. destruct (decide (c = 0)) as [->|Hne]; [done|].
  destruct (exact_round_mant c) as (m & e & Hr & Hm & Hl & He & Hv);
    [unfold SIZE_MODULUS in *; lia|done|].
  assert (Hof : of_size_t c = F_fin false m e).
  { unfold of_size_t.
    replace (c =? 0) with false by (symmetry; apply Z.eqb_neq; lia).
    unfold round. rewrite Hr.
    replace (m =? 0) with false by (symmetry; apply Z.eqb_neq; lia).
    replace (emax <=? Z.log2 m + e) with false; [done|].
    symmetry. apply Z.leb_gt. unfold emax, prec in *. lia. }
  rewrite Hof, f_two_eq. cbn [mul xorb]. rewrite Z.add_0_r.
  assert (Hlog2 : Z.log2 (m * 2) = Z.log2 m + 1).
  { rewrite Z.mul_comm. apply Z.log2_double. lia. }
  assert (Hpow : 2 ^ (e + 1) = 2 * 2 ^ e).
  { rewrite Z.pow_add_r by lia. lia. }
  destruct (Z_lt_le_dec (Z.log2 m + 1) prec) as [Hs|Hb].
  - rewrite round_fin; unfold emin, emax, prec in *; try lia.
    cbn [to_size_t].
    replace (0 <=? e) with true by (symmetry; apply Z.leb_le; lia).
    replace (m * 2 * 2 ^ e <? SIZE_MODULUS) with true
      by (symmetry; apply Z.ltb_lt; lia).
    f_equal. lia.
  - unfold round. rewrite round_mant_large; rewrite ?Hlog2; try lia.
    2:{ unfold prec in *. replace (Z.log2 m + 1 + 1 - 24) with 1 by lia.
        rewrite Z.pow_1_r. apply Z_mod_mult. }
    unfold prec in *. replace (Z.log2 m + 1 + 1 - 24) with 1 by lia.
    rewrite Z.pow_1_r, Z_div_mult by lia.
    replace (m =? 0) with false by (symmetry; apply Z.eqb_neq; lia).
    replace (emax <=? Z.log2 m + (e + 1)) with false
      by (symmetry; apply Z.leb_gt; unfold emax; lia).
    cbn [to_size_t].
    replace (0 <=? e + 1) with true by (symmetry; apply Z.leb_le; lia).
    replace (m * 2 ^ (e + 1) <? SIZE_MODULUS) with true
      by (symmetry; apply Z.ltb_lt; lia).
    f_equal. lia.
Qed.

Lemma exact_small c : 0 ≤ c < 2 ^ prec → exact c.
Proof.
  intros Hc. unfold exact, of_size_t.
  destruct (c =? 0) eqn:E; [apply Z.eqb_eq in E; by subst|].
  apply Z.eqb_neq in E.
  assert (Z.log2 c < prec) by (apply Z.log2_lt_pow2; lia).
  rewrite round_fin; unfold emin, emax, prec in *; try lia.
  cbn. rewrite Z.mul_1_r.
  replace (c <? SIZE_MODULUS) with true; [done|].
  symmetry. apply Z.ltb_lt. unfold SIZE_MODULUS. lia.
Qed.

End Float32Facts.

(** ** The dynamic array *)
Module ArrayFacts.
Import Float32 Float32Facts Array.

Lemma slots_of_bytes n : n * sizeof_ptr / sizeof_ptr = n.
Proof. apply Z_div_mult. done. Qed.

Lemma load_ok (b : list cell) i :
  0 ≤ i < Z.of_nat (length b) → load b i = of_option (b !! Z.to_nat i).
Proof.
  intros H. unfold load.
  replace (0 <=? i) with true by (symmetry; apply Z.leb_le; lia).
  replace (i <? Z.of_nat (length b)) with true by (symmetry; apply Z.ltb_lt; lia).
  done.
Qed.

Lemma load_Ret (b : list cell) i v :
  load b i = Ret v → 0 ≤ i < Z.of_nat (length b) ∧ b !! Z.to_nat i = Some v.
Proof.
  unfold load. destruct (0 <=? i) eqn:H0; [|done].
  destruct (i <? _) eqn:H1; [|done]. cbn.
  apply Z.leb_le in H0. apply Z.ltb_lt in H1.
  destruct (b !! _); [|done]. intros [= ->]. done.
Qed.

Lemma store_ok (b : list cell) i v :
  0 ≤ i < Z.of_nat (length b) → store b i v = Ret (<[Z.to_nat i := v]> b).
Proof.
  intros H. unfold store.
  replace (0 <=? i) with true by (symmetry; apply Z.leb_le; lia).
  replace (i <? Z.of_nat (length b)) with true by (symmetry; apply Z.ltb_lt; lia).
  done.
Qed.

Lemma store_Ret (b b' : list cell) i v :
  store b i v = Ret b' →
  0 ≤ i < Z.of_nat (length b) ∧ b' = <[Z.to_nat i := v]> b.
Proof.
  unfold store. destruct (0 <=? i) eqn:H0; [|done].
  destruct (i <? _) eqn:H1; [|done]. cbn.
  apply Z.leb_le in H0. apply Z.ltb_lt in H1. intros [= <-]. done.
Qed.

Lemma copy_slots_ok (dst src : list cell) d s n :
  0 ≤ s → 0 ≤ d → 0 ≤ n →
  s + n ≤ Z.of_nat (length src) → d + n ≤ Z.of_nat (length dst) →
  copy_slots dst d src s (n * sizeof_ptr)
  = Ret (take (Z.to_nat d) dst ++ take (Z.to_nat n) (drop (Z.to_nat s) src)
         ++ drop (Z.to_nat (d + n)) dst).
Proof.
  intros. unfold copy_slots. rewrite slots_of_bytes.
  replace (0 <=? s) with true by (symmetry; apply Z.leb_le; lia).
  replace (0 <=? d) with true by (symmetry; apply Z.leb_le; lia).
  replace (s + n <=? _) with true by (symmetry; apply Z.leb_le; lia).
  replace (d + n <=? _) with true by (symmetry; apply Z.leb_le; lia).
  done.
Qed.

Lemma copy_slots_Ret (dst src b' : list cell) d s n :
  copy_slots dst d src s (n * sizeof_ptr) = Ret b' →
  0 ≤ s ∧ 0 ≤ d ∧ s + n ≤ Z.of_nat (length src)
  ∧ d + n ≤ Z.of_nat (length dst)
  ∧ b' = take (Z.to_nat d) dst ++ take (Z.to_nat n) (drop (Z.to_nat s) src)
         ++ drop (Z.to_nat (d + n)) dst.
Proof.
  unfold copy_slots. rewrite slots_of_bytes.
  destruct (0 <=? s) eqn:H0; [|done].
  destruct (s + n <=? _) eqn:H1; [|done].
  destruct (0 <=? d) eqn:H2; [|done].
  destruct (d + n <=? _) eqn:H3; [|done]. cbn.
  apply Z.leb_le in H0, H1, H2, H3. intros [= <-]. done.
Qed.

(** Bounds a well-formed array gives to the arithmetic of the code. *)
Lemma wf_bounds ar :
  wf ar →
  0 ≤ size ar ∧ size ar ≤ capacity ar
  ∧ capacity ar ≤ Z.of_nat (length (buffer ar))
  ∧ Z.of_nat (length (buffer ar)) * 8 ≤ SIZE_MAX.
Proof. unfold wf, sizeof_ptr. done. Qed.

Lemma elements_length ar :
  wf ar → Z.of_nat (length (elements ar)) = size ar.
Proof.
  intros (? & ? & ? & ?). unfold elements. rewrite length_take. lia.
Qed.

Lemma get_elements ar i :
  wf ar → 0 ≤ i → get ar i = elements ar !! Z.to_nat i.
Proof.
  intros (? & ? & ? & ?) Hi. unfold get, cc_array_get_at, elements.
  destruct (size ar <=? i) eqn:E.
  - apply Z.leb_le in E. symmetry. apply lookup_ge_None.
    rewrite length_take. lia.
  - apply Z.leb_gt in E. rewrite load_ok by lia.
    rewrite lookup_take_lt by lia.
    destruct (buffer ar !! Z.to_nat i) eqn:El; [done|].
    apply lookup_ge_None in El. lia.
Qed.

Lemma get_lookup ar i :
  0 ≤ i → size ar ≤ Z.of_nat (length (buffer ar)) →
  get ar i = elements ar !! Z.to_nat i.
Proof.
  intros Hi Hs. unfold get, cc_array_get_at, elements.
  destruct (size ar <=? i) eqn:E.
  - apply Z.leb_le in E. symmetry. apply lookup_ge_None.
    rewrite length_take. lia.
  - apply Z.leb_gt in E. rewrite load_ok by lia.
    rewrite lookup_take_lt by lia.
    destruct (buffer ar !! Z.to_nat i) eqn:El; [done|].
    apply lookup_ge_None in El. lia.
Qed.

(** Opening a gap at [i] in a block and writing [x] there, on lists. *)
Lemma insert_shift (buf : list cell) (i s : nat) x :
  (i < s)%nat → (s < length buf)%nat →
  take (S s) (<[i := x]> (take (S i) buf ++ take (s - i) (drop i buf)
                           ++ drop (S s) buf))
  = take i (take s buf) ++ x :: drop i (take s buf).
Proof.
  intros His Hs.
  destruct (lookup_lt_is_Some_2 buf i ltac:(lia)) as [y Hy].
  rewrite (take_S_r _ _ _ Hy), <- app_assoc.
  rewrite insert_app_r_alt by (rewrite length_take; lia).
  rewrite length_take, Nat.min_l, Nat.sub_diag by lia. cbn [app].
  rewrite take_take, Nat.min_l by lia.
  change (<[0%nat:=x]> (y :: ?l)) with (x :: l).
  rewrite take_drop_commute.
  replace (i + (s - i))%nat with s by lia.
  rewrite app_comm_cons, app_assoc.
  rewrite take_app_length'; [done|].
  rewrite length_app, length_take. cbn [length].
  rewrite length_drop, length_take. lia.
Qed.

Lemma append_body_ok ar e :
  0 ≤ size ar < Z.of_nat (length (buffer ar)) →
  Z.of_nat (length (buffer ar)) ≤ SIZE_MAX →
  append_body ar e
  = Ret (CC_OK, mkArray (size ar + 1) (capacity ar) (exp_factor ar)
                  (<[Z.to_nat (size ar) := Some e]> (buffer ar))).
Proof.
  intros Hs Hl. unfold append_body. rewrite store_ok by lia. cbn.
  rewrite wrap_small by lia. done.
Qed.

Lemma append_body_Ret ar e st ar' :
  0 ≤ size ar → Z.of_nat (length (buffer ar)) ≤ SIZE_MAX →
  append_body ar e = Ret (st, ar') →
  size ar < Z.of_nat (length (buffer ar))
  ∧ st = CC_OK
  ∧ ar' = mkArray (size ar + 1) (capacity ar) (exp_factor ar)
            (<[Z.to_nat (size ar) := Some e]> (buffer ar)).
Proof.
  intros Hs Hl. unfold append_body.
  destruct (store _ _ _) as [b| |] eqn:Hst; [|done..].
  apply store_Ret in Hst as [Hb ->]. cbn. rewrite wrap_small by lia.
  intros [= <- <-]. split; [lia|done].
Qed.

Lemma append_elements ar e :
  0 ≤ size ar < Z.of_nat (length (buffer ar)) →
  elements (mkArray (size ar + 1) (capacity ar) (exp_factor ar)
              (<[Z.to_nat (size ar) := Some e]> (buffer ar)))
  = elements ar ++ [Some e].
Proof.
  intros Hs. unfold elements. cbn [size buffer].
  replace (Z.to_nat (size ar + 1)) with (S (Z.to_nat (size ar))) by lia.
  erewrite take_S_r; [|apply list_lookup_insert_eq; lia].
  by rewrite take_insert_ge by lia.
Qed.

Lemma insert_body_Ret ar e i st ar' :
  0 ≤ i < size ar → size ar * 8 ≤ SIZE_MAX →
  insert_body ar e i = Ret (st, ar') →
  size ar < Z.of_nat (length (buffer ar))
  ∧ st = CC_OK ∧ size ar' = size ar + 1
  ∧ capacity ar' = capacity ar ∧ exp_factor ar' = exp_factor ar
  ∧ length (buffer ar') = length (buffer ar)
  ∧ elements ar' = take (Z.to_nat i) (elements ar)
                   ++ Some e :: drop (Z.to_nat i) (elements ar).
Proof.
  intros Hi Hs. unfold insert_body.
  rewrite (wrap_small (size ar - i)) by lia.
  rewrite (wrap_small ((size ar - i) * sizeof_ptr))
    by (unfold sizeof_ptr; lia).
  destruct (copy_slots _ _ _ _ _) as [b1| |] eqn:Hc; [|done..].
  apply copy_slots_Ret in Hc as (_ & _ & Hb1 & Hb2 & ->). cbn.
  destruct (store _ _ _) as [b2| |] eqn:Hst; [|done..].
  apply store_Ret in Hst as [Hb3 ->]. cbn.
  intros [= <- <-]. unfold set_size, set_buffer.
  cbn [size capacity exp_factor buffer].
  assert (Hlen : size ar < Z.of_nat (length (buffer ar))) by lia.
  split; [done|]. split; [done|].
  assert (Hw : wrap (size ar + 1) = size ar + 1).
  { apply wrap_small. lia. }
  split; [done|]. split; [done|]. split; [done|]. split.
  - rewrite length_insert, !length_app, !length_take, !length_drop. lia.
  - unfold elements. cbn [size buffer]. rewrite Hw.
    replace (Z.to_nat (size ar + 1)) with (S (Z.to_nat (size ar))) by lia.
    replace (Z.to_nat (i + 1)) with (S (Z.to_nat i)) by lia.
    replace (Z.to_nat (i + 1 + (size ar - i))) with (S (Z.to_nat (size ar)))
      by lia.
    replace (Z.to_nat (size ar - i))
      with (Z.to_nat (size ar) - Z.to_nat i)%nat by lia.
    apply insert_shift; lia.
Qed.

Lemma insert_body_ok ar e i :
  0 ≤ i < size ar → size ar < Z.of_nat (length (buffer ar)) →
  Z.of_nat (length (buffer ar)) * 8 ≤ SIZE_MAX →
  ∃ ar', insert_body ar e i = Ret (CC_OK, ar').
Proof.
  intros Hi Hs Hl. unfold insert_body.
  rewrite (wrap_small (size ar - i)) by lia.
  rewrite (wrap_small ((size ar - i) * sizeof_ptr))
    by (unfold sizeof_ptr; lia).
  rewrite copy_slots_ok by lia. cbn.
  rewrite store_ok; [cbn; eauto|].
  rewrite !length_app, !length_take, !length_drop. lia.
Qed.

Section WithMaxElements.
Variable M : Z.

Lemma expand_at_max ok ar :
  capacity ar = M → expand_capacity M ok ar = Ret (CC_ERR_MAX_CAPACITY, ar).
Proof. intros H. unfold expand_capacity. by rewrite H, Z.eqb_refl. Qed.

Lemma expand_alloc_fail ar c :
  capacity ar ≠ M → grown M ar = Some c →
  expand_capacity M false ar = Ret (CC_ERR_ALLOC, set_capacity ar c).
Proof.
  intros Hne. unfold grown, expand_capacity.
  replace (capacity ar =? M) with false by (symmetry; by apply Z.eqb_neq).
  destruct (to_size_t _) as [nc|]; [|done]. cbn. intros [= <-].
  by destruct (nc <=? capacity ar).
Qed.

Lemma expand_Ret ok ar st ar' :
  0 ≤ size ar → size ar * 8 ≤ SIZE_MAX →
  expand_capacity M ok ar = Ret (st, ar') →
  (st = CC_ERR_MAX_CAPACITY ∧ capacity ar = M ∧ ar' = ar)
  ∨ (capacity ar ≠ M ∧ ∃ c, grown M ar = Some c ∧
      ((st = CC_ERR_ALLOC ∧ ok = false ∧ ar' = set_capacity ar c)
       ∨ (st = CC_OK ∧ ok = true
          ∧ size ar ≤ Z.of_nat (length (buffer ar))
          ∧ size ar ≤ wrap (c * sizeof_ptr) / sizeof_ptr
          ∧ ar' = mkArray (size ar) c (exp_factor ar)
                    (take (Z.to_nat (size ar)) (buffer ar)
                     ++ replicate (Z.to_nat (wrap (c * sizeof_ptr) / sizeof_ptr
                                             - size ar)) None)))).
Proof.
  intros Hs Hs8. unfold expand_capacity, grown.
  destruct (capacity ar =? M) eqn:E.
  { apply Z.eqb_eq in E. intros [= <- <-]. by left. }
  apply Z.eqb_neq in E. right. split; [done|].
  destruct (to_size_t _) as [nc|]; [|done]. cbn in *.
  set (c := if nc <=? capacity ar then M else nc).
  replace (if nc <=? capacity ar then set_capacity ar M
           else set_capacity ar nc) with (set_capacity ar c) in H
    by (unfold c; by destruct (nc <=? capacity ar)).
  exists c. split; [done|]. cbn [set_capacity capacity size buffer] in H.
  destruct ok; cbn in H.
  - right. rewrite (wrap_small (size ar * sizeof_ptr)) in H
      by (unfold sizeof_ptr; lia).
    destruct (copy_slots _ _ _ _ _) as [b| |] eqn:Hc; [|done..].
    apply copy_slots_Ret in Hc as (_ & _ & H1 & H2 & ->).
    cbn in H. injection H as <- <-.
    rewrite length_replicate in H2.
    assert (0 ≤ wrap (c * sizeof_ptr) / sizeof_ptr).
    { apply Z.div_pos; [apply wrap_range|done]. }
    repeat split; try lia.
    unfold set_buffer, set_capacity. cbn [size capacity exp_factor buffer].
    f_equal. change (Z.to_nat 0) with 0%nat. rewrite drop_0. f_equal.
    rewrite drop_replicate. f_equal. lia.
  - left. injection H as <- <-. done.
Qed.

Lemma expand_alloc_ok ar c :
  capacity ar ≠ M → grown M ar = Some c →
  0 ≤ size ar ≤ Z.of_nat (length (buffer ar)) → size ar * 8 ≤ SIZE_MAX →
  size ar ≤ wrap (c * sizeof_ptr) / sizeof_ptr →
  expand_capacity M true ar
  = Ret (CC_OK, mkArray (size ar) c (exp_factor ar)
           (take (Z.to_nat (size ar)) (buffer ar)
            ++ replicate (Z.to_nat (wrap (c * sizeof_ptr) / sizeof_ptr
                                    - size ar)) None)).
Proof.
  intros Hne Hg Hs Hs8 Hc. unfold grown, expand_capacity in *.
  replace (capacity ar =? M) with false by (symmetry; by apply Z.eqb_neq).
  destruct (to_size_t _) as [nc|]; [|done]. cbn in *. injection Hg as Hg.
  replace (if nc <=? capacity ar then set_capacity ar M
           else set_capacity ar nc) with (set_capacity ar c)
    by (rewrite <- Hg; by destruct (nc <=? capacity ar)).
  cbn [set_capacity capacity size buffer].
  rewrite (wrap_small (size ar * sizeof_ptr)) by (unfold sizeof_ptr; lia).
  rewrite copy_slots_ok; rewrite ?length_replicate; try lia.
  cbn. unfold set_buffer. cbn. do 3 f_equal.
  change (Z.to_nat 0) with 0%nat. rewrite take_0, drop_0, app_nil_l. f_equal.
  rewrite drop_replicate. f_equal. lia.
Qed.

Lemma add_unfold ok ar e :
  cc_array_add M ok ar e
  = '(status, ar) ← ensure_room M ok ar;
    if decide (status ≠ CC_OK) then Ret (status, ar) else append_body ar e.
Proof. reflexivity. Qed.

Lemma add_at_unfold ok ar e i :
  0 ≤ i < size ar → size ar ≤ SIZE_MAX →
  cc_array_add_at M ok ar e i
  = '(status, ar) ← ensure_room M ok ar;
    if decide (status ≠ CC_OK) then Ret (status, ar) else insert_body ar e i.
Proof.
  intros Hi Hmax. unfold cc_array_add_at.
  replace (i =? size ar) with false by (symmetry; apply Z.eqb_neq; lia).
  replace (size ar =? 0) with false by (symmetry; apply Z.eqb_neq; lia).
  rewrite wrap_small by lia.
  replace (size ar - 1 <? i) with false by (symmetry; apply Z.ltb_ge; lia).
  reflexivity.
Qed.

Lemma ensure_room_OK ok ar ar1 :
  wf ar → ensure_room M ok ar = Ret (CC_OK, ar1) →
  size ar1 = size ar ∧ exp_factor ar1 = exp_factor ar
  ∧ elements ar1 = elements ar
  ∧ size ar1 ≤ Z.of_nat (length (buffer ar1))
  ∧ Z.of_nat (length (buffer ar1)) * 8 ≤ SIZE_MAX.
Proof.
  intros (H0 & H1 & H2 & H3). unfold ensure_room, sizeof_ptr in *.
  destruct (capacity ar <=? size ar) eqn:E.
  - intros Hex. apply expand_Ret in Hex; [|lia..].
    destruct Hex as [(? & _)|(_ & c & _ & [(? & _)|(_ & _ & Hb & Hc & ->)])];
      [done..|].
    cbn [size exp_factor buffer]. unfold elements. cbn [size buffer].
    rewrite take_app_length' by (rewrite length_take; lia).
    rewrite length_app, length_take, length_replicate.
    pose proof (wrap_range (c * 8)) as Hw.
    assert (wrap (c * 8) `div` 8 * 8 ≤ wrap (c * 8)).
    { pose proof (Z.mul_div_le (wrap (c * 8)) 8 ltac:(done)). lia. }
    unfold sizeof_ptr in *. repeat split; try lia.
  - intros [= <-]. repeat split; try lia.
Qed.

Lemma ensure_room_ready ok ar :
  size ar < capacity ar → ensure_room M ok ar = Ret (CC_OK, ar).
Proof.
  intros H. unfold ensure_room.
  by replace (capacity ar <=? size ar) with false
    by (symmetry; apply Z.leb_gt; lia).
Qed.

(** The only statuses the capacity check produces, and when. *)
Lemma ensure_room_status ok ar st ar1 :
  wf ar → ensure_room M ok ar = Ret (st, ar1) →
  st = CC_OK ∨ st = CC_ERR_ALLOC
  ∨ (st = CC_ERR_MAX_CAPACITY ∧ capacity ar = M ∧ capacity ar ≤ size ar).
Proof.
  intros (H0 & H1 & H2 & H3). unfold ensure_room, sizeof_ptr in *.
  destruct (capacity ar <=? size ar) eqn:E.
  - apply Z.leb_le in E. intros Hex. apply expand_Ret in Hex; [|lia..].
    destruct Hex as [(? & ? & _)|(_ & c & _ & [(? & _)|(? & _)])]; auto.
  - intros [= <- <-]. auto.
Qed.

Lemma add_OK ok ar e ar' :
  wf ar → cc_array_add M ok ar e = Ret (CC_OK, ar') →
  size ar' = size ar + 1 ∧ elements ar' = elements ar ++ [Some e]
  ∧ size ar' ≤ Z.of_nat (length (buffer ar')).
Proof.
  intros Hwf. rewrite add_unfold.
  destruct (ensure_room M ok ar) as [[st ar1]| |] eqn:Hr; [|done..]. cbn.
  destruct (decide (st ≠ CC_OK)) as [Hst|Hst]; [by intros [= -> _]|].
  apply dec_stable in Hst as ->.
  pose proof Hwf as (H0 & _).
  apply ensure_room_OK in Hr as (Hs & _ & He & Hl1 & Hl2); [|done].
  intros Ha. apply append_body_Ret in Ha as (Hlt & _ & ->); [|lia..].
  cbn [size buffer]. rewrite append_elements by lia.
  rewrite length_insert. rewrite He, Hs. repeat split; lia.
Qed.

Lemma add_at_OK ok ar e i ar' :
  wf ar → 0 ≤ i < size ar →
  cc_array_add_at M ok ar e i = Ret (CC_OK, ar') →
  size ar' = size ar + 1
  ∧ elements ar' = take (Z.to_nat i) (elements ar)
                   ++ Some e :: drop (Z.to_nat i) (elements ar)
  ∧ size ar' ≤ Z.of_nat (length (buffer ar')).
Proof.
  intros Hwf Hi. pose proof Hwf as (H0 & H1 & H2 & H3).
  unfold sizeof_ptr in H3. rewrite add_at_unfold by lia.
  destruct (ensure_room M ok ar) as [[st ar1]| |] eqn:Hr; [|done..]. cbn.
  destruct (decide (st ≠ CC_OK)) as [Hst|Hst]; [by intros [= -> _]|].
  apply dec_stable in Hst as ->.
  apply ensure_room_OK in Hr as (Hs & _ & He & Hl1 & Hl2); [|done].
  intros Ha. apply insert_body_Ret in Ha
    as (Hlt & _ & Hs' & _ & _ & Hlen & Hel); [|lia..].
  rewrite Hel, He, Hs', Hs, Hlen. repeat split; lia.
Qed.

Lemma add_not_out_of_range ok ar e ar' :
  wf ar → cc_array_add M ok ar e ≠ Ret (CC_ERR_OUT_OF_RANGE, ar').
Proof.
  intros Hwf. rewrite add_unfold.
  destruct (ensure_room M ok ar) as [[st ar1]| |] eqn:Hr; [|done..]. cbn.
  pose proof (ensure_room_status _ _ _ _ Hwf Hr) as Hst.
  destruct (decide (st ≠ CC_OK)) as [Hne|Hst'].
  - intros [= -> _]. destruct Hst as [?|[?|(? & _)]]; congruence.
  - unfold append_body. destruct (store _ _ _); done.
Qed.

Lemma add_at_not_out_of_range ok ar e i ar' :
  wf ar → 0 ≤ i ≤ size ar →
  cc_array_add_at M ok ar e i ≠ Ret (CC_ERR_OUT_OF_RANGE, ar').
Proof.
  intros Hwf Hi. pose proof Hwf as (H0 & H1 & H2 & H3).
  unfold sizeof_ptr in H3.
  destruct (decide (i = size ar)) as [->|Hne].
  { unfold cc_array_add_at. rewrite Z.eqb_refl.
    by apply add_not_out_of_range. }
  rewrite add_at_unfold by lia.
  destruct (ensure_room M ok ar) as [[st ar1]| |] eqn:Hr; [|done..]. cbn.
  pose proof (ensure_room_status _ _ _ _ Hwf Hr) as Hst.
  destruct (decide (st ≠ CC_OK)) as [Hne'|Hst'].
  - intros [= -> _]. destruct Hst as [?|[?|(? & _)]]; congruence.
  - unfold insert_body. destruct (copy_slots _ _ _ _ _); [|done..]. cbn.
    destruct (store _ _ _); done.
Qed.

Lemma add_at_out_of_range ok ar e i :
  0 ≤ size ar ≤ SIZE_MAX → size ar < i →
  cc_array_add_at M ok ar e i = Ret (CC_ERR_OUT_OF_RANGE, ar).
Proof.
  intros Hs Hi. unfold cc_array_add_at.
  replace (i =? size ar) with false by (symmetry; apply Z.eqb_neq; lia).
  destruct (decide (size ar = 0)) as [E|E].
  - rewrite E. cbn [Z.eqb]. 
    by replace (i =? 0) with false by (symmetry; apply Z.eqb_neq; lia).
  - rewrite wrap_small by lia.
    replace (size ar - 1 <? i) with true by (symmetry; apply Z.ltb_lt; lia).
    by rewrite orb_true_r.
Qed.

Lemma inserted_lookups (els : list cell) (i : nat) x :
  (i ≤ length els)%nat →
  ∀ els', els' = take i els ++ x :: drop i els →
  els' !! i = Some x
  ∧ (∀ j, (i ≤ j)%nat → els' !! S j = els !! j)
  ∧ (∀ j, (j < i)%nat → els' !! j = els !! j).
Proof.
  intros Hi els' ->. repeat split.
  - rewrite list_lookup_middle; [done|]. rewrite length_take. lia.
  - intros j Hj. rewrite lookup_app_r by (rewrite length_take; lia).
    rewrite length_take, Nat.min_l by lia.
    replace (S j - i)%nat with (S (j - i)) by lia.
    rewrite lookup_cons_ne_0 by done. cbn [Nat.pred].
    rewrite lookup_drop. f_equal. lia.
  - intros j Hj. rewrite lookup_app_l by (rewrite length_take; lia).
    by rewrite lookup_take_lt.
Qed.

(** C4. [add_at(e, i)] on a well-formed array: it is [add] when [i] is the
    size, it reports out-of-range exactly when [i] exceeds the size (and
    then leaves the array alone), it succeeds whenever there is room, and a
    successful call puts [e] at [i], moves the elements of [[i, size)] up by
    one, keeps those below [i], and increments the size. *)
Theorem add_at_inserts ok ar e i :
  wf ar → 0 ≤ i →
  cc_array_add_at M ok ar e (size ar) = cc_array_add M ok ar e
  ∧ (size ar < i → cc_array_add_at M ok ar e i = Ret (CC_ERR_OUT_OF_RANGE, ar))
  ∧ (i ≤ size ar →
     ∀ ar', cc_array_add_at M ok ar e i ≠ Ret (CC_ERR_OUT_OF_RANGE, ar'))
  ∧ (i ≤ size ar → size ar < capacity ar →
     ∃ ar', cc_array_add_at M ok ar e i = Ret (CC_OK, ar'))
  ∧ (∀ ar', i ≤ size ar → cc_array_add_at M ok ar e i = Ret (CC_OK, ar') →
       size ar' = size ar + 1
       ∧ elements ar' = take (Z.to_nat i) (elements ar)
                        ++ Some e :: drop (Z.to_nat i) (elements ar)
       ∧ get ar' i = Some (Some e)
       ∧ (∀ j, i ≤ j < size ar → get ar' (j + 1) = get ar j)
       ∧ (∀ j, 0 ≤ j < i → get ar' j = get ar j)).
Proof.
  intros Hwf Hi. pose proof Hwf as (H0 & H1 & H2 & H3).
  unfold sizeof_ptr in H3.
  split; [unfold cc_array_add_at; by rewrite Z.eqb_refl|].
  split; [intros; apply add_at_out_of_range; lia|].
  split; [intros; apply add_at_not_out_of_range; [done|lia]|].
  split.
  { intros Hle Hroom. destruct (decide (i = size ar)) as [->|Hne].
    - unfold cc_array_add_at. rewrite Z.eqb_refl, add_unfold.
      rewrite ensure_room_ready by done. cbn.
      rewrite append_body_ok by lia. eauto.
    - rewrite add_at_unfold by lia. rewrite ensure_room_ready by done. cbn.
      apply insert_body_ok; lia. }
  intros ar' Hle Hok.
  assert (Hel : size ar' = size ar + 1
                ∧ elements ar' = take (Z.to_nat i) (elements ar)
                    ++ Some e :: drop (Z.to_nat i) (elements ar)
                ∧ size ar' ≤ Z.of_nat (length (buffer ar'))).
  { destruct (decide (i = size ar)) as [->|Hne].
    - unfold cc_array_add_at in Hok. rewrite Z.eqb_refl in Hok.
      apply add_OK in Hok as (? & -> & ?); [|done].
      pose proof (elements_length ar Hwf).
      rewrite take_ge, drop_ge by lia. done.
    - apply add_at_OK in Hok; [done..|lia]. }
  destruct Hel as (Hs' & Hel & Hlen').
  pose proof (elements_length ar Hwf) as Hlen.
  destruct (inserted_lookups (elements ar) (Z.to_nat i) (Some e)
              ltac:(lia) _ Hel) as (Ha & Hb & Hc).
  split; [done|]. split; [done|]. split; [by rewrite get_lookup by lia|].
  split.
  - intros j Hj. rewrite !get_lookup by lia.
    replace (Z.to_nat (j + 1)) with (S (Z.to_nat j)) by lia.
    apply Hb. lia.
  - intros j Hj. rewrite !get_lookup by lia. apply Hc. lia.
Qed.

Lemma grown_installed ar :
  0 ≤ capacity ar → 2 * capacity ar ≤ SIZE_MAX →
  installed_factor (exp_factor ar) → exact (capacity ar) →
  ∃ p, floor_mul (capacity ar) (exp_factor ar) = Some p
       ∧ grown M ar = Some (if p <=? capacity ar then M else p).
Proof.
  intros H0 H2 [Hf|Hf] Hex; rewrite Hf; unfold grown; rewrite Hf.
  - exists (2 * capacity ar). split.
    + change (of_size_t DEFAULT_EXPANSION_FACTOR) with (F_fin false 2 0).
      unfold floor_mul. change (0 <=? 0) with true. cbv iota.
      change (2 ^ 0) with 1. f_equal. lia.
    + change (of_size_t DEFAULT_EXPANSION_FACTOR) with f_two.
      rewrite mul_two_exact; [done|done| |done].
      unfold SIZE_MAX in H2. lia.
  - exists 0. split; [done|]. rewrite mul_zero_r; [done|].
    unfold SIZE_MAX in H2. lia.
Qed.

Lemma add_expand_fail ar e c :
  capacity ar ≤ size ar → capacity ar ≠ M → grown M ar = Some c →
  cc_array_add M false ar e = Ret (CC_ERR_ALLOC, set_capacity ar c).
Proof.
  intros Hfull Hne Hg. rewrite add_unfold. unfold ensure_room.
  replace (capacity ar <=? size ar) with true by (symmetry; by apply Z.leb_le).
  by rewrite (expand_alloc_fail _ _ Hne Hg).
Qed.

Lemma add_at_expand_fail ar e i c :
  0 ≤ i < size ar → size ar ≤ SIZE_MAX →
  capacity ar ≤ size ar → capacity ar ≠ M → grown M ar = Some c →
  cc_array_add_at M false ar e i = Ret (CC_ERR_ALLOC, set_capacity ar c).
Proof.
  intros Hi Hs Hfull Hne Hg. rewrite add_at_unfold by done. unfold ensure_room.
  replace (capacity ar <=? size ar) with true by (symmetry; by apply Z.leb_le).
  by rewrite (expand_alloc_fail _ _ Hne Hg).
Qed.

Lemma ensure_room_expand_ok ar c :
  wf ar → capacity ar ≤ size ar → capacity ar ≠ M → grown M ar = Some c →
  c * 8 ≤ SIZE_MAX → size ar < c →
  ∃ ar1, ensure_room M true ar = Ret (CC_OK, ar1)
         ∧ size ar1 = size ar ∧ capacity ar1 = c
         ∧ exp_factor ar1 = exp_factor ar
         ∧ Z.of_nat (length (buffer ar1)) = c.
Proof.
  intros (H0 & H1 & H2 & H3) Hfull Hne Hg Hc Hlt. unfold sizeof_ptr in *.
  unfold ensure_room.
  replace (capacity ar <=? size ar) with true by (symmetry; by apply Z.leb_le).
  assert (Hw : wrap (c * sizeof_ptr) / sizeof_ptr = c).
  { rewrite wrap_small by (unfold sizeof_ptr; lia). apply slots_of_bytes. }
  rewrite (expand_alloc_ok _ _ Hne Hg); [|lia..].
  eexists. split; [done|]. cbn [size capacity exp_factor buffer].
  repeat split. rewrite length_app, length_take, length_replicate. lia.
Qed.

(** A successful [add] or [add_at] that had to expand leaves the capacity
    [expand_capacity] settled on. *)
Lemma add_OK_capacity ok ar e ar' c :
  wf ar → capacity ar ≤ size ar → grown M ar = Some c →
  cc_array_add M ok ar e = Ret (CC_OK, ar') →
  capacity ar' = c ∧ size ar' = size ar + 1.
Proof.
  intros Hwf Hfull Hg. pose proof Hwf as (H0 & H1 & H2 & H3).
  unfold sizeof_ptr in H3. rewrite add_unfold. unfold ensure_room.
  replace (capacity ar <=? size ar) with true by (symmetry; by apply Z.leb_le).
  destruct (expand_capacity M ok ar) as [[st ar1]| |] eqn:Hex; [|done..].
  apply expand_Ret in Hex; [|lia..]. step.
  destruct Hex as [(-> & _)|(_ & c' & Hc' & [(-> & _)|(-> & _ & Hb & Hs & ->)])];
    [by (destruct (decide _) as [|Hn]; [intros [=]|destruct Hn])..|].
  destruct (decide (CC_OK ≠ CC_OK)); [done|].
  rewrite Hg in Hc'. injection Hc' as <-.
  assert (Hl : 0 ≤ wrap (c * sizeof_ptr) / sizeof_ptr * 8 ≤ SIZE_MAX).
  { pose proof (wrap_range (c * sizeof_ptr)).
    pose proof (Z.mul_div_le (wrap (c * sizeof_ptr)) 8 ltac:(done)).
    unfold sizeof_ptr in *. lia. }
  intros Ha. apply append_body_Ret in Ha as (_ & _ & ->);
    cbn [size capacity exp_factor buffer];
    rewrite ?length_app, ?length_take, ?length_replicate; [done|lia..].
Qed.

Lemma add_at_OK_capacity ok ar e i ar' c :
  wf ar → capacity ar ≤ size ar → 0 ≤ i < size ar → grown M ar = Some c →
  cc_array_add_at M ok ar e i = Ret (CC_OK, ar') →
  capacity ar' = c ∧ size ar' = size ar + 1.
Proof.
  intros Hwf Hfull Hi Hg. pose proof Hwf as (H0 & H1 & H2 & H3).
  unfold sizeof_ptr in H3. rewrite add_at_unfold by lia. unfold ensure_room.
  replace (capacity ar <=? size ar) with true by (symmetry; by apply Z.leb_le).
  destruct (expand_capacity M ok ar) as [[st ar1]| |] eqn:Hex; [|done..].
  apply expand_Ret in Hex; [|lia..]. step.
  destruct Hex as [(-> & _)|(_ & c' & Hc' & [(-> & _)|(-> & _ & Hb & Hs & ->)])];
    [by (destruct (decide _) as [|Hn]; [intros [=]|destruct Hn])..|].
  destruct (decide (CC_OK ≠ CC_OK)); [done|].
  rewrite Hg in Hc'. injection Hc' as <-.
  intros Ha. apply insert_body_Ret in Ha as (_ & _ & Hs' & Hc & _);
    cbn [size capacity exp_factor buffer] in *; [done|lia..].
Qed.

Lemma grown_Some ar c :
  grown M ar = Some c →
  ∃ nc, to_size_t (mul (of_size_t (capacity ar)) (exp_factor ar)) = Some nc
        ∧ c = if nc <=? capacity ar then M else nc.
Proof.
  unfold grown. destruct (to_size_t _) as [nc|]; [|done]. cbn.
  intros [= <-]. by exists nc.
Qed.

(** After the capacity check the size is within the capacity, and strictly
    below it when the check let the call proceed. *)
Lemma ensure_room_fits ok ar st ar1 :
  wf ar → capacity ar ≤ M → ensure_room M ok ar = Ret (st, ar1) →
  size ar1 = size ar ∧ size ar1 ≤ capacity ar1
  ∧ (st = CC_OK → size ar1 < capacity ar1).
Proof.
  intros Hwf HM Hr. pose proof Hwf as (H0 & H1 & H2 & H3).
  unfold sizeof_ptr in H3. unfold ensure_room in Hr.
  destruct (capacity ar <=? size ar) eqn:E.
  - apply Z.leb_le in E. apply expand_Ret in Hr; [|lia..].
    destruct Hr as [(-> & _ & ->)|(Hne & c & Hg & Hcase)].
    { split; [done|]. split; [lia|done]. }
    apply grown_Some in Hg as (nc & _ & ->).
    assert (Hc : size ar < (if nc <=? capacity ar then M else nc)).
    { destruct (nc <=? capacity ar) eqn:En; [lia|].
      apply Z.leb_gt in En. lia. }
    destruct Hcase as [(-> & _ & ->)|(-> & _ & _ & _ & ->)];
      cbn [size capacity set_capacity]; (split; [done|]); (split; [lia|]);
      done.
  - apply Z.leb_gt in E. injection Hr as <- <-.
    split; [done|]. split; [lia|done].
Qed.

Lemma full_OK_grown ok ar ar1 :
  wf ar → capacity ar ≤ size ar → ensure_room M ok ar = Ret (CC_OK, ar1) →
  ∃ c, grown M ar = Some c.
Proof.
  intros Hwf Hfull Hr. pose proof Hwf as (H0 & H1 & H2 & H3).
  unfold sizeof_ptr in H3. unfold ensure_room in Hr.
  replace (capacity ar <=? size ar) with true in Hr
    by (symmetry; by apply Z.leb_le).
  apply expand_Ret in Hr; [|lia..].
  destruct Hr as [(? & _)|(_ & c & Hg & _)]; [done|]. by exists c.
Qed.

Lemma add_fits ok ar e st ar' :
  wf ar → capacity ar ≤ M → cc_array_add M ok ar e = Ret (st, ar') →
  size ar' ≤ capacity ar'.
Proof.
  intros Hwf HM. pose proof Hwf as (H0 & H1 & H2 & H3).
  unfold sizeof_ptr in H3. rewrite add_unfold.
  destruct (ensure_room M ok ar) as [[st1 ar1]| |] eqn:Hr; [|done..]. step.
  destruct (ensure_room_fits _ _ _ _ Hwf HM Hr) as (Hs & Hle & Hlt).
  destruct (decide (st1 ≠ CC_OK)) as [Hst|Hst]; [by intros [= _ <-]|].
  apply dec_stable in Hst as ->.
  apply ensure_room_OK in Hr as (_ & _ & _ & Hl1 & Hl2); [|done].
  intros Ha. apply append_body_Ret in Ha as (_ & _ & ->); [|lia..].
  cbn [size capacity]. specialize (Hlt eq_refl). lia.
Qed.

Lemma add_at_fits ok ar e i st ar' :
  wf ar → capacity ar ≤ M → 0 ≤ i →
  cc_array_add_at M ok ar e i = Ret (st, ar') →
  size ar' ≤ capacity ar'.
Proof.
  intros Hwf HM Hi. pose proof Hwf as (H0 & H1 & H2 & H3).
  unfold sizeof_ptr in H3. assert (0 ≤ SIZE_MAX) by done.
  destruct (Z.lt_trichotomy i (size ar)) as [Hlt|[->|Hgt]].
  - rewrite add_at_unfold by lia.
    destruct (ensure_room M ok ar) as [[st1 ar1]| |] eqn:Hr; [|done..]. step.
    destruct (ensure_room_fits _ _ _ _ Hwf HM Hr) as (Hs & Hle & Hroom).
    destruct (decide (st1 ≠ CC_OK)) as [Hst|Hst]; [by intros [= _ <-]|].
    apply dec_stable in Hst as ->.
    apply ensure_room_OK in Hr as (_ & _ & _ & Hl1 & Hl2); [|done].
    intros Ha. apply insert_body_Ret in Ha as (_ & _ & -> & -> & _); [|lia..].
    specialize (Hroom eq_refl). lia.
  - unfold cc_array_add_at. rewrite Z.eqb_refl. by apply add_fits.
  - rewrite add_at_out_of_range by lia. by intros [= _ <-].
Qed.

(** C1, as the code has it.  When [add] or [add_at] finds the array full:
    the call reports [CC_ERR_MAX_CAPACITY] exactly when the capacity is
    already [CC_MAX_ELEMENTS], and then leaves the array alone.  Whatever
    the growth factor and whatever status the call returns, the size does
    not exceed the capacity afterwards.  A call that succeeds has computed
    the product of the capacity and the factor in single precision,
    converted it to a [size_t], and left the capacity at that value if it
    exceeds the old capacity and at [CC_MAX_ELEMENTS] if not.  For a growth
    factor the library installs, a capacity that single precision
    represents exactly and a product that is a [size_t], that value is
    [floor(capacity * factor)]; the new capacity exceeds the size, and the
    call succeeds when a block of that many slots is allocated. *)
Theorem growth_by_design ok ar e :
  wf ar → capacity ar ≤ size ar → capacity ar ≤ M →
  (∀ st ar', cc_array_add M ok ar e = Ret (st, ar') →
     st = CC_ERR_MAX_CAPACITY ↔ capacity ar = M)
  ∧ (∀ i st ar', 0 ≤ i < size ar →
       cc_array_add_at M ok ar e i = Ret (st, ar') →
       st = CC_ERR_MAX_CAPACITY ↔ capacity ar = M)
  ∧ (capacity ar = M →
       cc_array_add M ok ar e = Ret (CC_ERR_MAX_CAPACITY, ar)
       ∧ ∀ i, 0 ≤ i < size ar →
           cc_array_add_at M ok ar e i = Ret (CC_ERR_MAX_CAPACITY, ar))
  ∧ (∀ st ar', cc_array_add M ok ar e = Ret (st, ar') →
       size ar' ≤ capacity ar')
  ∧ (∀ i st ar', 0 ≤ i → cc_array_add_at M ok ar e i = Ret (st, ar') →
       size ar' ≤ capacity ar')
  ∧ (∀ ar', cc_array_add M ok ar e = Ret (CC_OK, ar') →
       ∃ nc, to_size_t (mul (of_size_t (capacity ar)) (exp_factor ar))
             = Some nc
         ∧ capacity ar' = (if nc <=? capacity ar then M else nc)
         ∧ size ar' = size ar + 1 ∧ size ar' ≤ capacity ar')
  ∧ (∀ i ar', 0 ≤ i < size ar →
       cc_array_add_at M ok ar e i = Ret (CC_OK, ar') →
       ∃ nc, to_size_t (mul (of_size_t (capacity ar)) (exp_factor ar))
             = Some nc
         ∧ capacity ar' = (if nc <=? capacity ar then M else nc)
         ∧ size ar' = size ar + 1 ∧ size ar' ≤ capacity ar')
  ∧ (capacity ar ≠ M → installed_factor (exp_factor ar) →
     exact (capacity ar) → 2 * capacity ar ≤ SIZE_MAX →
     ∃ p, floor_mul (capacity ar) (exp_factor ar) = Some p ∧
       let c := if p <=? capacity ar then M else p in
       size ar < c
       ∧ (∀ ar', cc_array_add M ok ar e = Ret (CC_OK, ar') →
            capacity ar' = c ∧ size ar' ≤ capacity ar')
       ∧ (∀ i ar', 0 ≤ i < size ar →
            cc_array_add_at M ok ar e i = Ret (CC_OK, ar') →
            capacity ar' = c ∧ size ar' ≤ capacity ar')
       ∧ (c * sizeof_ptr ≤ SIZE_MAX →
            (∃ b, cc_array_add M true ar e
                  = Ret (CC_OK, mkArray (size ar + 1) c (exp_factor ar) b))
            ∧ ∀ i, 0 ≤ i < size ar →
                ∃ b, cc_array_add_at M true ar e i
                     = Ret (CC_OK, mkArray (size ar + 1) c (exp_factor ar) b))).
Proof.
  intros Hwf Hfull HM. pose proof Hwf as (H0 & H1 & H2 & H3).
  unfold sizeof_ptr in H3.
  assert (Hroom : ∀ st ar1, ensure_room M ok ar = Ret (st, ar1) →
            st = CC_ERR_MAX_CAPACITY ↔ capacity ar = M).
  { intros st ar1. unfold ensure_room.
    replace (capacity ar <=? size ar) with true
      by (symmetry; by apply Z.leb_le).
    intros Hex. apply expand_Ret in Hex; [|lia..].
    destruct Hex as [(? & ? & _)|(? & c & _ & [(-> & _)|(-> & _)])];
      naive_solver. }
  split.
  { intros st ar'. rewrite add_unfold.
    destruct (ensure_room M ok ar) as [[st1 ar1]| |] eqn:Hr; [|done..]. step.
    specialize (Hroom _ _ eq_refl).
    destruct (decide (st1 ≠ CC_OK)) as [Hne|Hst'].
    - by intros [= <- _].
    - apply dec_stable in Hst' as ->. unfold append_body.
      destruct (store _ _ _); [|done..]. step. intros [= <- _].
      rewrite <- Hroom. done. }
  split.
  { intros i st ar' Hi. rewrite add_at_unfold by lia.
    destruct (ensure_room M ok ar) as [[st1 ar1]| |] eqn:Hr; [|done..]. step.
    specialize (Hroom _ _ eq_refl).
    destruct (decide (st1 ≠ CC_OK)) as [Hne|Hst'].
    - by intros [= <- _].
    - apply dec_stable in Hst' as ->. unfold insert_body.
      destruct (copy_slots _ _ _ _ _); [|done..]. step.
      destruct (store _ _ _); [|done..]. step. intros [= <- _].
      rewrite <- Hroom. done. }
  split.
  { intros Hmax. split; [|intros i Hi; rewrite add_at_unfold by lia];
      [rewrite add_unfold|]; unfold ensure_room;
      (replace (capacity ar <=? size ar) with true
        by (symmetry; by apply Z.leb_le));
      by rewrite expand_at_max. }
  split; [intros st ar'; by apply add_fits|].
  split; [intros i st ar' Hi; by apply add_at_fits|].
  split.
  { intros ar' Ha. pose proof Ha as Ha'. rewrite add_unfold in Ha'.
    destruct (ensure_room M ok ar) as [[st1 ar1]| |] eqn:Hr; [|done..].
    cbn in Ha'.
    destruct (decide (st1 ≠ CC_OK)) as [Hst|Hst]; [by injection Ha' as -> _|].
    apply dec_stable in Hst as ->.
    destruct (full_OK_grown _ _ _ Hwf Hfull Hr) as [c Hg].
    destruct (add_OK_capacity _ _ _ _ _ Hwf Hfull Hg Ha) as [Hc Hs].
    destruct (grown_Some _ _ Hg) as (nc & Hnc & ->).
    exists nc. split; [done|]. split; [done|]. split; [done|].
    by eapply add_fits. }
  split.
  { intros i ar' Hi Ha. pose proof Ha as Ha'.
    rewrite add_at_unfold in Ha' by lia.
    destruct (ensure_room M ok ar) as [[st1 ar1]| |] eqn:Hr; [|done..].
    cbn in Ha'.
    destruct (decide (st1 ≠ CC_OK)) as [Hst|Hst]; [by injection Ha' as -> _|].
    apply dec_stable in Hst as ->.
    destruct (full_OK_grown _ _ _ Hwf Hfull Hr) as [c Hg].
    destruct (add_at_OK_capacity _ _ _ _ _ _ Hwf Hfull Hi Hg Ha) as [Hc Hs].
    destruct (grown_Some _ _ Hg) as (nc & Hnc & ->).
    exists nc. split; [done|]. split; [done|]. split; [done|].
    eapply add_at_fits; [done|done| |done]. lia. }
  intros Hne Hf Hex H2c.
  destruct (grown_installed ar) as (p & Hp & Hg); [lia..|done|done|].
  exists p. split; [done|]. cbn zeta.
  set (c := if p <=? capacity ar then M else p) in *.
  assert (Hc : size ar < c).
  { unfold c. destruct (p <=? capacity ar) eqn:E; [lia|].
    apply Z.leb_gt in E. lia. }
  split; [done|]. split.
  { intros ar' Ha.
    destruct (add_OK_capacity _ _ _ _ _ Hwf Hfull Hg Ha) as [-> ->]. lia. }
  split.
  { intros i ar' Hi Ha.
    destruct (add_at_OK_capacity _ _ _ _ _ _ Hwf Hfull Hi Hg Ha) as [-> ->].
    lia. }
  intros Hc8. unfold sizeof_ptr in Hc8.
  destruct (ensure_room_expand_ok ar c) as (ar1 & Hr & Hs1 & Hc1 & Hf1 & Hl1);
    [done..|].
  split.
  - rewrite add_unfold, Hr. step.
    destruct (decide (CC_OK ≠ CC_OK)); [done|].
    rewrite append_body_ok by lia. rewrite Hs1, Hc1, Hf1. eauto.
  - intros i Hi. rewrite add_at_unfold, Hr by lia. step.
    destruct (decide (CC_OK ≠ CC_OK)); [done|].
    unfold insert_body. rewrite Hs1.
    rewrite (wrap_small (size ar - i)) by lia.
    rewrite (wrap_small ((size ar - i) * sizeof_ptr))
      by (unfold sizeof_ptr; lia).
    rewrite copy_slots_ok by lia. step.
    rewrite store_ok
      by (rewrite !length_app, !length_take, !length_drop; lia).
    step. unfold set_size, set_buffer. cbn [size capacity exp_factor buffer].
    rewrite Hc1, Hf1, wrap_small by lia. eauto.
Qed.

End WithMaxElements.

(** One pass of the swap loop over the middle segment of a block. *)
Lemma swap_loop_spec n : ∀ (pre mid post : list cell),
  n = (length mid / 2)%nat →
  reverse_loop n (Z.of_nat (length pre))
    (Z.of_nat (length pre) + Z.of_nat (length mid) - 1) (pre ++ mid ++ post)
  = Ret (pre ++ rev mid ++ post).
Proof.
  induction n as [|n IH]; intros pre mid post Hn.
  - cbn. destruct mid as [|x [|y mid]]; [done..|].
    cbn [length] in Hn. exfalso.
    change (S (S (length mid))) with (2 + length mid)%nat in Hn.
    rewrite (Nat.div_add_l 1 2) in Hn by done. lia.
  - destruct mid as [|x mid]; [done|].
    destruct (decide (mid = [])) as [->|Hmid]; [done|].
    destruct (exists_last Hmid) as (mid' & y & ->).
    assert (Hn' : n = (length mid' / 2)%nat).
    { cbn [length] in Hn. rewrite length_app in Hn. cbn [length] in Hn.
      replace (S (length mid' + 1)) with (1 * 2 + length mid')%nat in Hn by lia.
      rewrite Nat.div_add_l in Hn by done. lia. }
    cbn [reverse_loop].
    set (b := pre ++ (x :: mid' ++ [y]) ++ post).
    assert (Hlb : length b = (length pre + S (S (length mid')) + length post)%nat).
    { unfold b. rewrite !length_app. cbn. rewrite length_app. cbn. lia. }
    assert (Hlen : Z.of_nat (length (x :: mid' ++ [y]))
                   = Z.of_nat (length mid') + 2).
    { cbn [length]. rewrite length_app. cbn. lia. }
    rewrite Hlen.
    assert (Hbi : b !! length pre = Some x).
    { unfold b. by apply list_lookup_middle. }
    assert (Hbj : b !! (length pre + S (length mid'))%nat = Some y).
    { unfold b. replace (pre ++ (x :: mid' ++ [y]) ++ post)
        with ((pre ++ x :: mid') ++ y :: post)
        by (cbn; by rewrite <- !app_assoc).
      apply list_lookup_middle. rewrite length_app. cbn. lia. }
    set (j := Z.of_nat (length pre) + (Z.of_nat (length mid') + 2) - 1).
    set (i := Z.of_nat (length pre)).
    assert (Hi : Z.to_nat i = length pre) by (unfold i; lia).
    assert (Hj : Z.to_nat j = (length pre + S (length mid'))%nat)
      by (unfold j; lia).
    rewrite (load_ok b i) by (unfold i; lia). rewrite Hi, Hbi. step.
    rewrite (load_ok b j) by (unfold j; lia). rewrite Hj, Hbj. step.
    rewrite (store_ok b i) by (unfold i; lia). step.
    rewrite (store_ok _ j) by (rewrite length_insert; unfold j; lia). step.
    rewrite Hi, Hj.
    assert (Hb' : <[(length pre + S (length mid'))%nat := x]>
                    (<[length pre := y]> b)
                  = (pre ++ [y]) ++ mid' ++ (x :: post)).
    { unfold b. rewrite insert_app_r_alt by lia. rewrite Nat.sub_diag.
      change (<[0%nat:=y]> ((x :: mid' ++ [y]) ++ post))
        with (y :: (mid' ++ [y]) ++ post).
      replace (pre ++ y :: (mid' ++ [y]) ++ post)
        with ((pre ++ y :: mid') ++ y :: post)
        by (cbn; by rewrite <- !app_assoc).
      rewrite insert_app_r_alt by (rewrite length_app; cbn; lia).
      replace (length pre + S (length mid') - length (pre ++ y :: mid'))%nat
        with 0%nat by (rewrite length_app; cbn; lia).
      cbn. by rewrite <- !app_assoc. }
    rewrite Hb'.
    specialize (IH (pre ++ [y]) mid' (x :: post) Hn').
    rewrite length_app in IH. cbn [length] in IH.
    replace (i + 1) with (Z.of_nat (length pre + 1)) by (unfold i; lia).
    replace (j - 1)
      with (Z.of_nat (length pre + 1) + Z.of_nat (length mid') - 1)
      by (unfold j; lia).
    rewrite IH. f_equal. cbn [rev]. rewrite rev_app_distr. cbn.
    by rewrite <- !app_assoc.
Qed.

Lemma array_reverse_spec ar :
  wf ar →
  cc_array_reverse ar
  = Ret (set_buffer ar (rev (elements ar)
                        ++ drop (Z.to_nat (size ar)) (buffer ar))).
Proof.
  intros (H0 & H1 & H2 & H3). unfold cc_array_reverse, elements.
  destruct (size ar =? 0) eqn:E.
  - apply Z.eqb_eq in E. rewrite E. cbn. destruct ar; cbn. done.
  - apply Z.eqb_neq in E.
    pose proof (swap_loop_spec (Z.to_nat (size ar / 2)) []
                  (take (Z.to_nat (size ar)) (buffer ar))
                  (drop (Z.to_nat (size ar)) (buffer ar))) as Hl.
    rewrite length_take, Nat.min_l in Hl by lia.
    cbn [length app] in Hl. rewrite take_drop in Hl.
    replace (Z.of_nat 0 + Z.of_nat (Z.to_nat (size ar)) - 1)
      with (size ar - 1) in Hl by lia.
    change (Z.of_nat 0) with 0 in Hl. rewrite Hl; [done|].
    rewrite <- (Z2Nat.id (size ar)) at 1 by lia.
    rewrite <- (Nat2Z.inj_div _ 2), Nat2Z.id. done.
Qed.

Lemma array_reverse_elements ar ar' :
  wf ar → cc_array_reverse ar = Ret ar' →
  elements ar' = rev (elements ar) ∧ size ar' = size ar ∧ wf ar'.
Proof.
  intros Hwf. rewrite array_reverse_spec by done. intros [= <-].
  pose proof Hwf as (H0 & H1 & H2 & H3).
  pose proof (elements_length ar Hwf) as Hl.
  assert (Hlen : length (rev (elements ar)
                         ++ drop (Z.to_nat (size ar)) (buffer ar))
                 = length (buffer ar)).
  { rewrite length_app, length_rev, length_drop. unfold elements in *.
    rewrite length_take in *. lia. }
  split; [|split; [done|]].
  - unfold elements at 1. cbn [size buffer set_buffer].
    rewrite take_app_length'; [done|]. rewrite length_rev. lia.
  - unfold wf. cbn [size capacity buffer set_buffer]. rewrite Hlen. done.
Qed.

Lemma array_reverse_involutive ar :
  wf ar → (ar' ← cc_array_reverse ar; cc_array_reverse ar') = Ret ar.
Proof.
  intros Hwf. pose proof (array_reverse_elements ar _ Hwf (array_reverse_spec ar Hwf))
    as (He & Hs & Hwf').
  rewrite (array_reverse_spec ar Hwf). cbn.
  rewrite (array_reverse_spec _ Hwf'). rewrite He, rev_involutive.
  cbn [size buffer set_buffer]. unfold set_buffer. cbn.
  pose proof (elements_length ar Hwf) as Hl.
  rewrite drop_app_length' by (rewrite length_rev; lia).
  unfold elements. rewrite take_drop. by destruct ar.
Qed.

(** Every live slot has been written. *)
Lemma remove_slot_ok ar i :
  wf ar → 0 ≤ i < size ar →
  ∃ ar', remove_slot ar i = Ret ar' ∧ size ar' = size ar - 1.
Proof.
  intros (H0 & H1 & H2 & H3) Hi. unfold sizeof_ptr in H3.
  unfold remove_slot. rewrite (wrap_small (size ar - 1)) by lia.
  destruct (i =? size ar - 1) eqn:E.
  - step. eexists. split; [done|]. done.
  - apply Z.eqb_neq in E.
    rewrite (wrap_small (size ar - 1 - i)) by lia.
    rewrite (wrap_small ((size ar - 1 - i) * sizeof_ptr))
      by (unfold sizeof_ptr; lia).
    rewrite copy_slots_ok by lia. step. eexists. split; [done|]. done.
Qed.

Lemma index_of_loop_found (b : list cell) e n : ∀ i,
  0 ≤ i →
  (∀ k, (Z.to_nat i ≤ k < Z.to_nat i + n)%nat → ∃ c, b !! k = Some (Some c)) →
  (∃ k, (Z.to_nat i ≤ k < Z.to_nat i + n)%nat ∧ b !! k = Some (Some e)) →
  ∃ j, index_of_loop n i b e = Ret (Some j) ∧ i ≤ j < i + Z.of_nat n.
Proof.
  induction n as [|n IH]; intros i Hi Hinit (k & Hk & Hke); [lia|].
  cbn [index_of_loop]. unfold slot_equals.
  destruct (Hinit (Z.to_nat i) ltac:(lia)) as [c Hc].
  assert (Hlen : (Z.to_nat i < length b)%nat) by by eapply lookup_lt_Some.
  rewrite load_ok by lia. rewrite Hc. step.
  destruct (c =? e) eqn:E; step.
  - exists i. split; [done|lia].
  - apply Z.eqb_neq in E.
    destruct (IH (i + 1)) as (j & Hj & Hjr); [lia| | |].
    + intros k' Hk'. apply Hinit. lia.
    + exists k. split; [|done].
      destruct (decide (k = Z.to_nat i)) as [->|]; [congruence|lia].
    + exists j. split; [done|lia].
Qed.

Lemma index_of_found ar e :
  wf ar → initialized ar → Some e ∈ elements ar →
  ∃ j, cc_array_index_of ar e = Ret (CC_OK, Some j) ∧ 0 ≤ j < size ar.
Proof.
  intros Hwf Hinit Hin. pose proof Hwf as (H0 & H1 & H2 & H3).
  unfold cc_array_index_of.
  destruct (index_of_loop_found (buffer ar) e (Z.to_nat (size ar)) 0)
    as (j & Hj & Hjr); [done| | |].
  - intros k Hk. unfold initialized in Hinit.
    rewrite Forall_lookup in Hinit.
    pose proof (elements_length ar Hwf) as Hel.
    destruct (lookup_lt_is_Some_2 (elements ar) k ltac:(lia)) as [c Hc].
    destruct (Hinit _ _ Hc) as [p ->].
    unfold elements in Hc. rewrite lookup_take_lt in Hc by lia. eauto.
  - apply list_elem_of_lookup in Hin as [k Hk].
    pose proof (lookup_lt_Some _ _ _ Hk) as Hlt.
    pose proof (elements_length ar Hwf) as Hel.
    exists k. split; [lia|]. unfold elements in Hk.
    by rewrite lookup_take_lt in Hk by lia.
  - rewrite Hj. step. exists j. split; [done|lia].
Qed.

(** Array half of C9: with a valid index (or a stored element),
    [replace_at], [remove_at] and [remove] succeed whatever the output
    pointer is, and change the array in the same way; [get_at]
    dereferences the pointer unconditionally. *)
Lemma array_null_out ar e i :
  wf ar → 0 ≤ i < size ar →
  (∃ ar', ∀ out, ∃ out',
      cc_array_replace_at ar e i out = Ret (CC_OK, ar', out')
      ∧ (out = NullOut → out' = NullOut))
  ∧ (∃ ar', ∀ out, ∃ out',
      cc_array_remove_at ar i out = Ret (CC_OK, ar', out')
      ∧ (out = NullOut → out' = NullOut))
  ∧ (initialized ar → Some e ∈ elements ar →
     ∃ ar', ∀ out, ∃ out',
      cc_array_remove ar e out = Ret (CC_OK, ar', out')
      ∧ (out = NullOut → out' = NullOut))
  ∧ cc_array_get_at ar i NullOut = Fault
  ∧ ∃ v, ∀ c, cc_array_get_at ar i (Slot c) = Ret (CC_OK, Slot v).
Proof.
  intros Hwf Hi. pose proof Hwf as (H0 & H1 & H2 & H3).
  assert (Hlt : 0 ≤ i < Z.of_nat (length (buffer ar))) by lia.
  destruct (lookup_lt_is_Some_2 (buffer ar) (Z.to_nat i) ltac:(lia))
    as [old Hold].
  assert (Hsz : (size ar <=? i) = false) by (apply Z.leb_gt; lia).
  split; [|split; [|split; [|split]]].
  - unfold cc_array_replace_at. rewrite Hsz.
    eexists. intros [|c]; step.
    + rewrite store_ok by lia. step. eauto.
    + rewrite load_ok by lia. rewrite Hold. step.
      rewrite store_ok by lia. step. eexists. split; [done|done].
  - unfold cc_array_remove_at. rewrite Hsz.
    destruct (remove_slot_ok ar i Hwf Hi) as (ar' & Hr & _).
    exists ar'. intros [|c]; step.
    + rewrite Hr. step. eauto.
    + rewrite load_ok by lia. rewrite Hold. step. rewrite Hr. step.
      eexists. split; [done|done].
  - intros Hinit Hin. unfold cc_array_remove.
    destruct (index_of_found ar e Hwf Hinit Hin) as (j & Hj & Hjr).
    destruct (remove_slot_ok ar j Hwf Hjr) as (ar' & Hr & _).
    exists ar'. intros out. rewrite Hj. step.
    destruct (decide (CC_OK = CC_ERR_OUT_OF_RANGE)); [done|]. step.
    rewrite Hr. step. eexists. split; [done|]. by intros ->.
  - unfold cc_array_get_at. rewrite Hsz. rewrite load_ok by lia.
    rewrite Hold. done.
  - exists old. intros c. unfold cc_array_get_at. rewrite Hsz.
    rewrite load_ok by lia. rewrite Hold. done.
Qed.

Lemma subarray_OK a1 a2 ar b e sub :
  wf ar → 0 ≤ b →
  cc_array_subarray a1 a2 ar b e = Ret (CC_OK, Some sub) →
  exp_factor sub = F_zero false ∧ wf sub ∧ size sub = capacity sub
  ∧ size sub = e - b + 1
  ∧ elements sub = take (Z.to_nat (e - b + 1)) (drop (Z.to_nat b) (elements ar)).
Proof.
  intros (H0 & H1 & H2 & H3) Hb. unfold sizeof_ptr in H3.
  unfold cc_array_subarray.
  destruct (e <? b) eqn:E1; [done|]. apply Z.ltb_ge in E1.
  destruct (size ar <=? e) eqn:E2; [done|]. apply Z.leb_gt in E2. cbn [orb].
  destruct a1; [|done]. cbn [negb].
  rewrite (wrap_small (capacity ar * sizeof_ptr)) by (unfold sizeof_ptr; lia).
  unfold malloc. destruct a2; [|done]. rewrite slots_of_bytes.
  rewrite (wrap_small (e - b)) by lia. rewrite (wrap_small (e - b + 1)) by lia.
  rewrite (wrap_small ((e - b + 1) * sizeof_ptr)) by (unfold sizeof_ptr; lia).
  rewrite copy_slots_ok; rewrite ?length_replicate; try lia.
  step. intros [= <-]. cbn [exp_factor size capacity buffer].
  change (Z.to_nat 0) with 0%nat.
  assert (Hlen : length (take (Z.to_nat (e - b + 1))
                           (drop (Z.to_nat b) (buffer ar)))
                 = Z.to_nat (e - b + 1)).
  { rewrite length_take, length_drop. lia. }
  split; [done|]. split.
  { unfold wf. cbn [size capacity buffer].
    rewrite length_app, Hlen, length_drop, length_replicate.
    unfold sizeof_ptr. lia. }
  split; [done|]. split; [done|].
  unfold elements. cbn [size buffer].
  rewrite take_app_length' by done.
  rewrite !take_drop_commute, take_take. f_equal. f_equal. lia.
Qed.

Section ZeroFactor.
Variable M : Z.

Lemma grown_zero_factor x :
  exp_factor x = F_zero false → 0 ≤ capacity x ≤ SIZE_MAX →
  to_size_t (mul (of_size_t (capacity x)) (exp_factor x)) = Some 0
  ∧ grown M x = Some M.
Proof.
  intros Hf Hc. unfold grown. rewrite Hf, mul_zero_r
    by (unfold SIZE_MAX in Hc; lia).
  split; [done|]. cbn.
  by replace (0 <=? capacity x) with true by (symmetry; apply Z.leb_le; lia).
Qed.

(** C10. The array [subarray] returns has the growth factor [+0.0], whatever
    the factor of its source, and is full.  For every full well-formed array
    with that factor the expansion computes the new capacity 0, and [add]
    sets the capacity to [CC_MAX_ELEMENTS], whether the allocation then
    fails or succeeds. *)
Theorem subarray_growth_factor :
  (∀ a1 a2 ar b e sub,
     wf ar → 0 ≤ b →
     cc_array_subarray a1 a2 ar b e = Ret (CC_OK, Some sub) →
     exp_factor sub = F_zero false ∧ wf sub ∧ capacity sub ≤ size sub)
  ∧ (∀ x el,
       wf x → exp_factor x = F_zero false →
       capacity x ≤ size x → capacity x ≠ M →
       floor_mul (capacity x) (exp_factor x) = Some 0
       ∧ to_size_t (mul (of_size_t (capacity x)) (exp_factor x)) = Some 0
       ∧ cc_array_add M false x el = Ret (CC_ERR_ALLOC, set_capacity x M)
       ∧ (∀ st x', cc_array_add M true x el = Ret (st, x') →
            st = CC_OK ∧ capacity x' = M)
       ∧ (size x < wrap (M * sizeof_ptr) / sizeof_ptr →
            ∃ buf, cc_array_add M true x el
                   = Ret (CC_OK, mkArray (size x + 1) M (F_zero false) buf))).
Proof.
  split.
  { intros a1 a2 ar b e sub Hwf Hb Hsub.
    destruct (subarray_OK _ _ _ _ _ _ Hwf Hb Hsub) as (? & ? & ? & _).
    split; [done|]. split; [done|]. lia. }
  intros x el Hwf Hf Hfull Hne. pose proof Hwf as (H0 & H1 & H2 & H3).
  unfold sizeof_ptr in H3.
  destruct (grown_zero_factor x Hf) as [Hz Hg]; [lia|].
  split; [by rewrite Hf|]. split; [done|].
  split; [by apply add_expand_fail|].
  assert (Hroom : ∀ st x1, ensure_room M true x = Ret (st, x1) →
            st = CC_OK ∧ size x ≤ Z.of_nat (length (buffer x))
            ∧ size x ≤ wrap (M * sizeof_ptr) / sizeof_ptr
            ∧ x1 = mkArray (size x) M (exp_factor x)
                     (take (Z.to_nat (size x)) (buffer x)
                      ++ replicate (Z.to_nat (wrap (M * sizeof_ptr) / sizeof_ptr
                                              - size x)) None)).
  { intros st x1. unfold ensure_room.
    replace (capacity x <=? size x) with true
      by (symmetry; by apply Z.leb_le).
    intros Hex. apply expand_Ret in Hex; [|lia..].
    destruct Hex as [(_ & ? & _)|(_ & c & Hc & [(_ & ? & _)|(-> & _ & ? & ? & ->)])];
      [done..|].
    rewrite Hg in Hc. injection Hc as <-. done. }
  split.
  - intros st x'. rewrite add_unfold.
    destruct (ensure_room M true x) as [[st1 x1]| |] eqn:Hr; [|done..].
    destruct (Hroom _ _ eq_refl) as (-> & _ & _ & ->). step.
    destruct (decide (CC_OK ≠ CC_OK)); [done|].
    unfold append_body. destruct (store _ _ _); [|done..]. step.
    intros [= <- <-]. done.
  - intros Hlt. rewrite add_unfold.
    unfold ensure_room.
    replace (capacity x <=? size x) with true
      by (symmetry; by apply Z.leb_le).
    rewrite (expand_alloc_ok M x M Hne Hg) by lia. step.
    destruct (decide (CC_OK ≠ CC_OK)); [done|].
    assert (0 ≤ wrap (M * sizeof_ptr) / sizeof_ptr * 8 ≤ SIZE_MAX).
    { pose proof (wrap_range (M * sizeof_ptr)).
      pose proof (Z.mul_div_le (wrap (M * sizeof_ptr)) 8 ltac:(done)).
      unfold sizeof_ptr in *. lia. }
    rewrite append_body_ok; cbn [size capacity exp_factor buffer];
      rewrite ?length_app, ?length_take, ?length_replicate; try lia.
    rewrite Hf. eauto.
Qed.

End ZeroFactor.

Lemma empty8_is_new : cc_array_new true true = (CC_OK, Some empty8).
Proof. reflexivity. Qed.

Section AtFullCapacity.
Variable M : Z.

Lemma full8_reachable :
  (Ret (CC_OK, empty8) ≫= λ '(_, a), cc_array_add M true a 101
    ≫= λ '(_, a), cc_array_add M true a 102
    ≫= λ '(_, a), cc_array_add M true a 103
    ≫= λ '(_, a), cc_array_add M true a 104
    ≫= λ '(_, a), cc_array_add M true a 105
    ≫= λ '(_, a), cc_array_add M true a 106
    ≫= λ '(_, a), cc_array_add M true a 107
    ≫= λ '(_, a), cc_array_add M true a 108) = Ret (CC_OK, full8).
Proof. reflexivity. Qed.

(** C3 does not hold of the ninth [add]: with a failing allocator it reports
    [CC_ERR_ALLOC] and yet leaves the capacity at 16 over the old block of
    eight slots, so that the next [add] writes outside the block. *)
Theorem failed_expansion_changes_capacity :
  M ≠ 8 →
  ∃ ar', cc_array_add M false full8 109 = Ret (CC_ERR_ALLOC, ar')
         ∧ capacity full8 = 8 ∧ capacity ar' = 16
         ∧ length (buffer ar') = 8%nat
         ∧ ar' ≠ full8
         ∧ ∀ ok, cc_array_add M ok ar' 109 = Fault.
Proof.
  intros HM. eexists. split.
  - rewrite add_unfold. unfold ensure_room. cbn [capacity size full8].
    change (8 <=? 8) with true. cbv iota.
    rewrite (expand_alloc_fail M full8 16); [done|done|].
    unfold grown. cbn [capacity exp_factor full8]. reflexivity.
  - split; [done|]. split; [done|]. split; [done|]. split; [done|].
    intros ok. reflexivity.
Qed.

End AtFullCapacity.

(** C2 does not hold of the fresh, empty array.  Trimming it requests the
    block with [calloc(0, ...)] and copies one slot into it, outside the
    block; when [calloc] fails the capacity stays 8.  A call that succeeds
    leaves the capacity at the size, never at [max(size, 1)] for size 0. *)
Theorem trim_capacity_empty :
  cc_array_trim_capacity true empty8 = Fault
  ∧ cc_array_trim_capacity false empty8 = Ret (CC_ERR_ALLOC, empty8)
  ∧ (∀ ok ar ar', cc_array_trim_capacity ok ar = Ret (CC_OK, ar') →
       capacity ar' = size ar ∧ size ar' = size ar).
Proof.
  split; [reflexivity|]. split; [reflexivity|].
  intros ok ar ar'. unfold cc_array_trim_capacity.
  destruct (size ar =? capacity ar) eqn:E.
  - apply Z.eqb_eq in E. intros [= <-]. done.
  - destruct (calloc ok (size ar)); [|done].
    destruct (copy_slots _ _ _ _ _); [|done..]. step.
    intros [= <-]. done.
Qed.

(** A full array of [2^24 + 1] elements with the default growth factor, as
    left by [trim_capacity] after that many [add]s. *)
Lemma big_wf : wf big.
Proof.
  unfold wf, big, sizeof_ptr, SIZE_MAX, SIZE_MODULUS.
  cbn [size capacity buffer]. rewrite length_replicate. lia.
Qed.

Lemma add_expand_ok M ar e c :
  wf ar → capacity ar ≤ size ar → capacity ar ≠ M → grown M ar = Some c →
  c * 8 ≤ SIZE_MAX → size ar < c →
  ∃ b, cc_array_add M true ar e
       = Ret (CC_OK, mkArray (size ar + 1) c (exp_factor ar) b).
Proof.
  intros Hwf Hfull Hne Hg Hc Hlt. pose proof Hwf as (H0 & _).
  destruct (ensure_room_expand_ok M ar c) as (ar1 & Hr & Hs1 & Hc1 & Hf1 & Hl1);
    [done..|].
  rewrite add_unfold, Hr. step.
  destruct (decide (CC_OK ≠ CC_OK)); [done|].
  rewrite append_body_ok by lia. rewrite Hs1, Hc1, Hf1. eauto.
Qed.

(** C1 in the specification's words does not hold of [big]: single
    precision rounds [2^24 + 1] to [2^24], so the expansion leaves the
    capacity at [2^25], not at [floor((2^24 + 1) * 2) = 2^25 + 2]. *)
Lemma growth_as_stated_fails : ¬ growth_as_stated (2 ^ 64 - 2) big.
Proof.
  intros H.
  destruct (add_expand_ok (2 ^ 64 - 2) big 7 33554432) as [b Hb].
  - apply big_wf.
  - unfold big. cbn [size capacity]. lia.
  - unfold big. cbn [capacity]. lia.
  - unfold grown, big. cbn [capacity exp_factor]. reflexivity.
  - unfold SIZE_MAX, SIZE_MODULUS. lia.
  - unfold big. cbn [size]. lia.
  - destruct (H true 7 _ _ ltac:(unfold big; cbn [size capacity]; lia) Hb)
      as (_ & Hp & _).
    destruct Hp as (p & Hp & Hcap).
    + unfold big. cbn [capacity]. lia.
    + unfold big in Hp, Hcap. cbn [capacity exp_factor floor_mul] in Hp, Hcap.
      injection Hp as <-. vm_compute in Hcap. discriminate.
Qed.

(** *** The rules at particular arrays *)

Lemma full8_wf : wf full8.
Proof.
  unfold wf, full8, sizeof_ptr, SIZE_MAX, SIZE_MODULUS.
  cbn [size capacity buffer length]. lia.
Qed.

(** C9 in the specification's words does not hold of [full8] at index 0:
    [get_at] without an output slot writes through the null pointer. *)
Lemma null_out_as_stated_fails : ¬ null_out_as_stated full8 0.
Proof. intros [[r Hr] _]. discriminate Hr. Qed.

Lemma growth_by_design_witness :
  wf full8 ∧ capacity full8 ≤ size full8
  ∧ ∃ b, cc_array_add (2 ^ 64 - 2) true full8 109
         = Ret (CC_OK, mkArray 9 16 (F_fin false 2 0) b).
Proof.
  split; [apply full8_wf|]. split; [done|].
  destruct (growth_by_design (2 ^ 64 - 2) true full8 109 full8_wf)
    as (_ & _ & _ & _ & _ & _ & _ & H); [done|done|].
  destruct H as (p & Hp & _ & _ & _ & Hok).
  - done.
  - by left.
  - reflexivity.
  - done.
  - injection Hp as <-. destruct Hok as [[b Hb] _]; [done|]. by exists b.
Defined.

Lemma add_at_inserts_witness :
  let ar := mkArray 3 4 (F_fin false 2 0) [Some 11; Some 12; Some 13; None] in
  ∃ ar', cc_array_add_at (2 ^ 64 - 2) true ar 99 1 = Ret (CC_OK, ar')
         ∧ size ar' = 4
         ∧ elements ar' = [Some 11; Some 99; Some 12; Some 13]
         ∧ get ar' 1 = Some (Some 99).
Proof.
  intros ar.
  assert (Hwf : wf ar).
  { unfold wf, ar, sizeof_ptr, SIZE_MAX, SIZE_MODULUS.
    cbn [size capacity buffer length]. lia. }
  destruct (add_at_inserts (2 ^ 64 - 2) true ar 99 1 Hwf ltac:(done))
    as (_ & _ & _ & Hex & Hspec).
  destruct Hex as [ar' Har']; [done|done|].
  destruct (Hspec ar' ltac:(done) Har') as (Hs & Hel & Hg & _).
  exists ar'. split; [done|]. split; [exact Hs|]. split; [exact Hel|exact Hg].
Defined.

Lemma subarray_growth_factor_witness :
  let src := mkArray 4 8 (F_fin false 2 0)
               [Some 1; Some 2; Some 3; Some 4; None; None; None; None] in
  ∃ sub, cc_array_subarray true true src 1 2 = Ret (CC_OK, Some sub)
         ∧ elements sub = [Some 2; Some 3]
         ∧ exp_factor sub = F_zero false
         ∧ cc_array_add (2 ^ 64 - 2) false sub 9
           = Ret (CC_ERR_ALLOC, set_capacity sub (2 ^ 64 - 2)).
Proof.
  intros src.
  assert (Hwf : wf src).
  { unfold wf, src, sizeof_ptr, SIZE_MAX, SIZE_MODULUS.
    cbn [size capacity buffer length]. lia. }
  destruct (subarray_growth_factor (2 ^ 64 - 2)) as [Hsub Hadd].
  eexists. split; [reflexivity|]. split; [reflexivity|].
  destruct (Hsub true true src 1 2 _ Hwf ltac:(done) eq_refl)
    as (Hf & Hwf' & Hfull).
  split; [exact Hf|].
  destruct (Hadd _ 9 Hwf' Hf Hfull ltac:(done)) as (_ & _ & Hfail & _).
  exact Hfail.
Defined.

Lemma failed_expansion_changes_capacity_witness :
  ∃ ar', cc_array_add (2 ^ 64 - 2) false full8 109 = Ret (CC_ERR_ALLOC, ar')
         ∧ capacity ar' = 16 ∧ ar' ≠ full8.
Proof.
  destruct (failed_expansion_changes_capacity (2 ^ 64 - 2) ltac:(done))
    as (ar' & Hr & _ & Hc & _ & Hne & _).
  by exists ar'.
Defined.

End ArrayFacts.


(** ** The singly-linked list *)
Module SListFacts.
Import SList.

(** *** Chains *)

Lemma seg_app h p l1 l2 q :
  seg h p (l1 ++ l2) q ↔ ∃ m, seg h p l1 m ∧ seg h m l2 q.
Proof.
  revert p. induction l1 as [|n l1 IH]; intros p; cbn.
  - split; [intros H; by exists p|by intros (m & -> & H)].
  - split.
    + intros (-> & nd & Hn & Hs). apply IH in Hs as (m & H1 & H2).
      exists m. split; [|done]. split; [done|]. by exists nd.
    + intros (m & (-> & nd & Hn & H1) & H2). split; [done|].
      exists nd. split; [done|]. apply IH. by exists m.
Qed.

Lemma seg_in_heap h p ns q n :
  seg h p ns q → n ∈ ns → is_Some (h !! n).
Proof.
  revert p. induction ns as [|m ns IH]; intros p; cbn; [by intros _ ?%elem_of_nil|].
  intros (-> & nd & Hn & Hs) [->|Hin]%elem_of_cons; [by exists nd|].
  by eapply IH.
Qed.

Lemma seg_insert_frame h p ns q n nd :
  seg h p ns q → n ∉ ns → seg (<[n := nd]> h) p ns q.
Proof.
  revert p. induction ns as [|m ns IH]; intros p; cbn; [done|].
  intros (-> & md & Hm & Hs) Hn. apply not_elem_of_cons in Hn as [Hne Hn].
  split; [done|]. exists md. rewrite lookup_insert_ne by done.
  split; [done|]. by apply IH.
Qed.

Lemma seg_delete_frame h p ns q n :
  seg h p ns q → n ∉ ns → seg (delete n h) p ns q.
Proof.
  revert p. induction ns as [|m ns IH]; intros p; cbn; [done|].
  intros (-> & md & Hm & Hs) Hn. apply not_elem_of_cons in Hn as [Hne Hn].
  split; [done|]. exists md. rewrite lookup_delete_ne by done.
  split; [done|]. by apply IH.
Qed.

(** Two chains that agree on the nodes of one of them. *)
Lemma seg_agree h h' p ns q :
  seg h p ns q → (∀ n, n ∈ ns → h' !! n = h !! n) → seg h' p ns q.
Proof.
  revert p. induction ns as [|m ns IH]; intros p; cbn; [done|].
  intros (-> & md & Hm & Hs) Hag. split; [done|]. exists md.
  rewrite Hag by apply list_elem_of_here. split; [done|].
  apply IH; [done|]. intros n Hn. apply Hag. by apply list_elem_of_further.
Qed.

Lemma seg_func h p l1 l2 :
  h !! NULL = None → seg h p l1 NULL → seg h p l2 NULL → l1 = l2.
Proof.
  intros Hnull. revert p l2.
  induction l1 as [|n l1 IH]; intros p [|m l2]; cbn.
  - done.
  - intros Hp (Hm & nd & Hn & _). congruence.
  - intros (Hp & nd & Hn & _) Hq. congruence.
  - intros (-> & nd & Hn & H1) (<- & md & Hm & H2).
    rewrite Hn in Hm. injection Hm as <-. f_equal. by eapply IH.
Qed.

Lemma seg_NoDup h p ns :
  h !! NULL = None → seg h p ns NULL → NoDup ns.
Proof.
  intros Hnull. revert p. induction ns as [|n ns IH]; intros p; cbn.
  - intros _. constructor.
  - intros (-> & nd & Hn & Hs). constructor; [|by eapply IH].
    intros Hin. apply list_elem_of_split in Hin as (l1 & l2 & ->).
    pose proof Hs as Hs'. apply seg_app in Hs' as (m & _ & Hm).
    pose proof Hm as (-> & md & Hmd & Hl2).
    rewrite Hn in Hmd. injection Hmd as <-.
    pose proof (seg_func _ _ _ _ Hnull Hs Hl2) as Heq.
    apply (f_equal length) in Heq. rewrite length_app in Heq. cbn in Heq. lia.
Qed.

Lemma heap_ok_null h : heap_ok h → h !! NULL = None.
Proof.
  intros Hok. destruct (h !! NULL) as [nd|] eqn:E; [|done].
  apply Hok in E. unfold NULL in E. lia.
Qed.

(** A list has fewer than [2^64] nodes: they sit at distinct non-null
    addresses. *)
Lemma seg_length_bound h p ns :
  heap_ok h → seg h p ns NULL → Z.of_nat (length ns) ≤ SIZE_MAX.
Proof.
  intros Hok Hs.
  pose proof (seg_NoDup _ _ _ (heap_ok_null _ Hok) Hs) as Hnd.
  assert (Hsub : ns ⊆+ seqZ 1 SIZE_MAX).
  { apply NoDup_submseteq; [done|]. intros n Hn.
    destruct (seg_in_heap _ _ _ _ _ Hs Hn) as [nd Hnd'].
    apply Hok in Hnd'. apply elem_of_seqZ. lia. }
  apply submseteq_length in Hsub. rewrite length_seqZ in Hsub.
  assert (0 ≤ SIZE_MAX) by done. lia.
Qed.

Lemma seg_head h p ns q : seg h p ns q → p = hd q ns.
Proof. destruct ns; cbn; [done|]. by intros (-> & _). Qed.

Lemma seg_not_null h p ns q n :
  heap_ok h → seg h p ns q → n ∈ ns → n ≠ NULL.
Proof.
  intros Hok Hs Hn. destruct (seg_in_heap _ _ _ _ _ Hs Hn) as [nd Hnd].
  apply Hok in Hnd. unfold NULL. lia.
Qed.

(** The last node of a null-terminated chain. *)
Lemma seg_last h p ns t :
  seg h p (ns ++ [t]) NULL →
  seg h p ns t ∧ ∃ nd, h !! t = Some nd ∧ next nd = NULL.
Proof.
  intros (m & H1 & (-> & nd & Hn & Hq))%seg_app. cbn in Hq. eauto.
Qed.

(** *** Contents *)

Lemma contents_nil h : contents h [] = [].
Proof. done. Qed.

Lemma contents_cons h n ns nd :
  h !! n = Some nd → contents h (n :: ns) = data nd :: contents h ns.
Proof. intros H. unfold contents. cbn. by rewrite H. Qed.

Lemma contents_app h l1 l2 :
  contents h (l1 ++ l2) = contents h l1 ++ contents h l2.
Proof. unfold contents. apply omap_app. Qed.

Lemma contents_agree h h' ns :
  (∀ n, n ∈ ns → data <$> h' !! n = data <$> h !! n) →
  contents h' ns = contents h ns.
Proof.
  induction ns as [|n ns IH]; intros Hag; [done|].
  unfold contents. cbn. rewrite Hag by apply list_elem_of_here.
  destruct (data <$> h !! n); [f_equal|];
    apply IH; intros m Hm; apply Hag; by apply list_elem_of_further.
Qed.

Lemma contents_length h p ns q :
  seg h p ns q → length (contents h ns) = length ns.
Proof.
  revert p. induction ns as [|n ns IH]; intros p; cbn [seg]; [done|].
  intros (-> & nd & Hn & Hs). rewrite (contents_cons _ _ _ _ Hn). cbn.
  f_equal. by eapply IH.
Qed.

(** *** Node memory *)

Lemma load_node_Some (h : heap) p nd : h !! p = Some nd → load_node h p = Ret nd.
Proof. intros H. unfold load_node. by rewrite H. Qed.

Lemma store_next_Some (h : heap) p q nd :
  h !! p = Some nd → store_next h p q = Ret (<[p := mkNode (data nd) q]> h).
Proof. intros H. unfold store_next. by rewrite (load_node_Some _ _ _ H). Qed.

Lemma store_data_Some (h : heap) p v nd :
  h !! p = Some nd → store_data h p v = Ret (<[p := mkNode v (next nd)]> h).
Proof. intros H. unfold store_data. by rewrite (load_node_Some _ _ _ H). Qed.

Lemma heap_ok_insert h p nd :
  heap_ok h → 0 < p ≤ SIZE_MAX → heap_ok (<[p := nd]> h).
Proof.
  intros Hok Hp q qd. rewrite lookup_insert. case_decide; [by subst|].
  apply Hok.
Qed.

Lemma heap_ok_update h p nd nd' :
  heap_ok h → h !! p = Some nd → heap_ok (<[p := nd']> h).
Proof. intros Hok Hp. eapply heap_ok_insert; [done|]. by eapply Hok. Qed.

Lemma heap_ok_delete h p : heap_ok h → heap_ok (delete p h).
Proof.
  intros Hok q qd. rewrite lookup_delete. case_decide; [done|]. apply Hok.
Qed.

(** The node freshly allocated at [p] and given its element. *)
Lemma alloc_store_data h p e :
  store_data (alloc_node h p) p e = Ret (<[p := mkNode e NULL]> h).
Proof.
  unfold alloc_node. erewrite store_data_Some by apply lookup_insert_eq.
  by rewrite insert_insert_eq.
Qed.

Lemma repr_nil h l : repr h l [] ↔ l = mkList 0 NULL NULL.
Proof.
  unfold repr. cbn. destruct l as [s hd tl]; cbn. split.
  - by intros (-> & -> & ->).
  - by intros [= -> -> ->].
Qed.

Lemma repr_size_0 h l ns : repr h l ns → size l = 0 → ns = [].
Proof. intros (_ & _ & Hs) H0. destruct ns; [done|]. cbn in Hs. lia. Qed.

Lemma repr_size_nonneg h l ns : repr h l ns → 0 ≤ size l.
Proof. intros (_ & _ & Hs). lia. Qed.

Lemma fresh_not_in h p ns q m :
  seg h p ns q → h !! m = None → m ∉ ns.
Proof.
  intros Hs Hm Hin. destruct (seg_in_heap _ _ _ _ _ Hs Hin) as [nd Hnd].
  congruence.
Qed.

(** *** add_first *)
Lemma add_first_spec h l ns p e :
  heap_ok h → repr h l ns → h !! p = None → 0 < p ≤ SIZE_MAX →
  ∃ h' l', cc_slist_add_first h l p e = Ret (CC_OK, h', l')
    ∧ heap_ok h' ∧ repr h' l' (p :: ns)
    ∧ contents h' (p :: ns) = e :: contents h ns
    ∧ (∀ q, q ≠ p → h' !! q = h !! q).
Proof.
  intros Hok (Hseg & Htail & Hsize) Hp Hpr.
  pose proof (fresh_not_in _ _ _ _ _ Hseg Hp) as Hpn.
  unfold cc_slist_add_first.
  replace (p =? NULL) with false by (symmetry; apply Z.eqb_neq; unfold NULL; lia).
  rewrite alloc_store_data. step.
  set (h1 := <[p := mkNode e NULL]> h).
  assert (Hok1 : heap_ok h1) by by apply heap_ok_insert.
  destruct ns as [|n ns].
  - cbn in Hseg. change (size l = 0) in Hsize. rewrite Hsize. cbn [Z.eqb]. step.
    eexists _, _. split; [reflexivity|]. split; [done|].
    split; [|split].
    + unfold repr. cbn [seg size head tail set_size set_tail set_head].
      rewrite Hsize. split; [|done]. split; [done|].
      exists (mkNode e NULL). split; [apply lookup_insert_eq|done].
    + erewrite contents_cons by apply lookup_insert_eq. done.
    + intros q Hq. unfold h1. by rewrite lookup_insert_ne.
  - replace (size l =? 0) with false
      by (symmetry; apply Z.eqb_neq; cbn in Hsize; lia).
    erewrite store_next_Some by apply lookup_insert_eq. step.
    unfold h1. rewrite insert_insert_eq. cbn [data].
    set (h2 := <[p := mkNode e (head l)]> h).
    assert (Hok2 : heap_ok h2) by by apply heap_ok_insert.
    assert (Hseg2 : seg h2 p (p :: n :: ns) NULL).
    { cbn [seg]. split; [done|]. exists (mkNode e (head l)).
      split; [apply lookup_insert_eq|].
      by apply (seg_insert_frame h (head l) (n :: ns)). }
    pose proof (seg_length_bound _ _ _ Hok2 Hseg2) as Hlen.
    eexists _, _. split; [reflexivity|]. split; [done|].
    split; [|split].
    + unfold repr. cbn [head tail size set_size set_head].
      split; [done|]. split; [by rewrite Htail|].
      rewrite wrap_small; cbn [length] in *; lia.
    + erewrite contents_cons by apply lookup_insert_eq. cbn [data]. f_equal.
      apply contents_agree. intros m Hm. unfold h2.
      rewrite lookup_insert_ne; [done|]. intros ->. done.
    + intros q Hq. unfold h2. by rewrite lookup_insert_ne.
Qed.

Lemma last_snoc_default (ns : list Z) (t : Z) d :
  default d (last (ns ++ [t])) = t.
Proof. by rewrite last_snoc. Qed.

(** A non-empty list ends in its tail node. *)
Lemma repr_snoc h l ns :
  repr h l ns → ns ≠ [] →
  ∃ ns0, ns = ns0 ++ [tail l] ∧ seg h (head l) ns0 (tail l)
         ∧ ∃ nd, h !! tail l = Some nd ∧ next nd = NULL.
Proof.
  intros (Hseg & Htail & _) Hne.
  destruct (exists_last Hne) as (ns0 & t & ->).
  rewrite last_snoc in Htail. cbn in Htail. subst t.
  exists ns0. split; [done|]. by apply seg_last.
Qed.

(** *** add_last *)
Lemma add_last_spec h l ns p e :
  heap_ok h → repr h l ns → h !! p = None → 0 < p ≤ SIZE_MAX →
  ∃ h' l', cc_slist_add_last h l p e = Ret (CC_OK, h', l')
    ∧ heap_ok h' ∧ repr h' l' (ns ++ [p])
    ∧ contents h' (ns ++ [p]) = contents h ns ++ [e]
    ∧ (∀ q, q ≠ p → q ∉ ns → h' !! q = h !! q).
Proof.
  intros Hok Hrepr Hp Hpr. pose proof Hrepr as (Hseg & Htail & Hsize).
  pose proof (fresh_not_in _ _ _ _ _ Hseg Hp) as Hpn.
  pose proof (seg_NoDup _ _ _ (heap_ok_null _ Hok) Hseg) as Hnd.
  unfold cc_slist_add_last.
  replace (p =? NULL) with false by (symmetry; apply Z.eqb_neq; unfold NULL; lia).
  rewrite alloc_store_data. step.
  set (h1 := <[p := mkNode e NULL]> h).
  assert (Hok1 : heap_ok h1) by by apply heap_ok_insert.
  destruct (decide (ns = [])) as [->|Hne].
  - cbn in Hseg. change (size l = 0) in Hsize. rewrite Hsize. cbn [Z.eqb]. step.
    eexists _, _. split; [reflexivity|]. split; [done|].
    split; [|split].
    + unfold repr. cbn [seg size head tail set_size set_tail set_head].
      rewrite Hsize. split; [|done]. split; [done|].
      exists (mkNode e NULL). split; [apply lookup_insert_eq|done].
    + cbn [app]. erewrite contents_cons by apply lookup_insert_eq. done.
    + intros q Hq _. unfold h1. by rewrite lookup_insert_ne.
  - destruct (repr_snoc _ _ _ Hrepr Hne) as (ns0 & Hns & Hseg0 & nt & Ht & Hnt).
    replace (size l =? 0) with false.
    2:{ symmetry. apply Z.eqb_neq. destruct ns; [done|]. cbn in Hsize. lia. }
    assert (Htp : tail l ≠ p) by (intros E; rewrite E in Ht; congruence).
    assert (Ht1 : h1 !! tail l = Some nt) by (unfold h1; by rewrite lookup_insert_ne).
    erewrite store_next_Some by done. step.
    set (h2 := <[tail l := mkNode (data nt) p]> h1).
    assert (Hok2 : heap_ok h2) by by eapply heap_ok_update.
    assert (Ht0 : tail l ∉ ns0).
    { rewrite Hns in Hnd. apply NoDup_app in Hnd as (_ & Hd & _).
      intros Hin. apply (Hd _ Hin). apply list_elem_of_here. }
    assert (Hp0 : p ∉ ns0).
    { intros Hin. apply Hpn. rewrite Hns. apply elem_of_app. by left. }
    assert (Hseg2 : seg h2 (head l) (ns ++ [p]) NULL).
    { rewrite Hns, <- app_assoc. apply seg_app. exists (tail l). split.
      - unfold h2, h1.
        apply seg_insert_frame; [apply seg_insert_frame|]; done.
      - cbn [app seg]. split; [done|]. exists (mkNode (data nt) p).
        split; [apply lookup_insert_eq|]. cbn [next]. split; [done|].
        exists (mkNode e NULL). split; [|done].
        unfold h2, h1. rewrite lookup_insert_ne by done.
        apply lookup_insert_eq. }
    pose proof (seg_length_bound _ _ _ Hok2 Hseg2) as Hlen.
    rewrite length_app in Hlen. cbn [length] in Hlen.
    eexists _, _. split; [reflexivity|]. split; [done|].
    split; [|split].
    + unfold repr. cbn [head tail size set_size set_tail].
      split; [done|]. split; [by rewrite last_snoc|].
      rewrite length_app. cbn [length]. rewrite wrap_small; lia.
    + rewrite !contents_app. f_equal.
      * apply contents_agree. intros m Hm. unfold h2, h1.
        rewrite lookup_insert. case_decide as E.
        -- subst m. by rewrite Ht.
        -- rewrite lookup_insert_ne; [done|]. intros ->. done.
      * rewrite (contents_cons _ _ _ (mkNode e NULL)); [done|]. unfold h2, h1.
        rewrite lookup_insert_ne by done. apply lookup_insert_eq.
    + intros q Hq Hqn. unfold h2, h1.
      rewrite lookup_insert_ne.
      * by rewrite lookup_insert_ne.
      * intros <-. apply Hqn. rewrite Hns. apply elem_of_app. right.
        apply list_elem_of_here.
Qed.

Lemma add_alloc_failure h l e :
  cc_slist_add_first h l NULL e = Ret (CC_ERR_ALLOC, h, l)
  ∧ cc_slist_add_last h l NULL e = Ret (CC_ERR_ALLOC, h, l).
Proof. done. Qed.

Lemma last_cons_default (x : Z) (l : list Z) d :
  default d (last (x :: l)) = default x (last l).
Proof. rewrite last_cons. by destruct (last l). Qed.

Lemma last_app_cons_default (l1 : list Z) x l2 d :
  default d (last (l1 ++ x :: l2)) = default d (last (x :: l2)).
Proof. rewrite last_app. by rewrite last_cons; destruct (last l2). Qed.

(** *** get_node_at *)
Lemma walk_spec h q node l2 : ∀ l1 p prev,
  seg h p (l1 ++ node :: l2) q →
  walk (length l1) h p prev = Ret (node, default prev (last l1)).
Proof.
  induction l1 as [|a l1 IH]; intros p prev; cbn [app seg length walk].
  - by intros (-> & _).
  - intros (-> & nd & Ha & Hs). rewrite (load_node_Some _ _ _ Ha). step.
    rewrite (IH _ a Hs). by rewrite last_cons_default.
Qed.

Lemma get_node_at_spec h l l1 node l2 :
  repr h l (l1 ++ node :: l2) →
  get_node_at h l (Z.of_nat (length l1))
  = Ret (CC_OK, node, default NULL (last l1)).
Proof.
  intros (Hseg & _ & Hsize). unfold get_node_at.
  replace (size l <=? Z.of_nat (length l1)) with false.
  2:{ symmetry. apply Z.leb_gt. rewrite Hsize, length_app. cbn. lia. }
  rewrite Nat2Z.id, (walk_spec _ _ _ _ _ _ NULL Hseg). done.
Qed.

Lemma get_node_at_out_of_range h l i :
  size l ≤ i → get_node_at h l i = Ret (CC_ERR_OUT_OF_RANGE, NULL, NULL).
Proof.
  intros Hi. unfold get_node_at.
  by replace (size l <=? i) with true by (symmetry; by apply Z.leb_le).
Qed.

(** Splitting the node list at a valid index. *)
Lemma split_at_index (ns : list Z) i :
  0 ≤ i < Z.of_nat (length ns) →
  ∃ l1 node l2, ns = l1 ++ node :: l2 ∧ Z.of_nat (length l1) = i
                ∧ l1 = take (Z.to_nat i) ns
                ∧ node :: l2 = drop (Z.to_nat i) ns.
Proof.
  intros Hi.
  destruct (lookup_lt_is_Some_2 ns (Z.to_nat i) ltac:(lia)) as [node Hn].
  exists (take (Z.to_nat i) ns), node, (drop (S (Z.to_nat i)) ns).
  rewrite <- (drop_S _ _ _ Hn), take_drop, length_take.
  repeat split; try done. lia.
Qed.

(** *** add_at *)
Lemma add_at_spec h l l1 node l2 p e :
  heap_ok h → repr h l (l1 ++ node :: l2) →
  h !! p = None → 0 < p ≤ SIZE_MAX →
  ∃ h' l', cc_slist_add_at h l p e (Z.of_nat (length l1)) = Ret (CC_OK, h', l')
    ∧ heap_ok h' ∧ repr h' l' (l1 ++ p :: node :: l2)
    ∧ contents h' (l1 ++ p :: node :: l2)
      = contents h l1 ++ e :: contents h (node :: l2)
    ∧ (∀ q, q ≠ p → q ∉ l1 → h' !! q = h !! q).
Proof.
  intros Hok Hrepr Hp Hpr. pose proof Hrepr as (Hseg & Htail & Hsize).
  pose proof (fresh_not_in _ _ _ _ _ Hseg Hp) as Hpn.
  pose proof (seg_NoDup _ _ _ (heap_ok_null _ Hok) Hseg) as Hnd.
  unfold cc_slist_add_at. rewrite (get_node_at_spec _ _ _ _ _ Hrepr). step.
  destruct (decide (CC_OK ≠ CC_OK)); [done|].
  replace (p =? NULL) with false by (symmetry; apply Z.eqb_neq; unfold NULL; lia).
  rewrite alloc_store_data. step.
  set (h1 := <[p := mkNode e NULL]> h).
  assert (Hok1 : heap_ok h1) by by apply heap_ok_insert.
  destruct (decide (l1 = [])) as [->|Hne].
  - cbn [last default app] in *. change (NULL =? NULL) with true. cbv iota.
    erewrite store_next_Some by apply lookup_insert_eq. step.
    unfold h1. rewrite insert_insert_eq. cbn [data].
    set (h2 := <[p := mkNode e (head l)]> h).
    assert (Hok2 : heap_ok h2) by by apply heap_ok_insert.
    assert (Hseg2 : seg h2 p (p :: node :: l2) NULL).
    { cbn [seg]. split; [done|]. exists (mkNode e (head l)).
      split; [apply lookup_insert_eq|].
      by apply (seg_insert_frame h (head l) (node :: l2)). }
    pose proof (seg_length_bound _ _ _ Hok2 Hseg2) as Hlen.
    eexists _, _. split; [reflexivity|]. split; [done|].
    split; [|split].
    + unfold repr. cbn [head tail size set_size set_head].
      split; [done|]. split; [by rewrite Htail|].
      rewrite wrap_small; cbn [length] in *; lia.
    + rewrite contents_nil, app_nil_l.
      erewrite contents_cons by apply lookup_insert_eq. cbn [data]. f_equal.
      apply contents_agree. intros m Hm. unfold h2.
      rewrite lookup_insert_ne; [done|]. intros ->. done.
    + intros q Hq _. unfold h2. by rewrite lookup_insert_ne.
  - destruct (exists_last Hne) as (l0 & prev & ->).
    rewrite last_snoc_default.
    rewrite <- app_assoc in Hseg. cbn [app] in Hseg.
    apply seg_app in Hseg as (m & Hseg0 & (-> & pd & Hprev & Hrest)).
    assert (Hprev_nn : prev ≠ NULL).
    { apply Hok in Hprev. unfold NULL. lia. }
    replace (prev =? NULL) with false by (symmetry; by apply Z.eqb_neq).
    assert (Hpp : prev ≠ p) by (intros E; rewrite E in Hprev; congruence).
    assert (Hprev1 : h1 !! prev = Some pd)
      by (unfold h1; by rewrite lookup_insert_ne).
    rewrite (load_node_Some _ _ _ Hprev1). step.
    rewrite (store_next_Some _ _ _ _ Hprev1). step.
    set (h2 := <[prev := mkNode (data pd) p]> h1).
    assert (Hp2 : h2 !! p = Some (mkNode e NULL)).
    { unfold h2, h1. rewrite lookup_insert_ne by done. apply lookup_insert_eq. }
    rewrite (store_next_Some _ _ _ _ Hp2). step. cbn [data].
    set (h3 := <[p := mkNode e (next pd)]> h2).
    assert (Hok3 : heap_ok h3).
    { apply heap_ok_insert; [|done]. by eapply heap_ok_update. }
    rewrite <- app_assoc in Hnd, Hpn. cbn [app] in Hnd, Hpn.
    apply NoDup_app in Hnd as (Hnd0 & Hd0 & Hnd1).
    apply NoDup_cons in Hnd1 as [Hprev_rest _].
    apply not_elem_of_app in Hpn as [Hp0 Hp1].
    apply not_elem_of_cons in Hp1 as [_ Hp1].
    assert (Hprev0 : prev ∉ l0).
    { intros Hin. apply (Hd0 _ Hin). apply list_elem_of_here. }
    assert (Hseg3 : seg h3 (head l) (l0 ++ prev :: p :: node :: l2) NULL).
    { apply seg_app. exists prev. split.
      - unfold h3, h2, h1.
        do 3 (apply seg_insert_frame; [|done]). done.
      - cbn [seg]. split; [done|]. exists (mkNode (data pd) p). split.
        { unfold h3, h2. rewrite lookup_insert_ne by done.
          apply lookup_insert_eq. }
        cbn [next]. split; [done|]. exists (mkNode e (next pd)).
        split; [apply lookup_insert_eq|]. cbn [next].
        unfold h3, h2, h1.
        do 3 (apply (seg_insert_frame _ _ (node :: l2)); [|done]). done. }
    pose proof (seg_length_bound _ _ _ Hok3 Hseg3) as Hlen.
    eexists _, _. split; [reflexivity|]. split; [done|].
    rewrite <- !app_assoc. cbn [app].
    split; [|split].
    + unfold repr. cbn [head tail size set_size].
      split; [done|]. split.
      * rewrite Htail, <- app_assoc. cbn [app].
        rewrite !last_app_cons_default, !last_cons_default. done.
      * rewrite Hsize, <- app_assoc. cbn [app].
        rewrite !length_app in *. cbn [length] in *. rewrite wrap_small; lia.
    + rewrite !contents_app.
      assert (Hag : ∀ ms, p ∉ ms → contents h3 ms = contents h ms).
      { intros ms Hms. apply contents_agree. intros m' Hm'.
        unfold h3, h2, h1. rewrite lookup_insert_ne by (intros ->; done).
        rewrite lookup_insert. case_decide as E.
        - subst m'. by rewrite Hprev.
        - rewrite lookup_insert_ne; [done|]. intros ->. done. }
      rewrite (Hag l0 Hp0), <- app_assoc. f_equal.
      rewrite (contents_cons h3 prev _ (mkNode (data pd) p)).
      2:{ unfold h3, h2. rewrite lookup_insert_ne by done.
          apply lookup_insert_eq. }
      rewrite (contents_cons h prev [] pd Hprev). cbn [data app contents omap].
      f_equal.
      rewrite (contents_cons h3 p _ (mkNode e (next pd)))
        by apply lookup_insert_eq.
      cbn [data]. rewrite contents_nil, app_nil_l. f_equal. apply Hag.
      change (p ∉ node :: l2). done.
    + intros q Hq Hqn. apply not_elem_of_app in Hqn as [_ Hqp].
      apply not_elem_of_cons in Hqp as [Hqp _].
      unfold h3, h2, h1. by rewrite !lookup_insert_ne by done.
Qed.

(** *** unlinkn *)
Lemma unlinkn_spec h l l1 node l2 :
  heap_ok h → repr h l (l1 ++ node :: l2) →
  ∃ nd h' l', h !! node = Some nd
    ∧ unlinkn h l node (default NULL (last l1)) = Ret (data nd, h', l')
    ∧ heap_ok h' ∧ repr h' l' (l1 ++ l2)
    ∧ contents h' (l1 ++ l2) = contents h l1 ++ contents h l2
    ∧ contents h (l1 ++ node :: l2)
      = contents h l1 ++ data nd :: contents h l2
    ∧ h' !! node = None
    ∧ (∀ q, q ∉ l1 → q ≠ node → h' !! q = h !! q).
Proof.
  intros Hok Hrepr. pose proof Hrepr as (Hseg & Htail & Hsize).
  pose proof (seg_NoDup _ _ _ (heap_ok_null _ Hok) Hseg) as Hnd.
  pose proof (seg_length_bound _ _ _ Hok Hseg) as Hlen.
  apply NoDup_app in Hnd as (Hnd1 & Hd & Hnd2).
  apply NoDup_cons in Hnd2 as [Hnode2 Hnd2].
  assert (Hnode1 : node ∉ l1).
  { intros Hin. apply (Hd _ Hin). apply list_elem_of_here. }
  pose proof Hseg as (m & Hseg1 & (-> & nd & Hnode & Hseg2))%seg_app.
  assert (Hnext : next nd = NULL ↔ l2 = []).
  { destruct l2 as [|n2 l2]; cbn in Hseg2; [done|].
    destruct Hseg2 as (-> & n2d & Hn2 & _). split; [|done].
    intros E. rewrite E in Hn2. apply Hok in Hn2. unfold NULL in Hn2. lia. }
  assert (Hsz : wrap (size l - 1) = Z.of_nat (length (l1 ++ l2))).
  { rewrite Hsize, !length_app in *. cbn [length] in *.
    rewrite wrap_small; lia. }
  assert (Hcont : contents h (l1 ++ node :: l2)
                  = contents h l1 ++ data nd :: contents h l2).
  { by rewrite contents_app, (contents_cons _ _ _ _ Hnode). }
  exists nd. unfold unlinkn. rewrite (load_node_Some _ _ _ Hnode). step.
  destruct (decide (l1 = [])) as [->|Hne].
  - cbn [last default app] in *. change (NULL =? NULL) with true.
    cbn [negb]. step. rewrite (load_node_Some _ _ _ Hnode). step.
    eexists _, _. split; [done|]. split; [reflexivity|].
    split; [by apply heap_ok_delete|]. split; [|split; [|split; [|split]]].
    + unfold repr, free_node.
      split; [|split].
      * destruct (next nd =? NULL); cbn [head set_size set_tail set_head app].
        all: by apply seg_delete_frame.
      * destruct (next nd =? NULL) eqn:E; cbn [tail set_size set_tail set_head].
        -- apply Z.eqb_eq, Hnext in E. by subst l2.
        -- apply Z.eqb_neq in E. rewrite Htail, last_cons_default.
           destruct l2 as [|n2 l2]; [by destruct E; apply Hnext|].
           cbn [app]. by rewrite !last_cons_default.
      * destruct (next nd =? NULL); cbn [size set_size set_tail set_head];
          done.
    + rewrite contents_nil, app_nil_l. apply contents_agree.
      intros q Hq. unfold free_node. rewrite lookup_delete_ne; [done|].
      intros <-. done.
    + done.
    + unfold free_node. apply lookup_delete_eq.
    + intros q _ Hq. unfold free_node. by rewrite lookup_delete_ne.
  - destruct (exists_last Hne) as (l0 & prev & ->).
    rewrite last_snoc_default in *.
    apply seg_app in Hseg1 as (m & Hseg0 & (-> & pd & Hprev & Hpn)).
    cbn [seg] in Hpn.
    assert (Hprev_nn : prev ≠ NULL).
    { apply Hok in Hprev. unfold NULL. lia. }
    replace (prev =? NULL) with false by (symmetry; by apply Z.eqb_neq).
    cbn [negb]. rewrite (store_next_Some _ _ _ _ Hprev). step.
    set (h1 := <[prev := mkNode (data pd) (next nd)]> h).
    assert (Hpnode : prev ≠ node).
    { intros ->. apply Hnode1. apply elem_of_app. right.
      apply list_elem_of_here. }
    assert (Hnode1' : h1 !! node = Some nd)
      by (unfold h1; by rewrite lookup_insert_ne).
    rewrite (load_node_Some _ _ _ Hnode1'). step.
    assert (Hok1 : heap_ok h1) by by eapply heap_ok_update.
    apply NoDup_app in Hnd1 as (Hnd0 & Hd0 & _).
    assert (Hprev0 : prev ∉ l0).
    { intros Hin. apply (Hd0 _ Hin). apply list_elem_of_here. }
    assert (Hprev2 : prev ∉ l2).
    { intros Hin. apply (Hd prev).
      - apply elem_of_app. right. apply list_elem_of_here.
      - by apply list_elem_of_further. }
    assert (Hnode0 : node ∉ l0).
    { intros Hin. apply Hnode1. apply elem_of_app. by left. }
    eexists _, _. split; [done|]. split; [reflexivity|].
    split; [by apply heap_ok_delete|]. split; [|split; [|split; [|split]]].
    + unfold repr, free_node.
      split; [|split].
      * assert (Hs : seg (delete node h1) (head l) ((l0 ++ [prev]) ++ l2) NULL).
        { rewrite <- app_assoc. apply seg_app. exists prev. split.
          - apply seg_delete_frame; [|done]. unfold h1.
            by apply seg_insert_frame.
          - cbn [app seg]. split; [done|].
            exists (mkNode (data pd) (next nd)). split.
            + rewrite lookup_delete_ne by done. apply lookup_insert_eq.
            + cbn [next]. apply seg_delete_frame; [|done]. unfold h1.
              by apply seg_insert_frame. }
        destruct (next nd =? NULL); cbn [head set_size set_tail set_head].
        all: done.
      * destruct (next nd =? NULL) eqn:E; cbn [tail set_size set_tail set_head].
        -- apply Z.eqb_eq, Hnext in E. subst l2.
           by rewrite app_nil_r, last_snoc_default.
        -- apply Z.eqb_neq in E. rewrite Htail.
           destruct l2 as [|n2 l2]; [by destruct E; apply Hnext|].
           rewrite !last_app_cons_default, !last_cons_default. done.
      * destruct (next nd =? NULL); cbn [size set_size set_tail set_head];
          done.
    + rewrite <- contents_app. apply contents_agree. intros q Hq.
      unfold free_node. rewrite lookup_delete_ne.
      2:{ intros <-. apply elem_of_app in Hq as [Hq|Hq]; done. }
      unfold h1. rewrite lookup_insert. case_decide as E; [|done].
      subst q. by rewrite Hprev.
    + done.
    + unfold free_node. apply lookup_delete_eq.
    + intros q Hq1 Hq. unfold free_node, h1.
      rewrite lookup_delete_ne by done. rewrite lookup_insert_ne; [done|].
      intros <-. apply Hq1. apply elem_of_app. right. apply list_elem_of_here.
Qed.

(** *** remove_at and remove_first *)
Lemma remove_at_spec h l l1 node l2 out :
  heap_ok h → repr h l (l1 ++ node :: l2) →
  ∃ nd h' l', h !! node = Some nd
    ∧ cc_slist_remove_at h l (Z.of_nat (length l1)) out
      = Ret (CC_OK, h', l', store_out_opt out (Some (data nd)))
    ∧ heap_ok h' ∧ repr h' l' (l1 ++ l2)
    ∧ contents h' (l1 ++ l2) = contents h l1 ++ contents h l2.
Proof.
  intros Hok Hrepr.
  destruct (unlinkn_spec _ _ _ _ _ Hok Hrepr)
    as (nd & h' & l' & Hnd & Hun & Hok' & Hrepr' & Hc & _).
  exists nd, h', l'. split; [done|].
  unfold cc_slist_remove_at. rewrite (get_node_at_spec _ _ _ _ _ Hrepr). step.
  destruct (decide (CC_OK ≠ CC_OK)); [done|]. rewrite Hun. step. done.
Qed.

Lemma remove_first_spec h l node l2 out :
  heap_ok h → repr h l (node :: l2) →
  ∃ nd h' l', h !! node = Some nd
    ∧ cc_slist_remove_first h l out
      = Ret (CC_OK, h', l', store_out_opt out (Some (data nd)))
    ∧ heap_ok h' ∧ repr h' l' l2
    ∧ contents h' l2 = contents h l2.
Proof.
  intros Hok Hrepr.
  destruct (unlinkn_spec _ _ [] _ _ Hok Hrepr)
    as (nd & h' & l' & Hnd & Hun & Hok' & Hrepr' & Hc & _).
  exists nd, h', l'. split; [done|].
  unfold cc_slist_remove_first. pose proof Hrepr as (Hseg & _ & Hsize).
  replace (size l =? 0) with false
    by (symmetry; apply Z.eqb_neq; cbn in Hsize; lia).
  destruct Hseg as (Hhead & _). rewrite Hhead.
  cbn [last default] in Hun. rewrite Hun. step. done.
Qed.

Lemma remove_first_empty h l out :
  size l = 0 →
  cc_slist_remove_first h l out = Ret (CC_ERR_VALUE_NOT_FOUND, h, l, out).
Proof. intros H. unfold cc_slist_remove_first. by rewrite H. Qed.

(** *** get_node and remove *)
Lemma get_node_loop_found h e q node l2 nd : ∀ l1 p prev fuel,
  seg h p (l1 ++ node :: l2) q →
  h !! node = Some nd → data nd = e →
  Forall (λ n, ∀ d, h !! n = Some d → data d ≠ e) l1 →
  (∀ n, n ∈ l1 ++ [node] → n ≠ NULL) →
  (length l1 < fuel)%nat →
  get_node_loop fuel h p prev e = Ret (CC_OK, node, default prev (last l1)).
Proof.
  induction l1 as [|a l1 IH]; intros p prev fuel Hseg Hnode He Hall Hnn Hfuel;
    (destruct fuel as [|fuel]; [cbn in Hfuel; lia|]);
    cbn [app seg] in Hseg; destruct Hseg as (-> & ad & Ha & Hs);
    cbn [get_node_loop].
  - replace (node =? NULL) with false.
    2:{ symmetry. apply Z.eqb_neq. apply Hnn. apply list_elem_of_here. }
    rewrite (load_node_Some _ _ _ Ha). step.
    rewrite Hnode in Ha. injection Ha as <-. by rewrite He, Z.eqb_refl.
  - replace (a =? NULL) with false.
    2:{ symmetry. apply Z.eqb_neq. apply Hnn. apply list_elem_of_here. }
    rewrite (load_node_Some _ _ _ Ha). step.
    apply Forall_cons in Hall as [Hae Hall].
    replace (data ad =? e) with false
      by (symmetry; apply Z.eqb_neq; by apply Hae).
    rewrite (IH _ a fuel Hs); try done.
    + by rewrite last_cons_default.
    + intros n Hn. apply Hnn. by apply list_elem_of_further.
    + cbn in Hfuel. lia.
Qed.

Lemma get_node_loop_absent h e : ∀ ns p prev fuel,
  seg h p ns NULL →
  Forall (λ n, ∀ d, h !! n = Some d → data d ≠ e) ns →
  (∀ n, n ∈ ns → n ≠ NULL) →
  (length ns ≤ fuel)%nat →
  get_node_loop fuel h p prev e
  = Ret (CC_ERR_VALUE_NOT_FOUND, NULL, default prev (last ns)).
Proof.
  induction ns as [|a ns IH]; intros p prev fuel Hseg Hall Hnn Hfuel;
    cbn [seg] in Hseg.
  - subst p. by destruct fuel.
  - destruct fuel as [|fuel]; [cbn in Hfuel; lia|].
    destruct Hseg as (-> & ad & Ha & Hs). cbn [get_node_loop].
    replace (a =? NULL) with false.
    2:{ symmetry. apply Z.eqb_neq. apply Hnn. apply list_elem_of_here. }
    rewrite (load_node_Some _ _ _ Ha). step.
    apply Forall_cons in Hall as [Hae Hall].
    replace (data ad =? e) with false
      by (symmetry; apply Z.eqb_neq; by apply Hae).
    rewrite (IH _ a fuel Hs); try done.
    + by rewrite last_cons_default.
    + intros n Hn. apply Hnn. by apply list_elem_of_further.
    + cbn in Hfuel. lia.
Qed.

(** The first node holding [e], if any. *)
Lemma first_match h e p ns q :
  seg h p ns q →
  Forall (λ n, ∀ d, h !! n = Some d → data d ≠ e) ns
  ∨ ∃ l1 node l2 nd, ns = l1 ++ node :: l2 ∧ h !! node = Some nd
      ∧ data nd = e
      ∧ Forall (λ n, ∀ d, h !! n = Some d → data d ≠ e) l1.
Proof.
  revert p. induction ns as [|a ns IH]; intros p; cbn [seg]; [by left|].
  intros (-> & ad & Ha & Hs). destruct (decide (data ad = e)) as [He|He].
  - right. exists [], a, ns, ad. by repeat split.
  - destruct (IH _ Hs) as [Hall|(l1 & node & l2 & nd & -> & Hn & Hd & Hall)].
    + left. apply Forall_cons. split; [|done]. intros d Hd. congruence.
    + right. exists (a :: l1), node, l2, nd. repeat split; try done.
      apply Forall_cons. split; [|done]. intros d Hd'. congruence.
Qed.

Lemma remove_spec h l ns e out fuel :
  heap_ok h → repr h l ns → (length ns ≤ fuel)%nat →
  ((e ∉ contents h ns)
   ∧ cc_slist_remove fuel h l e out = Ret (CC_ERR_VALUE_NOT_FOUND, h, l, out))
  ∨ (∃ l1 node l2 h' l', ns = l1 ++ node :: l2
      ∧ (e ∉ contents h l1)
      ∧ cc_slist_remove fuel h l e out
        = Ret (CC_OK, h', l', store_out_opt out (Some e))
      ∧ heap_ok h' ∧ repr h' l' (l1 ++ l2)
      ∧ contents h (l1 ++ node :: l2) = contents h l1 ++ e :: contents h l2
      ∧ contents h' (l1 ++ l2) = contents h l1 ++ contents h l2).
Proof.
  intros Hok Hrepr Hfuel. pose proof Hrepr as (Hseg & _ & _).
  assert (Hnn : ∀ n, n ∈ ns → n ≠ NULL)
    by (intros n; by eapply seg_not_null).
  assert (Hnotin : ∀ ms, Forall (λ n, ∀ d, h !! n = Some d → data d ≠ e) ms →
            e ∉ contents h ms).
  { intros ms Hall Hin. unfold contents in Hin.
    apply list_elem_of_omap in Hin as (n & Hn & Hdn).
    rewrite Forall_forall in Hall.
    destruct (h !! n) as [d|] eqn:E; [|done]. injection Hdn as Hdn.
    by eapply Hall. }
  unfold cc_slist_remove, get_node.
  destruct (first_match _ e _ _ _ Hseg) as
    [Hall|(l1 & node & l2 & nd & -> & Hn & Hd & Hall)].
  - left. split; [by apply Hnotin|].
    rewrite (get_node_loop_absent _ _ _ _ _ _ Hseg Hall Hnn Hfuel). step.
    destruct (decide (CC_ERR_VALUE_NOT_FOUND ≠ CC_OK)) as [|Hn]; [done|].
    by destruct Hn.
  - right. exists l1, node, l2.
    destruct (unlinkn_spec _ _ _ _ _ Hok Hrepr)
      as (nd' & h' & l' & Hnd' & Hun & Hok' & Hrepr' & Hc & Hc0 & _).
    rewrite Hn in Hnd'. injection Hnd' as <-.
    exists h', l'. split; [done|]. split; [by apply Hnotin|].
    rewrite (get_node_loop_found _ _ _ _ _ _ _ _ _ _ Hseg Hn Hd Hall).
    + step. destruct (decide (CC_OK ≠ CC_OK)); [done|]. rewrite Hun. step.
      rewrite Hd in *. done.
    + intros n Hin. apply Hnn. apply elem_of_app in Hin as [Hin|Hin].
      * apply elem_of_app. by left.
      * apply elem_of_app. right. apply list_elem_of_singleton in Hin as ->.
        apply list_elem_of_here.
    + rewrite length_app in Hfuel. cbn in Hfuel. lia.
Qed.

(** *** unlinkn_all *)
Lemma unlinkn_all_loop_spec cb : ∀ ns h l n fuel,
  heap_ok h → seg h n ns NULL →
  Z.of_nat (length ns) ≤ size l ≤ SIZE_MAX → (length ns ≤ fuel)%nat →
  ∃ h', unlinkn_all_loop fuel h l n cb
        = Ret (h', set_size l (size l - Z.of_nat (length ns)),
               if cb then contents h ns else [])
    ∧ heap_ok h'
    ∧ (∀ q, q ∈ ns → h' !! q = None)
    ∧ (∀ q, q ∉ ns → h' !! q = h !! q).
Proof.
  induction ns as [|a ns IH]; intros h l n fuel Hok Hseg Hsize Hfuel.
  - cbn in Hseg. subst n. exists h. split.
    + destruct fuel; cbn; rewrite Z.sub_0_r; destruct l, cb; done.
    + split; [done|]. split; [by intros q ?%elem_of_nil|done].
  - destruct fuel as [|fuel]; [cbn in Hfuel; lia|].
    pose proof (seg_NoDup _ _ _ (heap_ok_null _ Hok) Hseg) as Hnd.
    apply NoDup_cons in Hnd as [Ha Hnd].
    destruct Hseg as (-> & ad & Had & Hs). cbn [unlinkn_all_loop].
    replace (a =? NULL) with false.
    2:{ symmetry. apply Z.eqb_neq. apply Hok in Had. unfold NULL. lia. }
    rewrite (load_node_Some _ _ _ Had). step.
    cbn [length] in Hsize, Hfuel.
    destruct (IH (free_node h a) (set_size l (wrap (size l - 1)))
                (next ad) fuel) as (h' & Hloop & Hok' & Hfreed & Hframe).
    + by apply heap_ok_delete.
    + by apply seg_delete_frame.
    + cbn [size set_size]. rewrite wrap_small; lia.
    + lia.
    + exists h'. rewrite Hloop. step. split.
      * unfold set_size. cbn [size head tail]. rewrite wrap_small by lia.
        rewrite (contents_cons _ _ _ _ Had).
        assert (Hc : contents (free_node h a) ns = contents h ns).
        { apply contents_agree. intros q Hq. unfold free_node.
          rewrite lookup_delete_ne; [done|]. intros ->. done. }
        rewrite Hc.
        replace (size l - 1 - Z.of_nat (length ns))
          with (size l - Z.of_nat (S (length ns))) by lia.
        by destruct cb.
      * split; [done|]. split.
        -- intros q [->|Hq]%elem_of_cons; [|by apply Hfreed].
           rewrite Hframe by done. apply lookup_delete_eq.
        -- intros q [Hqa Hq]%not_elem_of_cons. rewrite Hframe by done.
           unfold free_node. by rewrite lookup_delete_ne.
Qed.

Lemma remove_all_with_spec h l ns cb fuel :
  heap_ok h → repr h l ns → (length ns ≤ fuel)%nat →
  (ns = [] ∧ remove_all_with fuel h l cb
             = Ret (CC_ERR_VALUE_NOT_FOUND, h, l, []))
  ∨ (ns ≠ [] ∧ ∃ h', remove_all_with fuel h l cb
                     = Ret (CC_OK, h', mkList 0 NULL NULL,
                            if cb then contents h ns else [])
       ∧ heap_ok h'
       ∧ (∀ q, q ∈ ns → h' !! q = None)
       ∧ (∀ q, q ∉ ns → h' !! q = h !! q)).
Proof.
  intros Hok Hrepr Hfuel. pose proof Hrepr as (Hseg & Htail & Hsize).
  pose proof (seg_length_bound _ _ _ Hok Hseg) as Hlen.
  unfold remove_all_with, unlinkn_all.
  destruct (decide (ns = [])) as [->|Hne].
  - left. split; [done|]. change (size l = 0) in Hsize. by rewrite Hsize.
  - right. split; [done|].
    replace (size l =? 0) with false.
    2:{ symmetry. apply Z.eqb_neq. destruct ns; [done|]. cbn in Hsize. lia. }
    destruct (unlinkn_all_loop_spec cb ns h l (head l) fuel)
      as (h' & Hloop & Hok' & Hfreed & Hframe); [done|done|lia|done|].
    exists h'. rewrite Hloop. step. split; [|done].
    unfold set_tail, set_head, set_size. cbn [size head tail].
    by replace (size l - Z.of_nat (length ns)) with 0 by lia.
Qed.

(** *** replace_at and get_at *)
Lemma seg_data_update h p ns q n nd v :
  seg h p ns q → h !! n = Some nd →
  seg (<[n := mkNode v (next nd)]> h) p ns q.
Proof.
  intros Hs Hn. revert p Hs.
  induction ns as [|a ns IH]; intros p; cbn [seg]; [done|].
  intros (-> & ad & Ha & Hs). split; [done|].
  destruct (decide (n = a)) as [->|Hne].
  - exists (mkNode v (next nd)). rewrite lookup_insert_eq. split; [done|].
    cbn [next]. rewrite Hn in Ha. injection Ha as ->. by apply IH.
  - exists ad. rewrite lookup_insert_ne by done. split; [done|]. by apply IH.
Qed.

Lemma replace_at_spec h l l1 node l2 e out :
  heap_ok h → repr h l (l1 ++ node :: l2) →
  ∃ nd h', h !! node = Some nd
    ∧ cc_slist_replace_at h l e (Z.of_nat (length l1)) out
      = Ret (CC_OK, h', l, store_out_opt out (Some (data nd)))
    ∧ heap_ok h' ∧ repr h' l (l1 ++ node :: l2)
    ∧ contents h' (l1 ++ node :: l2)
      = contents h l1 ++ e :: contents h l2.
Proof.
  intros Hok Hrepr. pose proof Hrepr as (Hseg & Htail & Hsize).
  pose proof (seg_NoDup _ _ _ (heap_ok_null _ Hok) Hseg) as Hnd.
  apply NoDup_app in Hnd as (_ & Hd & [Hn2 _]%NoDup_cons).
  assert (Hn1 : node ∉ l1).
  { intros Hin. apply (Hd _ Hin). apply list_elem_of_here. }
  pose proof Hseg as (m & _ & (-> & nd & Hnode & _))%seg_app.
  exists nd. eexists. split; [done|].
  unfold cc_slist_replace_at. rewrite (get_node_at_spec _ _ _ _ _ Hrepr). step.
  destruct (decide (CC_OK ≠ CC_OK)); [done|].
  rewrite (load_node_Some _ _ _ Hnode). step.
  rewrite (store_data_Some _ _ _ _ Hnode). step.
  split; [reflexivity|]. split; [by eapply heap_ok_update|]. split.
  - split; [by apply seg_data_update|done].
  - rewrite contents_app.
    rewrite (contents_cons _ node _ (mkNode e (next nd)))
      by apply lookup_insert_eq.
    cbn [data]. f_equal; [|f_equal]; apply contents_agree; intros q Hq;
      (rewrite lookup_insert_ne; [done|]; intros <-; done).
Qed.

Lemma get_at_spec h l l1 node l2 :
  repr h l (l1 ++ node :: l2) →
  ∃ nd, h !! node = Some nd
    ∧ contents h (l1 ++ node :: l2) !! length l1 = Some (data nd)
    ∧ (∀ c, cc_slist_get_at h l (Z.of_nat (length l1)) (Slot c)
            = Ret (CC_OK, Slot (Some (data nd))))
    ∧ cc_slist_get_at h l (Z.of_nat (length l1)) NullOut = Fault.
Proof.
  intros Hrepr. pose proof Hrepr as (Hseg & _ & _).
  pose proof Hseg as (m & Hseg1 & (-> & nd & Hnode & _))%seg_app.
  exists nd. split; [done|]. split.
  { rewrite contents_app, (contents_cons _ _ _ _ Hnode).
    rewrite <- (contents_length _ _ _ _ Hseg1). by apply list_lookup_middle. }
  unfold cc_slist_get_at. rewrite (get_node_at_spec _ _ _ _ _ Hrepr). step.
  destruct (decide (CC_OK ≠ CC_OK)); [done|].
  rewrite (load_node_Some _ _ _ Hnode). done.
Qed.

Lemma index_out_of_range h l p e i out :
  size l ≤ i →
  cc_slist_add_at h l p e i = Ret (CC_ERR_OUT_OF_RANGE, h, l)
  ∧ cc_slist_remove_at h l i out = Ret (CC_ERR_OUT_OF_RANGE, h, l, out)
  ∧ cc_slist_replace_at h l e i out = Ret (CC_ERR_OUT_OF_RANGE, h, l, out)
  ∧ cc_slist_get_at h l i out = Ret (CC_ERR_OUT_OF_RANGE, out).
Proof.
  intros Hi. unfold cc_slist_add_at, cc_slist_remove_at, cc_slist_replace_at,
    cc_slist_get_at. rewrite (get_node_at_out_of_range _ _ _ Hi). step.
  destruct (decide (CC_ERR_OUT_OF_RANGE ≠ CC_OK)) as [|Hn]; [|by destruct Hn].
  done.
Qed.

(** *** splice *)
Lemma splice_spec h a b na nb :
  heap_ok h → repr h a na → repr h b nb → (∀ n, n ∈ na → n ∉ nb) →
  ∃ h' a', cc_slist_splice h a b
           = Ret (CC_OK, h', a', mkList 0 NULL NULL)
    ∧ heap_ok h' ∧ repr h' a' (na ++ nb)
    ∧ contents h' (na ++ nb) = contents h na ++ contents h nb
    ∧ size a' = size a + size b
    ∧ (∀ q, q ∉ na → h' !! q = h !! q).
Proof.
  intros Hok Ha Hb Hdisj. pose proof Ha as (Hsa & Hta & Hza).
  pose proof Hb as (Hsb & Htb & Hzb).
  pose proof (seg_NoDup _ _ _ (heap_ok_null _ Hok) Hsa) as Hnda.
  unfold cc_slist_splice.
  destruct (decide (nb = [])) as [->|Hnb].
  { apply repr_nil in Hb. subst b. cbn [size Z.eqb].
    exists h, a. rewrite app_nil_r, contents_nil, app_nil_r.
    split; [done|]. split; [done|]. split; [done|]. split; [done|].
    split; [lia|done]. }
  replace (size b =? 0) with false.
  2:{ symmetry. apply Z.eqb_neq. destruct nb; [done|]. cbn in Hzb. lia. }
  destruct (decide (na = [])) as [->|Hna].
  - apply repr_nil in Ha. subst a. cbn [size Z.eqb]. step.
    pose proof (seg_length_bound _ _ _ Hok Hsb) as Hlen.
    eexists _, _. split; [|split; [done|]].
    { cbn [size set_size set_tail set_head]. rewrite Z.add_0_l.
      rewrite wrap_small by lia. reflexivity. }
    cbn [app]. rewrite contents_nil. split; [|done].
    split; [done|]. split; [done|].
    cbn [size set_size set_tail set_head]. lia.
  - replace (size a =? 0) with false.
    2:{ symmetry. apply Z.eqb_neq. destruct na; [done|]. cbn in Hza. lia. }
    destruct (repr_snoc _ _ _ Ha Hna) as (na0 & Hna0 & Hseg0 & nt & Ht & Hnt).
    rewrite (store_next_Some _ _ _ _ Ht). step.
    set (h1 := <[tail a := mkNode (data nt) (head b)]> h).
    assert (Hok1 : heap_ok h1) by by eapply heap_ok_update.
    assert (Ht0 : tail a ∉ na0).
    { rewrite Hna0 in Hnda. apply NoDup_app in Hnda as (_ & Hd & _).
      intros Hin. apply (Hd _ Hin). apply list_elem_of_here. }
    assert (Htb' : tail a ∉ nb).
    { apply Hdisj. rewrite Hna0. apply elem_of_app. right.
      apply list_elem_of_here. }
    assert (Hseg1 : seg h1 (head a) (na ++ nb) NULL).
    { rewrite Hna0, <- app_assoc. apply seg_app. exists (tail a). split.
      - by apply seg_insert_frame.
      - cbn [app seg]. split; [done|].
        exists (mkNode (data nt) (head b)).
        split; [apply lookup_insert_eq|]. by apply seg_insert_frame. }
    pose proof (seg_length_bound _ _ _ Hok1 Hseg1) as Hlen.
    rewrite length_app in Hlen.
    eexists _, _. split; [|split; [done|]].
    { cbn [size set_size set_tail set_head].
      rewrite wrap_small by lia. reflexivity. }
    split; [|split; [|split]].
    + split; [done|]. cbn [tail size set_size set_tail set_head]. split.
      * rewrite Htb. destruct nb as [|n nb]; [done|].
        by rewrite last_app_cons_default.
      * rewrite length_app. lia.
    + rewrite <- contents_app. apply contents_agree. intros q Hq.
      unfold h1. rewrite lookup_insert. case_decide as E; [|done].
      subst q. by rewrite Ht.
    + cbn [size set_size set_tail set_head]. done.
    + intros q Hq. unfold h1. rewrite lookup_insert_ne; [done|].
      intros <-. apply Hq. rewrite Hna0. apply elem_of_app. right.
      apply list_elem_of_here.
Qed.

(** *** reverse *)
Lemma slist_reverse_loop_spec : ∀ rest done h prev flip fuel,
  heap_ok h → seg h flip rest NULL → seg h prev done NULL →
  (∀ n, n ∈ rest → n ∉ done) → (length rest ≤ fuel)%nat →
  ∃ h' p', reverse_loop fuel h prev flip = Ret (h', p')
    ∧ heap_ok h' ∧ seg h' p' (rev rest ++ done) NULL
    ∧ (∀ q, data <$> h' !! q = data <$> h !! q)
    ∧ (∀ q, q ∉ rest → h' !! q = h !! q).
Proof.
  induction rest as [|n rest IH];
    intros done h prev flip fuel Hok Hrest Hdone Hdisj Hfuel.
  - cbn in Hrest. subst flip. exists h, prev.
    split; [by destruct fuel|]. done.
  - destruct fuel as [|fuel]; [cbn in Hfuel; lia|].
    pose proof (seg_NoDup _ _ _ (heap_ok_null _ Hok) Hrest) as Hnd.
    apply NoDup_cons in Hnd as [Hn Hnd].
    destruct Hrest as (-> & nd & Hnode & Hrest). cbn [reverse_loop].
    replace (n =? NULL) with false.
    2:{ symmetry. apply Z.eqb_neq. apply Hok in Hnode. unfold NULL. lia. }
    rewrite (load_node_Some _ _ _ Hnode). step.
    rewrite (store_next_Some _ _ _ _ Hnode). step.
    set (h1 := <[n := mkNode (data nd) prev]> h).
    assert (Hnd' : n ∉ done) by (apply Hdisj, list_elem_of_here).
    destruct (IH (n :: done) h1 n (next nd) fuel)
      as (h' & p' & Hloop & Hok' & Hseg' & Hdata & Hframe).
    + by eapply heap_ok_update.
    + by apply seg_insert_frame.
    + cbn [seg]. split; [done|]. exists (mkNode (data nd) prev).
      split; [apply lookup_insert_eq|]. by apply seg_insert_frame.
    + intros m Hm [->|Hmd]%elem_of_cons; [done|].
      by apply (Hdisj m); [apply list_elem_of_further|].
    + cbn in Hfuel. lia.
    + exists h', p'. split; [done|]. split; [done|]. split; [|split].
      * cbn [rev]. by rewrite <- app_assoc.
      * intros q. rewrite Hdata. unfold h1. rewrite lookup_insert.
        case_decide as E; [|done]. subst q. by rewrite Hnode.
      * intros q [Hqn Hq]%not_elem_of_cons. rewrite Hframe by done.
        unfold h1. by rewrite lookup_insert_ne.
Qed.

Lemma contents_rev h p ns q :
  seg h p ns q → contents h (rev ns) = rev (contents h ns).
Proof.
  revert p. induction ns as [|n ns IH]; intros p; cbn [seg rev]; [done|].
  intros (-> & nd & Hn & Hs). rewrite contents_app, (IH _ Hs).
  rewrite !(contents_cons _ _ _ _ Hn). done.
Qed.

Lemma last_rev_default (ns : list Z) d :
  default d (last (rev ns)) = hd d ns.
Proof.
  destruct ns as [|n ns]; [done|]. cbn [rev hd]. by rewrite last_snoc.
Qed.

Lemma hd_rev_default (ns : list Z) d :
  hd d (rev ns) = default d (last ns).
Proof.
  rewrite <- (rev_involutive ns) at 2. by rewrite last_rev_default.
Qed.

Lemma slist_reverse_spec h l ns fuel :
  heap_ok h → repr h l ns → (length ns ≤ fuel)%nat →
  ∃ h' l', cc_slist_reverse fuel h l = Ret (h', l')
    ∧ heap_ok h' ∧ repr h' l' (rev ns)
    ∧ contents h' (rev ns) = rev (contents h ns)
    ∧ tail l' = head l
    ∧ (∀ q, q ∉ ns → h' !! q = h !! q).
Proof.
  intros Hok Hrepr Hfuel. pose proof Hrepr as (Hseg & Htail & Hsize).
  pose proof (seg_head _ _ _ _ Hseg) as Hhead.
  unfold cc_slist_reverse.
  destruct ns as [|n1 [|n2 ns]].
  - change (size l = 0) in Hsize. rewrite Hsize. cbn [Z.eqb orb].
    exists h, l. split; [done|]. split; [done|]. split; [exact Hrepr|].
    split; [by eapply contents_rev|]. split; [|done].
    cbn in Htail, Hhead. congruence.
  - change (size l = 1) in Hsize. rewrite Hsize. cbn [Z.eqb orb].
    exists h, l. split; [done|]. split; [done|]. split; [exact Hrepr|].
    split; [by eapply contents_rev|]. split; [|done].
    cbn in Htail, Hhead. congruence.
  - replace (size l =? 0) with false
      by (symmetry; apply Z.eqb_neq; cbn in Hsize; lia).
    replace (size l =? 1) with false
      by (symmetry; apply Z.eqb_neq; cbn in Hsize; lia).
    cbn [orb].
    destruct (slist_reverse_loop_spec (n1 :: n2 :: ns) [] h NULL (head l) fuel)
      as (h' & p' & Hloop & Hok' & Hseg' & Hdata & Hframe);
      [done|done|done|by intros ? _ ?%elem_of_nil|done|].
    rewrite app_nil_r in Hseg'. rewrite Hloop. step.
    eexists _, _. split; [reflexivity|]. split; [done|].
    split; [|split; [|split]].
    + split; [done|]. cbn [tail size set_tail set_head]. split.
      * by rewrite last_rev_default.
      * by rewrite length_rev.
    + rewrite <- (contents_rev _ _ _ _ Hseg). apply contents_agree.
      intros q _. apply Hdata.
    + done.
    + done.
Qed.

(** The record of a list is determined by its nodes. *)
Lemma repr_unique h h' l l' ns :
  repr h l ns → repr h' l' ns → l = l'.
Proof.
  intros (Hs & Ht & Hz) (Hs' & Ht' & Hz').
  apply seg_head in Hs, Hs'. destruct l, l'; cbn in *. congruence.
Qed.

Lemma reverse_twice h l ns fuel :
  heap_ok h → repr h l ns → (length ns ≤ fuel)%nat →
  ∃ h1 l1 h2, cc_slist_reverse fuel h l = Ret (h1, l1)
    ∧ cc_slist_reverse fuel h1 l1 = Ret (h2, l)
    ∧ heap_ok h2 ∧ repr h2 l ns
    ∧ contents h1 (rev ns) = rev (contents h ns)
    ∧ contents h2 ns = contents h ns
    ∧ tail l1 = head l.
Proof.
  intros Hok Hrepr Hfuel.
  destruct (slist_reverse_spec h l ns fuel) as (h1 & l1 & Hr1 & Hok1 & Hrepr1 & Hc1 & Ht1 & _);
    [done..|].
  destruct (slist_reverse_spec h1 l1 (rev ns) fuel)
    as (h2 & l2 & Hr2 & Hok2 & Hrepr2 & Hc2 & _);
    [done|done|by rewrite length_rev|].
  rewrite rev_involutive in Hrepr2, Hc2.
  pose proof (repr_unique _ _ _ _ _ Hrepr2 Hrepr) as ->.
  exists h1, l1, h2. rewrite Hc2, Hc1, rev_involutive. done.
Qed.

(** *** The invariant of the data model *)

Lemma follow_seg h q : ∀ ns p, seg h p ns q → follow (length ns) h p = Some q.
Proof.
  induction ns as [|n ns IH]; intros p; cbn [seg length follow].
  - by intros ->.
  - intros (-> & nd & Hn & Hs). rewrite Hn. cbn. by apply IH.
Qed.

Lemma follow_seg_lookup h q : ∀ ns p k n,
  seg h p ns q → ns !! k = Some n → follow k h p = Some n.
Proof.
  induction ns as [|a ns IH]; intros p k n; [done|]. cbn [seg].
  intros (-> & nd & Ha & Hs). destruct k as [|k]; cbn.
  - by intros [= ->].
  - intros Hk. rewrite Ha. cbn. by eapply IH.
Qed.

Lemma follow_to_seg h q : ∀ k p,
  follow k h p = Some q → ∃ ns, length ns = k ∧ seg h p ns q.
Proof.
  induction k as [|k IH]; intros p; cbn [follow].
  - intros [= ->]. by exists [].
  - destruct (h !! p) as [nd|] eqn:Hp; [|done]. cbn.
    intros (ns & Hlen & Hs)%IH. exists (p :: ns). cbn. split; [by f_equal|].
    split; [done|]. by exists nd.
Qed.

Lemma repr_structural h l ns :
  heap_ok h → repr h l ns → structural_invariant h l.
Proof.
  intros Hok Hrepr. pose proof Hrepr as (Hseg & Htail & Hsize).
  pose proof (seg_NoDup _ _ _ (heap_ok_null _ Hok) Hseg) as Hnd.
  split; [lia|]. split.
  - split.
    + intros H0. rewrite (repr_size_0 _ _ _ Hrepr H0) in *.
      cbn in Hseg, Htail. done.
    + intros [Hh _]. destruct ns as [|n ns]; [done|].
      destruct Hseg as (Hn & nd & Hnd' & _). apply Hok in Hnd'.
      unfold NULL in *. lia.
  - intros Hpos. assert (Hne : ns ≠ []) by (intros ->; cbn in Hsize; lia).
    destruct (repr_snoc _ _ _ Hrepr Hne) as (ns0 & -> & Hseg0 & Hlast).
    rewrite length_app in Hsize. cbn [length] in Hsize.
    replace (Z.to_nat (size l - 1)) with (length ns0) by lia.
    split; [by apply follow_seg|]. split; [|done].
    intros k Hk.
    destruct (lookup_lt_is_Some_2 ns0 k Hk) as [n Hn].
    rewrite (follow_seg_lookup _ _ _ _ _ _ Hseg0 Hn). intros [= ->].
    apply NoDup_app in Hnd as (_ & Hd & _).
    apply (Hd (tail l)); [by eapply list_elem_of_lookup_2|].
    apply list_elem_of_here.
Qed.

Lemma structural_repr h l :
  structural_invariant h l → ∃ ns, repr h l ns.
Proof.
  intros (Hnn & Hzero & Hpos). destruct (decide (size l = 0)) as [H0|H0].
  - exists []. destruct (proj1 Hzero H0) as [Hh Ht]. by split.
  - destruct Hpos as (Hfollow & _ & nd & Ht & Hnext); [lia|].
    apply follow_to_seg in Hfollow as (ns0 & Hlen & Hseg0).
    exists (ns0 ++ [tail l]). split; [|split].
    + apply seg_app. exists (tail l). split; [done|]. cbn. split; [done|].
      by exists nd.
    + by rewrite last_snoc.
    + rewrite length_app. cbn [length]. lia.
Qed.

(** *** copy_shallow *)
Lemma copy_loop_ok fuel : ∀ ns ps h copy cs node,
  heap_ok h → seg h node ns NULL → repr h copy cs →
  (∀ n, n ∈ ns → n ∉ cs) →
  (length ns ≤ length ps)%nat →
  NoDup (take (length ns) ps) →
  (∀ p, p ∈ take (length ns) ps → h !! p = None ∧ 0 < p ≤ SIZE_MAX) →
  ∃ h' copy', copy_loop ps fuel h copy node = Ret (CC_OK, h', Some copy')
    ∧ heap_ok h'
    ∧ repr h' copy' (cs ++ take (length ns) ps)
    ∧ contents h' (cs ++ take (length ns) ps)
      = contents h cs ++ contents h ns
    ∧ (∀ q, q ∉ cs → q ∉ take (length ns) ps → h' !! q = h !! q).
Proof.
  induction ns as [|n ns IH];
    intros ps h copy cs node Hok Hseg Hcopy Hdisj Hlen Hnd Hfresh.
  - cbn in Hseg. subst node. exists h, copy. cbn [length take].
    rewrite app_nil_r, contents_nil, app_nil_r.
    split; [by destruct ps|]. done.
  - destruct ps as [|p ps]; [cbn in Hlen; lia|].
    cbn [length take] in *. apply NoDup_cons in Hnd as [Hp Hnd].
    destruct (Hfresh p (list_elem_of_here _ _)) as [Hpf Hpr].
    destruct Hseg as (-> & nd & Hn & Hs). cbn [copy_loop].
    replace (n =? NULL) with false.
    2:{ symmetry. apply Z.eqb_neq. apply Hok in Hn. unfold NULL. lia. }
    rewrite (load_node_Some _ _ _ Hn). step.
    destruct (add_last_spec h copy cs p (data nd) Hok Hcopy Hpf Hpr)
      as (h1 & copy1 & Hadd & Hok1 & Hcopy1 & Hc1 & Hframe1).
    rewrite Hadd. step. destruct (decide (CC_OK ≠ CC_OK)); [done|].
    assert (Hsame : ∀ q, q ∈ n :: ns → h1 !! q = h !! q).
    { intros q Hq. apply Hframe1; [|by apply Hdisj].
      intros ->. destruct (seg_in_heap h n (n :: ns) NULL p) as [? ?];
        [|done|congruence].
      cbn [seg]. split; [done|]. by exists nd. }
    destruct (IH ps h1 copy1 (cs ++ [p]) (next nd))
      as (h' & copy' & Hloop & Hok' & Hrepr' & Hc' & Hframe').
    + done.
    + eapply seg_agree; [done|]. intros q Hq. apply Hsame.
      by apply list_elem_of_further.
    + done.
    + intros q Hq [Hqc|Hqp]%elem_of_app.
      * apply (Hdisj q); [by apply list_elem_of_further|done].
      * apply list_elem_of_singleton in Hqp as ->.
        destruct (seg_in_heap _ _ _ _ _ Hs Hq) as [? ?]. congruence.
    + lia.
    + done.
    + intros q Hq. split; [|by apply Hfresh, list_elem_of_further].
      rewrite Hframe1.
      * by apply Hfresh, list_elem_of_further.
      * intros ->. done.
      * intros Hqc. destruct Hcopy as (Hsc & _).
        destruct (seg_in_heap _ _ _ _ _ Hsc Hqc) as [? Hqh].
        destruct (Hfresh q (list_elem_of_further _ _ _ Hq)). congruence.
    + exists h', copy'. rewrite <- app_assoc in Hrepr', Hc'.
      cbn [app] in *. split; [done|]. split; [done|]. split; [done|].
      split.
      * rewrite Hc', Hc1, <- app_assoc. f_equal.
        rewrite (contents_cons _ _ _ _ Hn). cbn [app]. f_equal.
        apply contents_agree. intros q Hq. rewrite Hsame; [done|].
        by apply list_elem_of_further.
      * intros q Hqc [Hqp Hq]%not_elem_of_cons.
        rewrite Hframe'.
        -- by apply Hframe1.
        -- intros [?|?%list_elem_of_singleton]%elem_of_app; done.
        -- done.
Qed.

Lemma copy_shallow_ok h l ns ps fuel :
  heap_ok h → repr h l ns → (length ns ≤ length ps)%nat →
  NoDup (take (length ns) ps) →
  (∀ p, p ∈ take (length ns) ps → h !! p = None ∧ 0 < p ≤ SIZE_MAX) →
  ∃ h' copy, cc_slist_copy_shallow true ps fuel h l
             = Ret (CC_OK, h', Some copy)
    ∧ heap_ok h'
    ∧ repr h' copy (take (length ns) ps)
    ∧ contents h' (take (length ns) ps) = contents h ns
    ∧ repr h' l ns
    ∧ contents h' ns = contents h ns.
Proof.
  intros Hok Hrepr Hlen Hnd Hfresh. pose proof Hrepr as (Hseg & Ht & Hz).
  destruct (copy_loop_ok fuel ns ps h (mkList 0 NULL NULL) [] (head l))
    as (h' & copy & Hloop & Hok' & Hrepr' & Hc' & Hframe');
    [done|done|by apply repr_nil|by intros ? _ ?%elem_of_nil|done..|].
  exists h', copy. cbn [app] in *. rewrite contents_nil, app_nil_l in Hc'.
  assert (Hsame : ∀ q, q ∈ ns → h' !! q = h !! q).
  { intros q Hq. apply Hframe'; [by intros ?%elem_of_nil|].
    intros Hqp. destruct (seg_in_heap _ _ _ _ _ Hseg Hq) as [? ?].
    destruct (Hfresh q Hqp). congruence. }
  split; [done|]. split; [done|]. split; [done|]. split; [done|]. split.
  - split; [|done]. by eapply seg_agree.
  - apply contents_agree. intros q Hq. by rewrite Hsame.
Qed.

Lemma copy_shallow_alloc_failure h l ps fuel :
  cc_slist_copy_shallow false ps fuel h l = Ret (CC_ERR_ALLOC, h, None).
Proof. done. Qed.

Lemma remove_all_frees h l ns fuel :
  heap_ok h → repr h l ns → (length ns ≤ fuel)%nat →
  ∃ st h' l', cc_slist_remove_all fuel h l = Ret (st, h', l')
    ∧ heap_ok h'
    ∧ (∀ q, q ∈ ns → h' !! q = None)
    ∧ (∀ q, q ∉ ns → h' !! q = h !! q).
Proof.
  intros Hok Hrepr Hfuel. unfold cc_slist_remove_all.
  destruct (remove_all_with_spec h l ns false fuel Hok Hrepr Hfuel)
    as [[-> Hr]|(_ & h' & Hr & Hok' & Hfreed & Hframe)]; rewrite Hr; step.
  - eexists _, _, _. split; [done|]. split; [done|].
    split; [by intros ? ?%elem_of_nil|done].
  - eexists _, _, _. done.
Qed.

(** A failing allocation in the middle of the copy: the nodes made so far
    are released again. *)
Lemma copy_loop_fail fuel rest : ∀ good ns h copy cs node,
  heap_ok h → seg h node ns NULL → repr h copy cs →
  (∀ n, n ∈ ns → n ∉ cs) →
  (length good < length ns)%nat → (length cs + length good ≤ fuel)%nat →
  NoDup good →
  (∀ p, p ∈ good → h !! p = None ∧ 0 < p ≤ SIZE_MAX) →
  ∃ h', copy_loop (good ++ NULL :: rest) fuel h copy node
        = Ret (CC_ERR_ALLOC, h', None)
    ∧ heap_ok h'
    ∧ (∀ q, q ∈ cs ++ good → h' !! q = None)
    ∧ (∀ q, q ∉ cs ++ good → h' !! q = h !! q).
Proof.
  induction good as [|p good IH];
    intros ns h copy cs node Hok Hseg Hcopy Hdisj Hlen Hfuel Hnd Hfresh;
    (destruct ns as [|n ns]; [cbn in Hlen; lia|]);
    destruct Hseg as (-> & nd & Hn & Hs); cbn [app copy_loop];
    (replace (n =? NULL) with false
       by (symmetry; apply Z.eqb_neq; apply Hok in Hn; unfold NULL; lia));
    rewrite (load_node_Some _ _ _ Hn); step.
  - destruct (add_alloc_failure h copy (data nd)) as [_ ->]. step.
    destruct (decide (CC_ERR_ALLOC ≠ CC_OK)) as [_|Hc]; [|by destruct Hc].
    destruct (remove_all_frees h copy cs fuel)
      as (st & h' & l' & Hr & Hok' & Hfreed & Hframe);
      [done|done|cbn in Hfuel; lia|].
    rewrite Hr. step. exists h'. rewrite app_nil_r. done.
  - apply NoDup_cons in Hnd as [Hp Hnd].
    destruct (Hfresh p (list_elem_of_here _ _)) as [Hpf Hpr].
    destruct (add_last_spec h copy cs p (data nd) Hok Hcopy Hpf Hpr)
      as (h1 & copy1 & Hadd & Hok1 & Hcopy1 & Hc1 & Hframe1).
    rewrite Hadd. step. destruct (decide (CC_OK ≠ CC_OK)); [done|].
    assert (Hsame : ∀ q, q ∈ n :: ns → h1 !! q = h !! q).
    { intros q Hq. apply Hframe1; [|by apply Hdisj].
      intros ->. destruct (seg_in_heap h n (n :: ns) NULL p) as [? ?];
        [|done|congruence].
      cbn [seg]. split; [done|]. by exists nd. }
    destruct (IH ns h1 copy1 (cs ++ [p]) (next nd))
      as (h' & Hloop & Hok' & Hfreed & Hframe').
    + done.
    + eapply seg_agree; [done|]. intros q Hq. apply Hsame.
      by apply list_elem_of_further.
    + done.
    + intros q Hq [Hqc|Hqp]%elem_of_app.
      * apply (Hdisj q); [by apply list_elem_of_further|done].
      * apply list_elem_of_singleton in Hqp as ->.
        destruct (seg_in_heap _ _ _ _ _ Hs Hq) as [? ?]. congruence.
    + cbn in Hlen. lia.
    + rewrite length_app. cbn in *. lia.
    + done.
    + intros q Hq. split; [|by apply Hfresh, list_elem_of_further].
      rewrite Hframe1.
      * by apply Hfresh, list_elem_of_further.
      * intros ->. done.
      * intros Hqc. destruct Hcopy as (Hsc & _).
        destruct (seg_in_heap _ _ _ _ _ Hsc Hqc) as [? Hqh].
        destruct (Hfresh q (list_elem_of_further _ _ _ Hq)). congruence.
    + exists h'. rewrite <- app_assoc in Hfreed, Hframe'. cbn [app] in *.
      split; [done|]. split; [done|]. split; [done|].
      intros q Hq. rewrite (Hframe' q Hq). apply Hframe1.
      * intros ->. apply Hq. apply elem_of_app. right. apply list_elem_of_here.
      * intros Hqc. apply Hq. apply elem_of_app. by left.
Qed.

Lemma copy_shallow_fail h l ns good rest fuel :
  heap_ok h → repr h l ns →
  (length good < length ns)%nat → (length good ≤ fuel)%nat →
  NoDup good →
  (∀ p, p ∈ good → h !! p = None ∧ 0 < p ≤ SIZE_MAX) →
  cc_slist_copy_shallow true (good ++ NULL :: rest) fuel h l
  = Ret (CC_ERR_ALLOC, h, None).
Proof.
  intros Hok Hrepr Hlen Hfuel Hnd Hfresh. pose proof Hrepr as (Hseg & _).
  destruct (copy_loop_fail fuel rest good ns h (mkList 0 NULL NULL) []
              (head l))
    as (h' & Hloop & Hok' & Hfreed & Hframe);
    [done|done|by apply repr_nil|by intros ? _ ?%elem_of_nil|done..|].
  unfold cc_slist_copy_shallow. cbn [cc_slist_new]. rewrite Hloop.
  do 3 f_equal. apply map_eq. intros q. cbn [app] in *.
  destruct (decide (q ∈ good)) as [Hq|Hq].
  - rewrite (Hfreed q Hq). symmetry. by apply Hfresh.
  - by apply Hframe.
Qed.

(** *** The operations on lists in good order *)

Lemma list_ok_repr h l : list_ok h l ↔ heap_ok h ∧ ∃ ns, repr h l ns.
Proof.
  split.
  - intros [Hok Hinv]. split; [done|]. by apply structural_repr.
  - intros [Hok [ns Hrepr]]. split; [done|]. by eapply repr_structural.
Qed.

Lemma heap_ok_empty : heap_ok ∅.
Proof. intros p nd. by rewrite lookup_empty. Qed.

Lemma add_at_alloc_failure h l l1 node l2 e :
  repr h l (l1 ++ node :: l2) →
  cc_slist_add_at h l NULL e (Z.of_nat (length l1)) = Ret (CC_ERR_ALLOC, h, l).
Proof.
  intros Hrepr. unfold cc_slist_add_at.
  rewrite (get_node_at_spec _ _ _ _ _ Hrepr). step.
  by destruct (decide (CC_OK ≠ CC_OK)).
Qed.

Lemma list_ok_add_first h l p e :
  list_ok h l → fresh h p →
  ∃ st h' l', cc_slist_add_first h l p e = Ret (st, h', l') ∧ list_ok h' l'.
Proof.
  intros Hl [->|[Hp Hpr]].
  - destruct (add_alloc_failure h l e) as [-> _]. by eexists _, _, _.
  - apply list_ok_repr in Hl as [Hok [ns Hrepr]].
    destruct (add_first_spec h l ns p e Hok Hrepr Hp Hpr)
      as (h' & l' & -> & Hok' & Hrepr' & _).
    eexists _, _, _. split; [done|]. apply list_ok_repr. eauto.
Qed.

Lemma list_ok_add_last h l p e :
  list_ok h l → fresh h p →
  ∃ st h' l', cc_slist_add_last h l p e = Ret (st, h', l') ∧ list_ok h' l'.
Proof.
  intros Hl [->|[Hp Hpr]].
  - destruct (add_alloc_failure h l e) as [_ ->]. by eexists _, _, _.
  - apply list_ok_repr in Hl as [Hok [ns Hrepr]].
    destruct (add_last_spec h l ns p e Hok Hrepr Hp Hpr)
      as (h' & l' & -> & Hok' & Hrepr' & _).
    eexists _, _, _. split; [done|]. apply list_ok_repr. eauto.
Qed.

Lemma list_ok_add_at h l p e i :
  list_ok h l → fresh h p → 0 ≤ i →
  ∃ st h' l', cc_slist_add_at h l p e i = Ret (st, h', l') ∧ list_ok h' l'.
Proof.
  intros Hl Hp Hi. destruct (Z_lt_le_dec i (size l)) as [Hlt|Hge].
  - pose proof Hl as [Hok [ns Hrepr]]%list_ok_repr.
    pose proof Hrepr as (_ & _ & Hsize).
    destruct (split_at_index ns i) as (l1 & node & l2 & -> & <- & _); [lia|].
    destruct Hp as [->|[Hp Hpr]].
    + rewrite (add_at_alloc_failure _ _ _ _ _ _ Hrepr). by eexists _, _, _.
    + destruct (add_at_spec h l l1 node l2 p e Hok Hrepr Hp Hpr)
        as (h' & l' & -> & Hok' & Hrepr' & _).
      eexists _, _, _. split; [done|]. apply list_ok_repr. eauto.
  - destruct (index_out_of_range h l p e i NullOut Hge) as (-> & _).
    by eexists _, _, _.
Qed.

Lemma list_ok_remove h l fuel e out :
  list_ok h l → size l ≤ Z.of_nat fuel →
  ∃ st h' l' out', cc_slist_remove fuel h l e out = Ret (st, h', l', out')
    ∧ list_ok h' l'.
Proof.
  intros Hl Hfuel. pose proof Hl as [Hok [ns Hrepr]]%list_ok_repr.
  pose proof Hrepr as (_ & _ & Hsize).
  destruct (remove_spec h l ns e out fuel Hok Hrepr ltac:(lia))
    as [[_ ->]|(l1 & node & l2 & h' & l' & _ & _ & -> & Hok' & Hrepr' & _)].
  - by eexists _, _, _, _.
  - eexists _, _, _, _. split; [done|]. apply list_ok_repr. eauto.
Qed.

Lemma list_ok_remove_at h l i out :
  list_ok h l → 0 ≤ i →
  ∃ st h' l' out', cc_slist_remove_at h l i out = Ret (st, h', l', out')
    ∧ list_ok h' l'.
Proof.
  intros Hl Hi. destruct (Z_lt_le_dec i (size l)) as [Hlt|Hge].
  - pose proof Hl as [Hok [ns Hrepr]]%list_ok_repr.
    pose proof Hrepr as (_ & _ & Hsize).
    destruct (split_at_index ns i) as (l1 & node & l2 & -> & <- & _); [lia|].
    destruct (remove_at_spec h l l1 node l2 out Hok Hrepr)
      as (nd & h' & l' & _ & -> & Hok' & Hrepr' & _).
    eexists _, _, _, _. split; [done|]. apply list_ok_repr. eauto.
  - destruct (index_out_of_range h l NULL 0 i out Hge) as (_ & -> & _).
    by eexists _, _, _, _.
Qed.

Lemma list_ok_remove_first h l out :
  list_ok h l →
  ∃ st h' l' out', cc_slist_remove_first h l out = Ret (st, h', l', out')
    ∧ list_ok h' l'.
Proof.
  intros Hl. pose proof Hl as [Hok [ns Hrepr]]%list_ok_repr.
  destruct ns as [|node l2].
  - apply repr_nil in Hrepr as ->. by eexists _, _, _, _.
  - destruct (remove_first_spec h l node l2 out Hok Hrepr)
      as (nd & h' & l' & _ & -> & Hok' & Hrepr' & _).
    eexists _, _, _, _. split; [done|]. apply list_ok_repr. eauto.
Qed.

Lemma list_ok_remove_all_with h l fuel cb :
  list_ok h l → size l ≤ Z.of_nat fuel →
  ∃ st h' l' released,
    remove_all_with fuel h l cb = Ret (st, h', l', released) ∧ list_ok h' l'.
Proof.
  intros Hl Hfuel. pose proof Hl as [Hok [ns Hrepr]]%list_ok_repr.
  pose proof Hrepr as (_ & _ & Hsize).
  destruct (remove_all_with_spec h l ns cb fuel Hok Hrepr ltac:(lia))
    as [[_ ->]|(_ & h' & -> & Hok' & _)].
  - by eexists _, _, _, _.
  - eexists _, _, _, _. split; [done|]. apply list_ok_repr. split; [done|].
    exists []. by apply repr_nil.
Qed.

Lemma list_ok_replace_at h l e i out :
  list_ok h l → 0 ≤ i →
  ∃ st h' out', cc_slist_replace_at h l e i out = Ret (st, h', l, out')
    ∧ list_ok h' l.
Proof.
  intros Hl Hi. destruct (Z_lt_le_dec i (size l)) as [Hlt|Hge].
  - pose proof Hl as [Hok [ns Hrepr]]%list_ok_repr.
    pose proof Hrepr as (_ & _ & Hsize).
    destruct (split_at_index ns i) as (l1 & node & l2 & -> & <- & _); [lia|].
    destruct (replace_at_spec h l l1 node l2 e out Hok Hrepr)
      as (nd & h' & _ & -> & Hok' & Hrepr' & _).
    eexists _, _, _. split; [done|]. apply list_ok_repr. eauto.
  - destruct (index_out_of_range h l NULL e i out Hge) as (_ & _ & -> & _).
    by eexists _, _, _.
Qed.

Lemma list_ok_reverse h l fuel :
  list_ok h l → size l ≤ Z.of_nat fuel →
  ∃ h' l', cc_slist_reverse fuel h l = Ret (h', l') ∧ list_ok h' l'.
Proof.
  intros Hl Hfuel. pose proof Hl as [Hok [ns Hrepr]]%list_ok_repr.
  pose proof Hrepr as (_ & _ & Hsize).
  destruct (slist_reverse_spec h l ns fuel Hok Hrepr ltac:(lia))
    as (h' & l' & -> & Hok' & Hrepr' & _).
  eexists _, _. split; [done|]. apply list_ok_repr. eauto.
Qed.

Lemma list_ok_splice h a b :
  list_ok h a → list_ok h b → disjoint_lists h a b →
  ∃ h' a' b', cc_slist_splice h a b = Ret (CC_OK, h', a', b')
    ∧ list_ok h' a' ∧ list_ok h' b'.
Proof.
  intros [Hok [na Ha]]%list_ok_repr [_ [nb Hb]]%list_ok_repr Hdisj.
  destruct (splice_spec h a b na nb Hok Ha Hb (Hdisj _ _ Ha Hb))
    as (h' & a' & -> & Hok' & Hrepr' & _).
  eexists _, _, _. split; [done|]. split; apply list_ok_repr; eauto.
  split; [done|]. exists []. by apply repr_nil.
Qed.

Lemma list_ok_copy_shallow h l ps fuel :
  list_ok h l → size l ≤ Z.of_nat (length ps) →
  NoDup (take (Z.to_nat (size l)) ps) →
  (∀ p, p ∈ take (Z.to_nat (size l)) ps → h !! p = None ∧ 0 < p ≤ SIZE_MAX) →
  ∃ h' copy, cc_slist_copy_shallow true ps fuel h l = Ret (CC_OK, h', Some copy)
    ∧ list_ok h' l ∧ list_ok h' copy.
Proof.
  intros [Hok [ns Hrepr]]%list_ok_repr Hlen Hnd Hfresh.
  pose proof Hrepr as (_ & _ & Hsize). rewrite Hsize, Nat2Z.id in *.
  destruct (copy_shallow_ok h l ns ps fuel Hok Hrepr ltac:(lia) Hnd Hfresh)
    as (h' & copy & -> & Hok' & Hcopy & _ & Hl & _).
  eexists _, _. split; [done|]. split; apply list_ok_repr; eauto.
Qed.

(** C6. Every operation, run on a list in good order (with enough fuel for
    its loop, and an allocator that returns [NULL] or an unused address),
    returns and leaves the list in good order: empty exactly when head and
    tail are null, and otherwise the tail is reached from the head after
    exactly [size - 1] links and has no successor.  [splice] leaves both
    lists so, [copy_shallow] the source and the copy; when an allocation
    of [copy_shallow] fails, the heap is as it was. *)
Theorem operations_preserve_invariant h l :
  list_ok h l →
  (∀ p e, fresh h p →
     ∃ st h' l', cc_slist_add_first h l p e = Ret (st, h', l') ∧ list_ok h' l')
  ∧ (∀ p e, fresh h p →
       ∃ st h' l', cc_slist_add_last h l p e = Ret (st, h', l') ∧ list_ok h' l')
  ∧ (∀ p e i, fresh h p → 0 ≤ i →
       ∃ st h' l', cc_slist_add_at h l p e i = Ret (st, h', l') ∧ list_ok h' l')
  ∧ (∀ fuel e out, size l ≤ Z.of_nat fuel →
       ∃ st h' l' out', cc_slist_remove fuel h l e out = Ret (st, h', l', out')
         ∧ list_ok h' l')
  ∧ (∀ i out, 0 ≤ i →
       ∃ st h' l' out', cc_slist_remove_at h l i out = Ret (st, h', l', out')
         ∧ list_ok h' l')
  ∧ (∀ out,
       ∃ st h' l' out', cc_slist_remove_first h l out = Ret (st, h', l', out')
         ∧ list_ok h' l')
  ∧ (∀ fuel, size l ≤ Z.of_nat fuel →
       ∃ st h' l', cc_slist_remove_all fuel h l = Ret (st, h', l')
         ∧ list_ok h' l')
  ∧ (∀ fuel, size l ≤ Z.of_nat fuel →
       ∃ st h' l' released,
         cc_slist_remove_all_cb fuel h l = Ret (st, h', l', released)
         ∧ list_ok h' l')
  ∧ (∀ e i out, 0 ≤ i →
       ∃ st h' out', cc_slist_replace_at h l e i out = Ret (st, h', l, out')
         ∧ list_ok h' l)
  ∧ (∀ fuel, size l ≤ Z.of_nat fuel →
       ∃ h' l', cc_slist_reverse fuel h l = Ret (h', l') ∧ list_ok h' l')
  ∧ (∀ b, list_ok h b → disjoint_lists h l b →
       ∃ h' a' b', cc_slist_splice h l b = Ret (CC_OK, h', a', b')
         ∧ list_ok h' a' ∧ list_ok h' b')
  ∧ (∀ ps fuel, size l ≤ Z.of_nat (length ps) →
       NoDup (take (Z.to_nat (size l)) ps) →
       (∀ p, p ∈ take (Z.to_nat (size l)) ps →
          h !! p = None ∧ 0 < p ≤ SIZE_MAX) →
       ∃ h' copy,
         cc_slist_copy_shallow true ps fuel h l = Ret (CC_OK, h', Some copy)
         ∧ list_ok h' l ∧ list_ok h' copy)
  ∧ (∀ ps fuel,
       cc_slist_copy_shallow false ps fuel h l = Ret (CC_ERR_ALLOC, h, None))
  ∧ (∀ good rest fuel, (length good < Z.to_nat (size l))%nat →
       (length good ≤ fuel)%nat → NoDup good →
       (∀ p, p ∈ good → h !! p = None ∧ 0 < p ≤ SIZE_MAX) →
       cc_slist_copy_shallow true (good ++ NULL :: rest) fuel h l
       = Ret (CC_ERR_ALLOC, h, None)).
Proof.
  intros Hl.
  split; [intros; by apply list_ok_add_first|].
  split; [intros; by apply list_ok_add_last|].
  split; [intros; by apply list_ok_add_at|].
  split; [intros; by apply list_ok_remove|].
  split; [intros; by apply list_ok_remove_at|].
  split; [intros; by apply list_ok_remove_first|].
  split.
  { intros fuel Hfuel. unfold cc_slist_remove_all.
    destruct (list_ok_remove_all_with h l fuel false Hl Hfuel)
      as (st & h' & l' & rel & -> & Hl').
    step. by eexists _, _, _. }
  split; [intros; by apply list_ok_remove_all_with|].
  split; [intros; by apply list_ok_replace_at|].
  split; [intros; by apply list_ok_reverse|].
  split; [intros; by apply list_ok_splice|].
  split; [intros; by apply list_ok_copy_shallow|].
  split; [intros; apply copy_shallow_alloc_failure|].
  intros good rest fuel Hlt Hfuel Hnd Hfresh.
  pose proof Hl as [Hok [ns Hrepr]]%list_ok_repr.
  pose proof Hrepr as (_ & _ & Hsize). rewrite Hsize, Nat2Z.id in Hlt.
  by eapply copy_shallow_fail.
Qed.

(** C5. Splicing [b] onto [a], two lists that share no node: [a] then holds
    its own nodes followed by those of [b], with the elements in that order,
    its size is the sum of the two sizes, and [b] is the empty list: size 0,
    head and tail null. *)
Theorem splice_appends h a b na nb :
  heap_ok h → repr h a na → repr h b nb → (∀ n, n ∈ na → n ∉ nb) →
  ∃ h' a' b', cc_slist_splice h a b = Ret (CC_OK, h', a', b')
    ∧ repr h' a' (na ++ nb)
    ∧ contents h' (na ++ nb) = contents h na ++ contents h nb
    ∧ size a' = size a + size b
    ∧ size b' = 0 ∧ head b' = NULL ∧ tail b' = NULL
    ∧ repr h' b' [] ∧ heap_ok h'.
Proof.
  intros Hok Ha Hb Hdisj.
  destruct (splice_spec h a b na nb Hok Ha Hb Hdisj)
    as (h' & a' & -> & Hok' & Hrepr' & Hc & Hs & _).
  eexists _, _, _. split; [done|]. do 6 (split; [done|]).
  split; [by apply repr_nil|done].
Qed.

(** *** The particular lists *)

Lemma heap4_ok : heap_ok heap4.
Proof.
  unfold heap4. repeat (apply heap_ok_insert; [|done]). apply heap_ok_empty.
Qed.

Lemma list3_repr : repr heap4 list3 [16; 32; 48].
Proof.
  split; [|done]. cbn [seg list3 head].
  split; [done|]. exists (mkNode 100 32). split; [done|].
  split; [done|]. exists (mkNode 200 48). split; [done|].
  split; [done|]. exists (mkNode 300 NULL). done.
Qed.

Lemma list1_repr : repr heap4 list1 [64].
Proof.
  split; [|done]. cbn [seg list1 head].
  split; [done|]. exists (mkNode 400 NULL). done.
Qed.

Lemma list3_ok : list_ok heap4 list3.
Proof. apply list_ok_repr. split; [apply heap4_ok|]. eexists. apply list3_repr. Qed.

Lemma splice_appends_witness :
  ∃ h' a' b', cc_slist_splice heap4 list3 list1 = Ret (CC_OK, h', a', b')
    ∧ contents h' [16; 32; 48; 64] = [100; 200; 300; 400]
    ∧ size a' = 4 ∧ b' = mkList 0 NULL NULL.
Proof.
  destruct (splice_appends heap4 list3 list1 [16; 32; 48] [64])
    as (h' & a' & b' & Hs & Hr & Hc & Hz & _ & _ & _ & Hb & _).
  - apply heap4_ok.
  - apply list3_repr.
  - apply list1_repr.
  - intros n Hn Hn'. apply list_elem_of_singleton in Hn' as ->.
    repeat (apply elem_of_cons in Hn as [Hn|Hn]; [done|]).
    by apply elem_of_nil in Hn.
  - exists h', a', b'. split; [done|]. split; [exact Hc|].
    split; [exact Hz|]. by apply repr_nil in Hb.
Defined.

Lemma operations_preserve_invariant_witness :
  list_ok heap4 list3
  ∧ ∃ st h' l', cc_slist_add_last heap4 list3 80 500 = Ret (st, h', l')
      ∧ list_ok h' l'.
Proof.
  split; [apply list3_ok|].
  destruct (operations_preserve_invariant heap4 list3 list3_ok) as (_ & H & _).
  apply (H 80 500). right. split; [done|]. done.
Defined.

End SListFacts.

(** * Properties of both containers *)
Module ContainerFacts.

(** C7. On a list, [add_at] answers [CC_ERR_OUT_OF_RANGE] and changes nothing
    whenever the index is at least the size: at [index = size], at any index
    on an empty list, with or without a node to allocate.  On an array
    [add_at] at [index = size] is [add]: it is never out of range, and it
    appends when there is room. *)
Theorem list_add_at_rejects_append :
  (∀ h l p e i, SList.size l ≤ i →
     SList.cc_slist_add_at h l p e i = Ret (CC_ERR_OUT_OF_RANGE, h, l))
  ∧ (∀ h l p e i, SList.size l = 0 → 0 ≤ i →
       SList.cc_slist_add_at h l p e i = Ret (CC_ERR_OUT_OF_RANGE, h, l))
  ∧ (∀ M ok ar e, Array.wf ar →
       Array.cc_array_add_at M ok ar e (Array.size ar)
       = Array.cc_array_add M ok ar e
       ∧ (∀ ar', Array.cc_array_add_at M ok ar e (Array.size ar)
                 ≠ Ret (CC_ERR_OUT_OF_RANGE, ar'))
       ∧ (Array.size ar < Array.capacity ar →
          ∃ ar', Array.cc_array_add_at M ok ar e (Array.size ar)
                 = Ret (CC_OK, ar')
                 ∧ Array.size ar' = Array.size ar + 1
                 ∧ Array.elements ar' = Array.elements ar ++ [Some e])).
Proof.
  split; [|split].
  - intros h l p e i Hi.
    by destruct (SListFacts.index_out_of_range h l p e i NullOut Hi) as [-> _].
  - intros h l p e i Hs Hi. assert (Hle : SList.size l ≤ i) by lia.
    by destruct (SListFacts.index_out_of_range h l p e i NullOut Hle)
      as [-> _].
  - intros M ok ar e Hwf.
    assert (Heq : Array.cc_array_add_at M ok ar e (Array.size ar)
                  = Array.cc_array_add M ok ar e).
    { unfold Array.cc_array_add_at. by rewrite Z.eqb_refl. }
    pose proof Hwf as (H0 & H1 & H2 & H3). unfold sizeof_ptr in H3.
    split; [done|]. split.
    + intros ar'. apply ArrayFacts.add_at_not_out_of_range; [done|lia].
    + intros Hroom. rewrite Heq, ArrayFacts.add_unfold.
      rewrite ArrayFacts.ensure_room_ready by done.
      step. rewrite ArrayFacts.append_body_ok by lia.
      eexists. split; [done|].
      edestruct (ArrayFacts.add_OK M ok ar e) as (Hs & Hel & _); [exact Hwf| |].
      { rewrite ArrayFacts.add_unfold, ArrayFacts.ensure_room_ready by done.
        step. by rewrite ArrayFacts.append_body_ok by lia. }
      done.
Qed.

Lemma list_add_at_rejects_append_witness :
  SList.cc_slist_add_at SList.heap4 SList.list3 80 500 3
  = Ret (CC_ERR_OUT_OF_RANGE, SList.heap4, SList.list3)
  ∧ ∃ ar', Array.cc_array_add_at (2 ^ 64 - 2) true Array.empty8 500 0
           = Ret (CC_OK, ar') ∧ Array.size ar' = 1.
Proof.
  destruct list_add_at_rejects_append as (Hl & _ & Ha).
  split; [by apply Hl|].
  assert (Hwf : Array.wf Array.empty8).
  { unfold Array.wf, Array.empty8, sizeof_ptr, SIZE_MAX, SIZE_MODULUS.
    cbn [Array.size Array.capacity Array.buffer]. rewrite length_replicate.
    lia. }
  destruct (Ha (2 ^ 64 - 2) true Array.empty8 500 Hwf) as (_ & _ & Hok).
  destruct Hok as (ar' & Hr & Hs & _); [done|]. by exists ar'.
Defined.

(** C8. Reversing twice gives back the container.  An array is returned to
    the same state, its elements being in reverse order in between.  A list
    is returned to the same nodes in the same order with the same elements,
    the nodes and the elements being in reverse order in between; after the
    first reversal the tail is the node that was the head. *)
Theorem reverse_involution :
  (∀ ar, Array.wf ar →
     ∃ ar1, Array.cc_array_reverse ar = Ret ar1
       ∧ Array.elements ar1 = rev (Array.elements ar)
       ∧ Array.cc_array_reverse ar1 = Ret ar)
  ∧ (∀ h l ns fuel,
       SList.heap_ok h → SList.repr h l ns → (length ns ≤ fuel)%nat →
       ∃ h1 l1 h2, SList.cc_slist_reverse fuel h l = Ret (h1, l1)
         ∧ SList.repr h1 l1 (rev ns)
         ∧ SList.contents h1 (rev ns) = rev (SList.contents h ns)
         ∧ SList.tail l1 = SList.head l
         ∧ SList.cc_slist_reverse fuel h1 l1 = Ret (h2, l)
         ∧ SList.heap_ok h2 ∧ SList.repr h2 l ns
         ∧ SList.contents h2 ns = SList.contents h ns).
Proof.
  split.
  - intros ar Hwf. pose proof (ArrayFacts.array_reverse_involutive ar Hwf) as Hinv.
    destruct (Array.cc_array_reverse ar) as [ar1| |] eqn:Hr; [|done..].
    exists ar1. split; [done|].
    by destruct (ArrayFacts.array_reverse_elements ar ar1 Hwf Hr) as (-> & _).
  - intros h l ns fuel Hok Hrepr Hfuel.
    destruct (SListFacts.reverse_twice h l ns fuel Hok Hrepr Hfuel)
      as (h1 & l1 & h2 & Hr1 & Hr2 & Hok2 & Hrepr2 & Hc1 & Hc2 & Ht).
    destruct (SListFacts.slist_reverse_spec h l ns fuel Hok Hrepr Hfuel)
      as (h1' & l1' & Hr1' & _ & Hrepr1 & _).
    rewrite Hr1 in Hr1'. injection Hr1' as <- <-.
    by exists h1, l1, h2.
Qed.

Lemma reverse_involution_witness :
  (∃ ar1, Array.cc_array_reverse Array.full8 = Ret ar1
     ∧ Array.elements ar1
       = [Some 108; Some 107; Some 106; Some 105;
          Some 104; Some 103; Some 102; Some 101]
     ∧ Array.cc_array_reverse ar1 = Ret Array.full8)
  ∧ ∃ h1 l1 h2, SList.cc_slist_reverse 3 SList.heap4 SList.list3 = Ret (h1, l1)
      ∧ SList.contents h1 [48; 32; 16] = [300; 200; 100]
      ∧ SList.tail l1 = 16
      ∧ SList.cc_slist_reverse 3 h1 l1 = Ret (h2, SList.list3)
      ∧ SList.contents h2 [16; 32; 48] = [100; 200; 300].
Proof.
  destruct reverse_involution as [Ha Hl]. split.
  - destruct (Ha Array.full8 ArrayFacts.full8_wf) as (ar1 & Hr & He & Hr').
    by exists ar1.
  - destruct (Hl SList.heap4 SList.list3 [16; 32; 48] 3%nat
                SListFacts.heap4_ok SListFacts.list3_repr ltac:(done))
      as (h1 & l1 & h2 & Hr1 & _ & Hc1 & Ht & Hr2 & _ & _ & Hc2).
    by exists h1, l1, h2.
Defined.

End ContainerFacts.

(** * More of the array *)
Module ArrayOps.
Import Float32 Float32Facts Array ArrayFacts.

Lemma wf_same_block ar ar' :
  wf ar → size ar' = size ar → capacity ar' = capacity ar →
  length (buffer ar') = length (buffer ar) → wf ar'.
Proof.
  intros (H0 & H1 & H2 & H3) Hs Hc Hl. unfold wf. rewrite Hs, Hc, Hl. done.
Qed.

Lemma live_slot ar i :
  wf ar → 0 ≤ i < size ar →
  ∃ v, buffer ar !! Z.to_nat i = Some v ∧ elements ar !! Z.to_nat i = Some v.
Proof.
  intros (H0 & H1 & H2 & H3) Hi.
  destruct (lookup_lt_is_Some_2 (buffer ar) (Z.to_nat i) ltac:(lia)) as [v Hv].
  exists v. split; [done|]. unfold elements.
  rewrite lookup_take_lt by lia. done.
Qed.

Lemma get_at_live ar i v c :
  wf ar → 0 ≤ i < size ar → elements ar !! Z.to_nat i = Some v →
  cc_array_get_at ar i (Slot c) = Ret (CC_OK, Slot v).
Proof.
  intros Hwf Hi Hv. pose proof Hwf as (H0 & H1 & H2 & H3).
  destruct (live_slot ar i Hwf Hi) as (v' & Hb & He).
  assert (v' = v) as -> by congruence.
  unfold cc_array_get_at.
  replace (size ar <=? i) with false by (symmetry; apply Z.leb_gt; lia).
  rewrite load_ok by lia. rewrite Hb. done.
Qed.

Lemma get_at_out_of_range ar i out :
  size ar ≤ i → cc_array_get_at ar i out = Ret (CC_ERR_OUT_OF_RANGE, out).
Proof.
  intros Hi. unfold cc_array_get_at.
  by replace (size ar <=? i) with true by (symmetry; apply Z.leb_le; lia).
Qed.

(** X1. [replace_at] with an index below the size stores the element in that
    slot and nothing else: it hands the element stored before to the output
    slot (if there is one), leaves size and capacity alone, and a following
    [get_at] of the index delivers the new element.  With an index at or
    above the size it answers [CC_ERR_OUT_OF_RANGE] and changes nothing. *)
Theorem array_replace_at_spec ar e i out :
  wf ar → 0 ≤ i →
  (size ar ≤ i →
   cc_array_replace_at ar e i out = Ret (CC_ERR_OUT_OF_RANGE, ar, out))
  ∧ (i < size ar →
     ∃ old ar', elements ar !! Z.to_nat i = Some old
       ∧ cc_array_replace_at ar e i out
         = Ret (CC_OK, ar', store_out_opt out old)
       ∧ wf ar' ∧ size ar' = size ar ∧ capacity ar' = capacity ar
       ∧ elements ar' = <[Z.to_nat i := Some e]> (elements ar)
       ∧ ∀ c, cc_array_get_at ar' i (Slot c) = Ret (CC_OK, Slot (Some e))).
Proof.
  intros Hwf Hi. pose proof Hwf as (H0 & H1 & H2 & H3). split.
  - intros Hge. unfold cc_array_replace_at.
    by replace (size ar <=? i) with true by (symmetry; apply Z.leb_le; lia).
  - intros Hlt. destruct (live_slot ar i Hwf ltac:(lia)) as (old & Hb & He).
    set (ar' := set_buffer ar (<[Z.to_nat i := Some e]> (buffer ar))).
    assert (Hwf' : wf ar').
    { apply (wf_same_block ar); [done..|]. apply length_insert. }
    assert (Hel : elements ar' = <[Z.to_nat i := Some e]> (elements ar)).
    { unfold elements, ar'. cbn [size buffer set_buffer].
      rewrite take_insert_lt by lia. done. }
    exists old, ar'. split; [done|]. split.
    { unfold cc_array_replace_at.
      replace (size ar <=? i) with false by (symmetry; apply Z.leb_gt; lia).
      destruct out as [|c]; step.
      - rewrite store_ok by lia. done.
      - rewrite load_ok by lia. rewrite Hb. step.
        rewrite store_ok by lia. done. }
    split; [done|]. split; [done|]. split; [done|]. split; [done|].
    intros c. apply get_at_live; [done|done|].
    rewrite Hel. apply list_lookup_insert_eq.
    pose proof (elements_length ar Hwf). lia.
Qed.

Lemma array_replace_at_spec_witness :
  ∃ ar', cc_array_replace_at full8 7 2 (Slot None)
         = Ret (CC_OK, ar', Slot (Some 103))
    ∧ elements ar'
      = [Some 101; Some 102; Some 7; Some 104;
         Some 105; Some 106; Some 107; Some 108].
Proof.
  destruct (array_replace_at_spec full8 7 2 (Slot None) full8_wf ltac:(done))
    as [_ H].
  destruct H as (old & ar' & Hold & Hr & _ & _ & _ & Hel & _); [done|].
  injection Hold as <-. by exists ar'.
Defined.

(** X2. [swap_at] with both indices below the size exchanges the two
    elements and leaves every other one in place; swapping the same pair
    again gives back the array as it was.  If either index is at or above
    the size it answers [CC_ERR_OUT_OF_RANGE] and changes nothing. *)
Theorem array_swap_at_spec ar i j :
  wf ar → 0 ≤ i → 0 ≤ j →
  (size ar ≤ i ∨ size ar ≤ j →
   cc_array_swap_at ar i j = Ret (CC_ERR_OUT_OF_RANGE, ar))
  ∧ (i < size ar → j < size ar →
     ∃ ar', cc_array_swap_at ar i j = Ret (CC_OK, ar')
       ∧ wf ar' ∧ size ar' = size ar ∧ capacity ar' = capacity ar
       ∧ elements ar' !! Z.to_nat i = elements ar !! Z.to_nat j
       ∧ elements ar' !! Z.to_nat j = elements ar !! Z.to_nat i
       ∧ (∀ k, k ≠ Z.to_nat i → k ≠ Z.to_nat j →
            elements ar' !! k = elements ar !! k)
       ∧ cc_array_swap_at ar' i j = Ret (CC_OK, ar)).
Proof.
  intros Hwf Hi Hj. pose proof Hwf as (H0 & H1 & H2 & H3). split.
  - intros Hge. unfold cc_array_swap_at.
    replace ((size ar <=? i) || (size ar <=? j)) with true; [done|].
    symmetry. apply orb_true_iff. rewrite !Z.leb_le. done.
  - intros Hlti Hltj.
    destruct (live_slot ar i Hwf ltac:(lia)) as (vi & Hbi & Hei).
    destruct (live_slot ar j Hwf ltac:(lia)) as (vj & Hbj & Hej).
    set (b' := <[Z.to_nat j := vi]> (<[Z.to_nat i := vj]> (buffer ar))).
    assert (Hlen : length b' = length (buffer ar)).
    { unfold b'. by rewrite !length_insert. }
    assert (Hrun : ∀ a vi vj,
      size a = size ar → Z.of_nat (length (buffer a)) = Z.of_nat (length (buffer ar)) →
      buffer a !! Z.to_nat i = Some vi → buffer a !! Z.to_nat j = Some vj →
      cc_array_swap_at a i j
      = Ret (CC_OK, set_buffer a
               (<[Z.to_nat j := vi]> (<[Z.to_nat i := vj]> (buffer a))))).
    { intros a wi wj Hs Hl Hai Haj. unfold cc_array_swap_at. rewrite Hs.
      replace ((size ar <=? i) || (size ar <=? j)) with false.
      2:{ symmetry. apply orb_false_iff. rewrite !Z.leb_gt. lia. }
      rewrite !load_ok by lia. rewrite Hai, Haj. step.
      rewrite store_ok by lia. step.
      rewrite store_ok by (rewrite length_insert; lia). done. }
    exists (set_buffer ar b').
    split; [by apply Hrun|].
    split; [by apply (wf_same_block ar)|]. split; [done|]. split; [done|].
    assert (Hlk : ∀ k, (k < Z.to_nat (size ar))%nat →
      elements (set_buffer ar b') !! k = b' !! k).
    { intros k Hk. unfold elements. cbn [size buffer set_buffer].
      by rewrite lookup_take_lt by lia. }
    assert (Hlk0 : ∀ k, (k < Z.to_nat (size ar))%nat →
      elements ar !! k = buffer ar !! k).
    { intros k Hk. unfold elements. by rewrite lookup_take_lt by lia. }
    assert (Hbi' : b' !! Z.to_nat i = Some vj).
    { unfold b'. destruct (decide (Z.to_nat j = Z.to_nat i)) as [E|E].
      - rewrite E. rewrite list_lookup_insert_eq by (rewrite length_insert; lia).
        rewrite E in Hbj. congruence.
      - rewrite list_lookup_insert_ne by done.
        by rewrite list_lookup_insert_eq by lia. }
    assert (Hbj' : b' !! Z.to_nat j = Some vi).
    { unfold b'. by rewrite list_lookup_insert_eq by (rewrite length_insert; lia). }
    split; [rewrite Hlk by lia; congruence|].
    split; [rewrite Hlk by lia; congruence|].
    split.
    { intros k Hki Hkj. destruct (decide (k < Z.to_nat (size ar))%nat).
      - rewrite Hlk, Hlk0 by done. unfold b'.
        by rewrite !list_lookup_insert_ne by done.
      - unfold elements. cbn [size buffer set_buffer].
        rewrite !lookup_take_ge by lia. done. }
    rewrite (Hrun (set_buffer ar b') vj vi); [|done|cbn [buffer set_buffer]; lia|done|done].
    cbn [buffer set_buffer]. destruct ar as [s c f b]. unfold set_buffer.
    cbn [size capacity exp_factor buffer] in *. do 3 f_equal.
    apply list_eq. intros k. unfold b'.
    destruct (decide (k = Z.to_nat j)) as [->|Hkj].
    { rewrite list_lookup_insert_eq by (rewrite !length_insert; lia). done. }
    rewrite list_lookup_insert_ne by done.
    destruct (decide (k = Z.to_nat i)) as [->|Hki].
    { rewrite list_lookup_insert_eq by (rewrite !length_insert; lia). done. }
    by rewrite !list_lookup_insert_ne by done.
Qed.

Lemma array_swap_at_spec_witness :
  ∃ ar', cc_array_swap_at full8 1 6 = Ret (CC_OK, ar')
    ∧ elements ar' !! 1%nat = Some (Some 107)
    ∧ elements ar' !! 6%nat = Some (Some 102)
    ∧ cc_array_swap_at ar' 1 6 = Ret (CC_OK, full8).
Proof.
  destruct (array_swap_at_spec full8 1 6 full8_wf ltac:(done) ltac:(done))
    as [_ H].
  destruct H as (ar' & Hr & _ & _ & _ & Hi & Hj & _ & Hback); [done|done|].
  exists ar'. split; [done|]. split; [exact Hi|]. split; [exact Hj|done].
Defined.

Lemma remove_slot_block ar i :
  0 ≤ i < size ar → size ar ≤ Z.of_nat (length (buffer ar)) →
  Z.of_nat (length (buffer ar)) * 8 ≤ SIZE_MAX →
  ∃ ar', remove_slot ar i = Ret ar'
    ∧ size ar' = size ar - 1 ∧ capacity ar' = capacity ar
    ∧ exp_factor ar' = exp_factor ar
    ∧ length (buffer ar') = length (buffer ar)
    ∧ elements ar' = delete (Z.to_nat i) (elements ar).
Proof.
  intros Hi H2 H3. assert (0 ≤ SIZE_MAX) by done.
  unfold remove_slot. rewrite (wrap_small (size ar - 1)) by lia.
  destruct (i =? size ar - 1) eqn:E.
  - apply Z.eqb_eq in E. step. eexists. split; [done|].
    split; [done|]. split; [done|]. split; [done|]. split; [done|].
    unfold elements. cbn [size capacity buffer set_size set_buffer].
    rewrite delete_take_drop.
    rewrite take_take.
    rewrite (drop_ge (take _ _)) by (rewrite length_take; lia).
    rewrite app_nil_r. f_equal. lia.
  - apply Z.eqb_neq in E.
    rewrite (wrap_small (size ar - 1 - i)) by lia.
    rewrite (wrap_small ((size ar - 1 - i) * sizeof_ptr))
      by (unfold sizeof_ptr; lia).
    rewrite copy_slots_ok by lia. step. eexists. split; [done|].
    split; [done|]. split; [done|]. split; [done|]. split.
    { cbn [size capacity buffer set_size set_buffer].
      rewrite !length_app, !length_take, !length_drop. lia. }
    unfold elements. cbn [size capacity buffer set_size set_buffer].
    rewrite delete_take_drop, take_take, skipn_firstn_comm, app_assoc.
    rewrite take_app_length' by (rewrite length_app, !length_take, length_drop; lia).
    f_equal; [f_equal; lia|].
    replace (Z.to_nat (i + 1)) with (S (Z.to_nat i)) by lia. f_equal. lia.
Qed.

Lemma remove_slot_elements ar i :
  wf ar → 0 ≤ i < size ar →
  ∃ ar', remove_slot ar i = Ret ar'
    ∧ wf ar' ∧ size ar' = size ar - 1 ∧ capacity ar' = capacity ar
    ∧ exp_factor ar' = exp_factor ar
    ∧ elements ar' = delete (Z.to_nat i) (elements ar).
Proof.
  intros Hwf Hi. pose proof Hwf as (H0 & H1 & H2 & H3).
  unfold sizeof_ptr in H3.
  destruct (remove_slot_block ar i Hi ltac:(lia) H3)
    as (ar' & Hr & Hs & Hc & Hf & Hl & Hel).
  exists ar'. split; [done|]. split; [|done].
  unfold wf, sizeof_ptr. rewrite Hs, Hc, Hl. lia.
Qed.

(** X3. [remove_at] with an index below the size takes that element out:
    the elements after it move down by one, the size drops by one, the
    capacity stays, and the removed element goes to the output slot (if
    there is one).  With an index at or above the size it answers
    [CC_ERR_OUT_OF_RANGE] and changes nothing. *)
Theorem array_remove_at_spec ar i out :
  wf ar → 0 ≤ i →
  (size ar ≤ i →
   cc_array_remove_at ar i out = Ret (CC_ERR_OUT_OF_RANGE, ar, out))
  ∧ (i < size ar →
     ∃ old ar', elements ar !! Z.to_nat i = Some old
       ∧ cc_array_remove_at ar i out = Ret (CC_OK, ar', store_out_opt out old)
       ∧ wf ar' ∧ size ar' = size ar - 1 ∧ capacity ar' = capacity ar
       ∧ elements ar' = delete (Z.to_nat i) (elements ar)
       ∧ (∀ k, i ≤ k < size ar - 1 → get ar' k = get ar (k + 1))
       ∧ (∀ k, 0 ≤ k < i → get ar' k = get ar k)).
Proof.
  intros Hwf Hi. pose proof Hwf as (H0 & H1 & H2 & H3). split.
  - intros Hge. unfold cc_array_remove_at.
    by replace (size ar <=? i) with true by (symmetry; apply Z.leb_le; lia).
  - intros Hlt. destruct (live_slot ar i Hwf ltac:(lia)) as (old & Hb & He).
    destruct (remove_slot_elements ar i Hwf ltac:(lia))
      as (ar' & Hr & Hwf' & Hs & Hc & _ & Hel).
    exists old, ar'. split; [done|]. split.
    { unfold cc_array_remove_at.
      replace (size ar <=? i) with false by (symmetry; apply Z.leb_gt; lia).
      destruct out as [|c]; step.
      - rewrite Hr. done.
      - rewrite load_ok by lia. rewrite Hb. step. rewrite Hr. done. }
    split; [done|]. split; [done|]. split; [done|]. split; [done|].
    split.
    + intros k Hk. rewrite !get_elements by (done || lia). rewrite Hel.
      rewrite list_lookup_delete_ge by lia. f_equal. lia.
    + intros k Hk. rewrite !get_elements by (done || lia). rewrite Hel.
      by rewrite list_lookup_delete_lt by lia.
Qed.

Lemma array_remove_at_spec_witness :
  ∃ ar', cc_array_remove_at full8 2 (Slot None)
         = Ret (CC_OK, ar', Slot (Some 103))
    ∧ elements ar'
      = [Some 101; Some 102; Some 104; Some 105; Some 106; Some 107; Some 108]
    ∧ get ar' 2 = Some (Some 104).
Proof.
  destruct (array_remove_at_spec full8 2 (Slot None) full8_wf ltac:(done))
    as [_ H].
  destruct H as (old & ar' & Hold & Hr & _ & _ & _ & Hel & Hup & _); [done|].
  injection Hold as <-. exists ar'. split; [done|]. split; [exact Hel|].
  exact (Hup 2 ltac:(done)).
Defined.

Lemma index_of_loop_spec (b : list cell) e n : ∀ i,
  (∀ k, (i ≤ k < i + n)%nat → ∃ c, b !! k = Some (Some c)) →
  (index_of_loop n (Z.of_nat i) b e = Ret None
   ∧ ∀ k, (i ≤ k < i + n)%nat → b !! k ≠ Some (Some e))
  ∨ ∃ j, index_of_loop n (Z.of_nat i) b e = Ret (Some (Z.of_nat j))
      ∧ (i ≤ j < i + n)%nat ∧ b !! j = Some (Some e)
      ∧ ∀ k, (i ≤ k < j)%nat → b !! k ≠ Some (Some e).
Proof.
  induction n as [|n IH]; intros i Hinit.
  - left. split; [done|]. intros k Hk. lia.
  - destruct (Hinit i ltac:(lia)) as [c Hc].
    assert (Hlen : (i < length b)%nat) by (by eapply lookup_lt_Some).
    cbn [index_of_loop]. unfold slot_equals.
    rewrite load_ok by lia. rewrite Nat2Z.id, Hc. step.
    destruct (c =? e) eqn:E.
    + apply Z.eqb_eq in E as ->. right. exists i.
      split; [done|]. split; [lia|]. split; [done|]. intros k Hk. lia.
    + apply Z.eqb_neq in E.
      replace (Z.of_nat i + 1) with (Z.of_nat (S i)) by lia.
      destruct (IH (S i)) as [[Hr Hno]|(j & Hr & Hj & Hbj & Hno)].
      * intros k Hk. apply Hinit. lia.
      * left. split; [done|]. intros k Hk.
        destruct (decide (k = i)) as [->|Hne]; [congruence|].
        apply Hno. lia.
      * right. exists j. split; [done|]. split; [lia|]. split; [done|].
        intros k Hk. destruct (decide (k = i)) as [->|Hne]; [congruence|].
        apply Hno. lia.
Qed.

Lemma initialized_buffer ar k :
  wf ar → initialized ar → (k < Z.to_nat (size ar))%nat →
  ∃ c, buffer ar !! k = Some (Some c).
Proof.
  intros (H0 & H1 & H2 & H3) Hinit Hk.
  destruct (lookup_lt_is_Some_2 (buffer ar) k ltac:(lia)) as [v Hv].
  unfold initialized in Hinit. rewrite Forall_lookup in Hinit.
  destruct (Hinit k v) as [c ->].
  - unfold elements. by rewrite lookup_take_lt by lia.
  - by exists c.
Qed.

Lemma index_of_absent ar e :
  wf ar → initialized ar → Some e ∉ elements ar →
  cc_array_index_of ar e = Ret (CC_ERR_OUT_OF_RANGE, None).
Proof.
  intros Hwf Hinit Hno. unfold cc_array_index_of.
  destruct (index_of_loop_spec (buffer ar) e (Z.to_nat (size ar)) 0)
    as [[Hr _]|(j & _ & Hj & Hbj & _)].
  - intros k Hk. apply initialized_buffer; [done..|lia].
  - change (Z.of_nat 0) with 0 in Hr. by rewrite Hr.
  - destruct Hno. apply list_elem_of_lookup. exists j. unfold elements.
    by rewrite lookup_take_lt by lia.
Qed.

Lemma index_of_first ar e l1 l2 :
  wf ar → initialized ar → elements ar = l1 ++ Some e :: l2 → Some e ∉ l1 →
  cc_array_index_of ar e = Ret (CC_OK, Some (Z.of_nat (length l1))).
Proof.
  intros Hwf Hinit Hel Hno. unfold cc_array_index_of.
  pose proof (elements_length ar Hwf) as Hlen.
  rewrite Hel, length_app in Hlen. cbn [length] in Hlen.
  assert (Hlk : ∀ k, (k < Z.to_nat (size ar))%nat →
    buffer ar !! k = (l1 ++ Some e :: l2) !! k).
  { intros k Hk. rewrite <- Hel. unfold elements.
    by rewrite lookup_take_lt by lia. }
  destruct (index_of_loop_spec (buffer ar) e (Z.to_nat (size ar)) 0)
    as [[_ Hnone]|(j & Hr & Hj & Hbj & Hfirst)].
  - intros k Hk. apply initialized_buffer; [done..|lia].
  - destruct (Hnone (length l1) ltac:(lia)).
    rewrite Hlk by lia. by rewrite list_lookup_middle.
  - change (Z.of_nat 0) with 0 in Hr. rewrite Hr. step.
    destruct (decide (j = length l1)) as [->|Hne]; [done|].
    destruct (decide (j < length l1)%nat) as [Hlt|Hge].
    + destruct Hno. apply list_elem_of_lookup. exists j.
      rewrite Hlk in Hbj by lia. by rewrite lookup_app_l in Hbj by lia.
    + destruct (Hfirst (length l1) ltac:(lia)).
      rewrite Hlk by lia. by rewrite list_lookup_middle.
Qed.

(** X4. On an array whose live slots have all been written, [index_of]
    delivers the least index that holds the element (by pointer equality),
    and answers [CC_ERR_OUT_OF_RANGE], delivering no index, exactly when
    the element is not stored. *)
Theorem array_index_of_spec ar e :
  wf ar → initialized ar →
  (Some e ∉ elements ar →
   cc_array_index_of ar e = Ret (CC_ERR_OUT_OF_RANGE, None))
  ∧ (Some e ∈ elements ar →
     ∃ j, cc_array_index_of ar e = Ret (CC_OK, Some j)
       ∧ 0 ≤ j < size ar ∧ get ar j = Some (Some e)
       ∧ ∀ k, 0 ≤ k < j → get ar k ≠ Some (Some e)).
Proof.
  intros Hwf Hinit. split; [by apply index_of_absent|].
  intros Hin. apply list_elem_of_split_l in Hin as (l1 & l2 & Hel & Hno).
  pose proof (elements_length ar Hwf) as Hlen.
  rewrite Hel, length_app in Hlen. cbn [length] in Hlen.
  exists (Z.of_nat (length l1)).
  split; [by apply (index_of_first ar e l1 l2)|]. split; [lia|]. split.
  - rewrite get_elements by (done || lia). rewrite Nat2Z.id, Hel.
    by rewrite list_lookup_middle.
  - intros k Hk Hget. rewrite get_elements in Hget by (done || lia).
    rewrite Hel, lookup_app_l in Hget by lia.
    destruct Hno. apply list_elem_of_lookup. eauto.
Qed.

Lemma full8_initialized : initialized full8.
Proof. unfold initialized. cbn. repeat constructor; eauto. Qed.

Lemma array_index_of_spec_witness :
  cc_array_index_of full8 105 = Ret (CC_OK, Some 4)
  ∧ cc_array_index_of full8 7 = Ret (CC_ERR_OUT_OF_RANGE, None).
Proof.
  destruct (array_index_of_spec full8 105 full8_wf full8_initialized)
    as [_ Hin].
  destruct (array_index_of_spec full8 7 full8_wf full8_initialized)
    as [Hout _].
  split; [reflexivity|]. apply Hout. cbn.
  intros H. repeat (apply elem_of_cons in H as [H|H]; [done|]).
  by apply elem_of_nil in H.
Defined.

(** X5. On an array whose live slots have all been written, [remove] takes
    out the first occurrence of the element and only that one: the elements
    before it stay, those after it move down by one, the size drops by one,
    and the element goes to the output slot (if there is one).  If the
    element is not stored it answers [CC_ERR_VALUE_NOT_FOUND] and changes
    nothing. *)
Theorem array_remove_spec ar e out :
  wf ar → initialized ar →
  (Some e ∉ elements ar →
   cc_array_remove ar e out = Ret (CC_ERR_VALUE_NOT_FOUND, ar, out))
  ∧ (∀ l1 l2, elements ar = l1 ++ Some e :: l2 → Some e ∉ l1 →
     ∃ ar', cc_array_remove ar e out
            = Ret (CC_OK, ar', store_out_opt out (Some e))
       ∧ wf ar' ∧ initialized ar'
       ∧ size ar' = size ar - 1 ∧ capacity ar' = capacity ar
       ∧ elements ar' = l1 ++ l2).
Proof.
  intros Hwf Hinit. split.
  - intros Hno. unfold cc_array_remove.
    rewrite index_of_absent by done. step.
    by destruct (decide (CC_ERR_OUT_OF_RANGE = CC_ERR_OUT_OF_RANGE)).
  - intros l1 l2 Hel Hno.
    pose proof (elements_length ar Hwf) as Hlen.
    rewrite Hel, length_app in Hlen. cbn [length] in Hlen.
    destruct (remove_slot_elements ar (Z.of_nat (length l1)) Hwf ltac:(lia))
      as (ar' & Hr & Hwf' & Hs & Hc & _ & Hel').
    assert (Hel2 : elements ar' = l1 ++ l2).
    { rewrite Hel', Hel, Nat2Z.id. rewrite delete_take_drop.
      rewrite take_app_le, take_ge by lia.
      rewrite drop_app_ge by lia.
      replace (S (length l1) - length l1)%nat with 1%nat by lia. done. }
    exists ar'. split.
    { unfold cc_array_remove. rewrite (index_of_first ar e l1 l2) by done.
      step. destruct (decide (CC_OK = CC_ERR_OUT_OF_RANGE)); [done|].
      step. rewrite Hr. done. }
    split; [done|]. split.
    { unfold initialized in *. rewrite Hel2. rewrite Hel in Hinit.
      apply Forall_app in Hinit as [Ha Hb]. apply Forall_cons in Hb as [_ Hb].
      by apply Forall_app. }
    done.
Qed.

Lemma array_remove_spec_witness :
  ∃ ar', cc_array_remove full8 103 (Slot None)
         = Ret (CC_OK, ar', Slot (Some 103))
    ∧ elements ar'
      = [Some 101; Some 102; Some 104; Some 105; Some 106; Some 107; Some 108].
Proof.
  destruct (array_remove_spec full8 103 (Slot None) full8_wf full8_initialized)
    as [_ H].
  destruct (H [Some 101; Some 102]
              [Some 104; Some 105; Some 106; Some 107; Some 108])
    as (ar' & Hr & _ & _ & _ & _ & Hel).
  - reflexivity.
  - intros Hin. repeat (apply elem_of_cons in Hin as [Hin|Hin]; [done|]).
    by apply elem_of_nil in Hin.
  - by exists ar'.
Defined.

Lemma count_slots_bounds f (l : list cell) :
  0 ≤ count_slots f l ≤ Z.of_nat (length l).
Proof.
  induction l as [|[p|] l IH]; cbn [count_slots length]; [lia| |lia].
  destruct (f p); lia.
Qed.

Lemma count_slots_ext f g (l : list cell) :
  (∀ p, Some p ∈ l → f p = g p) → count_slots f l = count_slots g l.
Proof.
  induction l as [|[p|] l IH]; intros H; cbn [count_slots]; [done| |].
  - rewrite (H p) by apply list_elem_of_here.
    rewrite IH; [done|]. intros q Hq. apply H. by apply list_elem_of_further.
  - apply IH. intros q Hq. apply H. by apply list_elem_of_further.
Qed.

Lemma count_slots_zero f (l : list cell) :
  count_slots f l = 0 ↔ ∀ p, Some p ∈ l → f p = false.
Proof.
  induction l as [|[p|] l IH]; cbn [count_slots].
  - split; [|done]. intros _ p Hp. by apply elem_of_nil in Hp.
  - pose proof (count_slots_bounds f l). split.
    + intros H0 q Hq. destruct (f p) eqn:E; [lia|].
      apply elem_of_cons in Hq as [[= ->]|Hq]; [done|]. apply IH; [lia|done].
    + intros Hall. rewrite (Hall p) by apply list_elem_of_here.
      apply IH. intros q Hq. apply Hall. by apply list_elem_of_further.
  - rewrite IH. split; intros Hall q Hq.
    + apply elem_of_cons in Hq as [[=]|Hq]. by apply Hall.
    + apply Hall. by apply list_elem_of_further.
Qed.

(** The two counting loops run the same way: over initialised slots they
    add up the slots that pass the test. *)
Lemma contains_loop_spec (b : list cell) e n : ∀ i o,
  (∀ k, (i ≤ k < i + n)%nat → ∃ c, b !! k = Some (Some c)) →
  0 ≤ o → o + Z.of_nat n ≤ SIZE_MAX →
  contains_loop n (Z.of_nat i) b e o
  = Ret (o + count_slots (λ p, p =? e) (take n (drop i b))).
Proof.
  induction n as [|n IH]; intros i o Hinit Ho Hmax.
  - rewrite take_0. cbn [contains_loop contains_value_loop count_slots].
    f_equal. lia.
  - destruct (Hinit i ltac:(lia)) as [c Hc].
    assert (Hlen : (i < length b)%nat) by (by eapply lookup_lt_Some).
    cbn [contains_loop]. unfold slot_equals.
    rewrite load_ok by lia. rewrite Nat2Z.id, Hc. step.
    replace (Z.of_nat i + 1) with (Z.of_nat (S i)) by lia.
    rewrite (drop_S _ _ _ Hc). cbn [take count_slots].
    rewrite IH.
    + f_equal. destruct (c =? e); [|lia]. rewrite wrap_small by lia. lia.
    + intros k Hk. apply Hinit. lia.
    + destruct (c =? e); [|lia]. pose proof (wrap_range (o + 1)). lia.
    + destruct (c =? e); [|lia]. rewrite wrap_small by lia. lia.
Qed.

Lemma contains_value_loop_spec (b : list cell) e cmp n : ∀ i o,
  (∀ k, (i ≤ k < i + n)%nat → ∃ c, b !! k = Some (Some c)) →
  0 ≤ o → o + Z.of_nat n ≤ SIZE_MAX →
  contains_value_loop n (Z.of_nat i) b e cmp o
  = Ret (o + count_slots (λ p, cmp e p =? 0) (take n (drop i b))).
Proof.
  induction n as [|n IH]; intros i o Hinit Ho Hmax.
  - rewrite take_0. cbn [contains_loop contains_value_loop count_slots].
    f_equal. lia.
  - destruct (Hinit i ltac:(lia)) as [c Hc].
    assert (Hlen : (i < length b)%nat) by (by eapply lookup_lt_Some).
    cbn [contains_value_loop].
    rewrite load_ok by lia. rewrite Nat2Z.id, Hc. step.
    replace (Z.of_nat i + 1) with (Z.of_nat (S i)) by lia.
    rewrite (drop_S _ _ _ Hc). cbn [take count_slots].
    rewrite IH.
    + f_equal. destruct (cmp e c =? 0); [|lia]. rewrite wrap_small by lia. lia.
    + intros k Hk. apply Hinit. lia.
    + destruct (cmp e c =? 0); [|lia]. pose proof (wrap_range (o + 1)). lia.
    + destruct (cmp e c =? 0); [|lia]. rewrite wrap_small by lia. lia.
Qed.

Lemma contains_counts ar e :
  wf ar → initialized ar →
  cc_array_contains ar e = Ret (count_slots (λ p, p =? e) (elements ar)).
Proof.
  intros Hwf Hinit. pose proof Hwf as (H0 & H1 & H2 & H3).
  unfold sizeof_ptr in H3. unfold cc_array_contains.
  change 0 with (Z.of_nat 0) at 1.
  rewrite (contains_loop_spec (buffer ar) e (Z.to_nat (size ar)) 0 0).
  - by rewrite drop_0.
  - intros k Hk. apply initialized_buffer; [done..|lia].
  - done.
  - lia.
Qed.

(** X6. On an array whose live slots have all been written, [contains]
    returns the number of live slots that hold the element (by pointer
    equality): a number between 0 and the size, and 0 exactly when the
    element is not stored, which is exactly when [index_of] answers
    [CC_ERR_OUT_OF_RANGE]. *)
Theorem array_contains_spec ar e :
  wf ar → initialized ar →
  cc_array_contains ar e = Ret (count_slots (λ p, p =? e) (elements ar))
  ∧ 0 ≤ count_slots (λ p, p =? e) (elements ar) ≤ size ar
  ∧ (count_slots (λ p, p =? e) (elements ar) = 0 ↔ Some e ∉ elements ar)
  ∧ (cc_array_contains ar e = Ret 0
     ↔ cc_array_index_of ar e = Ret (CC_ERR_OUT_OF_RANGE, None)).
Proof.
  intros Hwf Hinit. pose proof Hwf as (H0 & H1 & H2 & H3).
  unfold sizeof_ptr in H3.
  pose proof (contains_counts ar e Hwf Hinit) as Hrun.
  assert (Hzero : count_slots (λ p, p =? e) (elements ar) = 0
                  ↔ Some e ∉ elements ar).
  { rewrite count_slots_zero. split.
    - intros Hall Hin. specialize (Hall e Hin). cbn in Hall.
      by rewrite Z.eqb_refl in Hall.
    - intros Hno p Hp. apply Z.eqb_neq. by intros ->. }
  split; [done|]. split.
  { pose proof (count_slots_bounds (λ p, p =? e) (elements ar)).
    pose proof (elements_length ar Hwf). lia. }
  split; [done|].
  rewrite Hrun. split.
  - intros [= Hc]. apply index_of_absent; [done..|]. by apply Hzero.
  - intros Hidx. f_equal. apply Hzero. intros Hin.
    apply list_elem_of_split_l in Hin as (l1 & l2 & Hel & Hno).
    rewrite (index_of_first ar e l1 l2) in Hidx by done. done.
Qed.

Lemma array_contains_spec_witness :
  cc_array_contains full8 105 = Ret 1 ∧ cc_array_contains full8 7 = Ret 0.
Proof.
  destruct (array_contains_spec full8 105 full8_wf full8_initialized)
    as (H1 & _).
  destruct (array_contains_spec full8 7 full8_wf full8_initialized)
    as (H2 & _).
  split; [exact H1|exact H2].
Defined.

(** X7. On an array whose live slots have all been written,
    [contains_value] returns the number of live slots whose element the
    comparator, called with the sought element first, finds equal (returns
    0 for).  With a comparator that returns 0 exactly on the same pointer it
    returns what [contains] returns. *)
Theorem array_contains_value_spec ar e cmp :
  wf ar → initialized ar →
  cc_array_contains_value ar e cmp
  = Ret (count_slots (λ p, cmp e p =? 0) (elements ar))
  ∧ 0 ≤ count_slots (λ p, cmp e p =? 0) (elements ar) ≤ size ar
  ∧ ((∀ p, cmp e p = 0 ↔ p = e) →
     cc_array_contains_value ar e cmp = cc_array_contains ar e).
Proof.
  intros Hwf Hinit. pose proof Hwf as (H0 & H1 & H2 & H3).
  unfold sizeof_ptr in H3.
  assert (Hrun : cc_array_contains_value ar e cmp
                 = Ret (count_slots (λ p, cmp e p =? 0) (elements ar))).
  { unfold cc_array_contains_value. change 0 with (Z.of_nat 0) at 1.
    rewrite (contains_value_loop_spec (buffer ar) e cmp
               (Z.to_nat (size ar)) 0 0).
    - by rewrite drop_0.
    - intros k Hk. apply initialized_buffer; [done..|lia].
    - done.
    - lia. }
  split; [done|]. split.
  { pose proof (count_slots_bounds (λ p, cmp e p =? 0) (elements ar)).
    pose proof (elements_length ar Hwf). lia. }
  intros Hcmp. rewrite Hrun.
  rewrite (contains_counts ar e Hwf Hinit).
  f_equal. apply count_slots_ext. intros p _.
  destruct (cmp e p =? 0) eqn:E1, (p =? e) eqn:E2; try done.
  - apply Z.eqb_eq, Hcmp in E1. apply Z.eqb_neq in E2. done.
  - apply Z.eqb_eq in E2. apply Z.eqb_neq in E1. destruct E1. by apply Hcmp.
Qed.

Lemma array_contains_value_spec_witness :
  cc_array_contains_value full8 105 (λ a b, a mod 2 - b mod 2) = Ret 4
  ∧ cc_array_contains_value full8 105 Z.sub = cc_array_contains full8 105.
Proof.
  destruct (array_contains_value_spec full8 105 (λ a b, a mod 2 - b mod 2)
              full8_wf full8_initialized) as (H1 & _).
  destruct (array_contains_value_spec full8 105 Z.sub
              full8_wf full8_initialized) as (_ & _ & H2).
  split; [exact H1|]. apply H2. intros p. lia.
Defined.

(** X8. [subarray(b, e)] answers [CC_ERR_INVALID_RANGE] exactly when
    [b > e] or [e] is at or above the size, and [CC_ERR_ALLOC] when one of
    its two allocations fails; in both cases no array is delivered.
    Otherwise the new array holds the [e - b + 1] elements of
    [[b, e]] in their order, with that size and that capacity. *)
Theorem array_subarray_spec a1 a2 ar b e :
  wf ar → 0 ≤ b → 0 ≤ e →
  (e < b ∨ size ar ≤ e →
   cc_array_subarray a1 a2 ar b e = Ret (CC_ERR_INVALID_RANGE, None))
  ∧ (b ≤ e < size ar →
     (a1 = false ∨ a2 = false →
      cc_array_subarray a1 a2 ar b e = Ret (CC_ERR_ALLOC, None))
     ∧ (a1 = true → a2 = true →
        ∃ sub, cc_array_subarray a1 a2 ar b e = Ret (CC_OK, Some sub)
          ∧ wf sub ∧ size sub = e - b + 1 ∧ capacity sub = e - b + 1
          ∧ elements sub
            = take (Z.to_nat (e - b + 1)) (drop (Z.to_nat b) (elements ar))
          ∧ ∀ k, 0 ≤ k ≤ e - b → get sub k = get ar (b + k))).
Proof.
  intros Hwf Hb He. pose proof Hwf as (H0 & H1 & H2 & H3).
  unfold sizeof_ptr in H3. assert (0 ≤ SIZE_MAX) by done. split.
  - intros Hbad. unfold cc_array_subarray.
    replace ((e <? b) || (size ar <=? e)) with true; [done|].
    symmetry. apply orb_true_iff. rewrite Z.ltb_lt, Z.leb_le. done.
  - intros Hr.
    assert (Hin : (e <? b) || (size ar <=? e) = false).
    { apply orb_false_iff. rewrite Z.ltb_ge, Z.leb_gt. lia. }
    split.
    + intros [-> | ->]; unfold cc_array_subarray; rewrite Hin; [done|].
      by destruct a1.
    + intros -> ->.
      assert (Hex : ∃ sub,
        cc_array_subarray true true ar b e = Ret (CC_OK, Some sub)).
      { unfold cc_array_subarray. rewrite Hin. cbn [negb]. unfold malloc.
        rewrite (wrap_small (capacity ar * sizeof_ptr))
          by (unfold sizeof_ptr; lia).
        rewrite slots_of_bytes.
        rewrite (wrap_small (e - b)) by lia.
        rewrite (wrap_small (e - b + 1)) by lia.
        rewrite (wrap_small ((e - b + 1) * sizeof_ptr))
          by (unfold sizeof_ptr; lia).
        rewrite copy_slots_ok; [step; eauto|lia..| |].
        - lia.
        - rewrite length_replicate. lia. }
      destruct Hex as [sub Hsub]. exists sub. split; [done|].
      destruct (subarray_OK true true ar b e sub Hwf Hb Hsub)
        as (_ & Hwf' & Hsc & Hs & Hel).
      split; [done|]. split; [done|]. split; [lia|]. split; [done|].
      intros k Hk. rewrite !get_elements by (done || lia). rewrite Hel.
      rewrite lookup_take_lt by lia. rewrite lookup_drop. f_equal. lia.
Qed.

Lemma array_subarray_spec_witness :
  let src := mkArray 4 8 (F_fin false 2 0)
               [Some 1; Some 2; Some 3; Some 4; None; None; None; None] in
  (∃ sub, cc_array_subarray true true src 1 2 = Ret (CC_OK, Some sub)
     ∧ elements sub = [Some 2; Some 3] ∧ capacity sub = 2)
  ∧ cc_array_subarray true true src 2 4 = Ret (CC_ERR_INVALID_RANGE, None).
Proof.
  intros src.
  assert (Hwf : wf src).
  { unfold wf, src, sizeof_ptr, SIZE_MAX, SIZE_MODULUS.
    cbn [size capacity buffer length]. lia. }
  split.
  - destruct (array_subarray_spec true true src 1 2 Hwf ltac:(done) ltac:(done))
      as [_ H].
    destruct H as [_ H]; [done|].
    destruct (H eq_refl eq_refl) as (sub & Hr & _ & _ & Hc & Hel & _).
    by exists sub.
  - destruct (array_subarray_spec true true src 2 4 Hwf ltac:(done) ltac:(done))
      as [H _].
    apply H. right. done.
Defined.

(** X9. [copy_shallow] answers [CC_ERR_ALLOC] and delivers no array when
    one of its two allocations fails.  Otherwise the copy has the size, the
    capacity and the growth factor of the source and holds the same
    elements in the same order, in a block of its own whose slots from the
    size on are zeroed. *)
Theorem array_copy_shallow_spec a1 a2 ar :
  wf ar →
  (a1 = false ∨ a2 = false →
   cc_array_copy_shallow a1 a2 ar = Ret (CC_ERR_ALLOC, None))
  ∧ (a1 = true → a2 = true →
     ∃ copy, cc_array_copy_shallow a1 a2 ar = Ret (CC_OK, Some copy)
       ∧ wf copy ∧ size copy = size ar ∧ capacity copy = capacity ar
       ∧ exp_factor copy = exp_factor ar
       ∧ elements copy = elements ar
       ∧ Z.of_nat (length (buffer copy)) = capacity ar
       ∧ ∀ k, size ar ≤ k < capacity ar →
           buffer copy !! Z.to_nat k = Some (Some NULL)).
Proof.
  intros Hwf. pose proof Hwf as (H0 & H1 & H2 & H3).
  unfold sizeof_ptr in H3. assert (0 ≤ SIZE_MAX) by done. split.
  - intros [-> | ->]; unfold cc_array_copy_shallow; [done|].
    destruct a1; [|done]. cbn [negb]. unfold calloc. done.
  - intros -> ->. unfold cc_array_copy_shallow. cbn [negb]. unfold calloc.
    replace (capacity ar * sizeof_ptr <=? SIZE_MAX) with true
      by (symmetry; apply Z.leb_le; unfold sizeof_ptr; lia).
    cbn [andb].
    rewrite (wrap_small (size ar * sizeof_ptr)) by (unfold sizeof_ptr; lia).
    rewrite copy_slots_ok by (rewrite ?length_replicate; lia). step.
    eexists. split; [done|].
    rewrite take_0, drop_0, app_nil_l. rewrite Z.add_0_l.
    assert (Hl : Z.of_nat (length (take (Z.to_nat (size ar)) (buffer ar)
                   ++ drop (Z.to_nat (size ar))
                        (replicate (Z.to_nat (capacity ar)) (Some NULL))))
                 = capacity ar).
    { rewrite length_app, length_take, length_drop, length_replicate. lia. }
    split.
    { unfold wf, sizeof_ptr. cbn [size capacity buffer]. rewrite Hl. lia. }
    split; [done|]. split; [done|]. split; [done|].
    split.
    { unfold elements. cbn [size buffer].
      rewrite take_app_length' by (rewrite length_take; lia). done. }
    split; [done|].
    intros k Hk. cbn [buffer].
    rewrite lookup_app_r by (rewrite length_take; lia).
    rewrite length_take, lookup_drop.
    apply lookup_replicate_2. lia.
Qed.

Lemma array_copy_shallow_spec_witness :
  ∃ copy, cc_array_copy_shallow true true full8 = Ret (CC_OK, Some copy)
    ∧ elements copy = elements full8 ∧ capacity copy = 8.
Proof.
  destruct (array_copy_shallow_spec true true full8 full8_wf) as [_ H].
  destruct (H eq_refl eq_refl) as (copy & Hr & _ & _ & Hc & _ & Hel & _).
  by exists copy.
Defined.

(** X10. [trim_capacity] on an array that holds at least one element:
    when the size equals the capacity it does nothing; when the allocation
    fails it answers [CC_ERR_ALLOC] and changes nothing; otherwise it moves
    the elements, unchanged and in order, to a block of exactly [size]
    slots and sets the capacity to the size. *)
Theorem array_trim_capacity_spec ar :
  wf ar → 1 ≤ size ar →
  (size ar = capacity ar →
   ∀ ok, cc_array_trim_capacity ok ar = Ret (CC_OK, ar))
  ∧ (size ar < capacity ar →
     cc_array_trim_capacity false ar = Ret (CC_ERR_ALLOC, ar)
     ∧ ∃ ar', cc_array_trim_capacity true ar = Ret (CC_OK, ar')
         ∧ wf ar' ∧ size ar' = size ar ∧ capacity ar' = size ar
         ∧ exp_factor ar' = exp_factor ar
         ∧ elements ar' = elements ar
         ∧ Z.of_nat (length (buffer ar')) = size ar).
Proof.
  intros Hwf Hs. pose proof Hwf as (H0 & H1 & H2 & H3).
  unfold sizeof_ptr in H3. assert (0 ≤ SIZE_MAX) by done. split.
  - intros Heq ok. unfold cc_array_trim_capacity.
    by replace (size ar =? capacity ar) with true
      by (symmetry; apply Z.eqb_eq; lia).
  - intros Hlt.
    assert (Hne : (size ar =? capacity ar) = false) by (apply Z.eqb_neq; lia).
    split.
    { unfold cc_array_trim_capacity. rewrite Hne. done. }
    unfold cc_array_trim_capacity. rewrite Hne. unfold calloc.
    replace (size ar * sizeof_ptr <=? SIZE_MAX) with true
      by (symmetry; apply Z.leb_le; unfold sizeof_ptr; lia).
    cbn [andb].
    replace (size ar <? 1) with false by (symmetry; apply Z.ltb_ge; lia).
    rewrite (wrap_small (size ar * sizeof_ptr)) by (unfold sizeof_ptr; lia).
    rewrite copy_slots_ok by (rewrite ?length_replicate; lia). step.
    eexists. split; [done|].
    rewrite take_0, drop_0, app_nil_l, Z.add_0_l.
    rewrite (drop_ge (replicate _ _)) by (rewrite length_replicate; lia).
    rewrite app_nil_r.
    assert (Hl : Z.of_nat (length (take (Z.to_nat (size ar)) (buffer ar)))
                 = size ar) by (rewrite length_take; lia).
    split.
    { unfold wf, sizeof_ptr.
      cbn [size capacity buffer set_buffer set_capacity]. rewrite Hl. lia. }
    split; [done|]. split; [done|]. split; [done|].
    split; [|done].
    unfold elements. cbn [size capacity buffer set_buffer set_capacity].
    rewrite take_take. f_equal. lia.
Qed.

Lemma array_trim_capacity_spec_witness :
  let ar := mkArray 3 4 (F_fin false 2 0) [Some 11; Some 12; Some 13; None] in
  ∃ ar', cc_array_trim_capacity true ar = Ret (CC_OK, ar')
    ∧ capacity ar' = 3 ∧ elements ar' = [Some 11; Some 12; Some 13].
Proof.
  intros ar.
  assert (Hwf : wf ar).
  { unfold wf, ar, sizeof_ptr, SIZE_MAX, SIZE_MODULUS.
    cbn [size capacity buffer length]. lia. }
  destruct (array_trim_capacity_spec ar Hwf ltac:(done)) as [_ H].
  destruct H as [_ (ar' & Hr & _ & _ & Hc & _ & Hel & _)]; [done|].
  by exists ar'.
Defined.

(** X11. [remove_all] only resets the size: the capacity and the block
    stay, no element is left, every [get_at] answers
    [CC_ERR_OUT_OF_RANGE], and the next [add] puts its element at index 0
    in the same block without asking the allocator. *)
Theorem array_remove_all_spec ar :
  wf ar →
  wf (cc_array_remove_all ar)
  ∧ size (cc_array_remove_all ar) = 0
  ∧ capacity (cc_array_remove_all ar) = capacity ar
  ∧ buffer (cc_array_remove_all ar) = buffer ar
  ∧ elements (cc_array_remove_all ar) = []
  ∧ (∀ i out, 0 ≤ i →
       cc_array_get_at (cc_array_remove_all ar) i out
       = Ret (CC_ERR_OUT_OF_RANGE, out))
  ∧ (0 < capacity ar → ∀ M ok e,
       ∃ ar', cc_array_add M ok (cc_array_remove_all ar) e = Ret (CC_OK, ar')
         ∧ size ar' = 1 ∧ capacity ar' = capacity ar
         ∧ elements ar' = [Some e]).
Proof.
  intros Hwf. pose proof Hwf as (H0 & H1 & H2 & H3).
  unfold sizeof_ptr in H3. assert (0 ≤ SIZE_MAX) by done.
  assert (Hwf' : wf (cc_array_remove_all ar)).
  { unfold wf, sizeof_ptr, cc_array_remove_all.
    cbn [size capacity buffer set_size]. lia. }
  split; [done|]. split; [done|]. split; [done|]. split; [done|].
  split; [done|]. split.
  { intros i out Hi. by apply get_at_out_of_range. }
  intros Hcap M ok e.
  rewrite add_unfold. rewrite ensure_room_ready by done. step.
  destruct (decide (CC_OK ≠ CC_OK)); [done|].
  rewrite append_body_ok by (cbn [size capacity buffer cc_array_remove_all set_size]; lia).
  eexists. split; [done|]. split; [done|]. split; [done|].
  unfold elements, cc_array_remove_all.
  cbn [size capacity buffer set_size].
  destruct (buffer ar) as [|x b]; [cbn [length] in H2; lia|done].
Qed.

Lemma array_remove_all_spec_witness :
  size (cc_array_remove_all full8) = 0
  ∧ capacity (cc_array_remove_all full8) = 8
  ∧ ∃ ar', cc_array_add 0 false (cc_array_remove_all full8) 7
           = Ret (CC_OK, ar') ∧ elements ar' = [Some 7].
Proof.
  destruct (array_remove_all_spec full8 full8_wf)
    as (_ & Hs & Hc & _ & _ & _ & Hadd).
  split; [exact Hs|]. split; [exact Hc|].
  destruct (Hadd ltac:(done) 0 false 7) as (ar' & Hr & _ & _ & Hel).
  by exists ar'.
Defined.

Lemma grown_ge M ar c :
  capacity ar ≤ M → grown M ar = Some c → capacity ar ≤ c.
Proof.
  intros HM. unfold grown.
  destruct (to_size_t _) as [nc|]; [|done]. cbn.
  intros [= <-]. destruct (nc <=? capacity ar) eqn:E; [done|].
  apply Z.leb_gt in E. lia.
Qed.

Lemma ensure_room_capacity M ok ar st ar1 :
  wf ar → capacity ar ≤ M → ensure_room M ok ar = Ret (st, ar1) →
  capacity ar ≤ capacity ar1 ∧ (size ar < capacity ar → ar1 = ar).
Proof.
  intros Hwf HM Hr. pose proof Hwf as (H0 & H1 & H2 & H3).
  unfold sizeof_ptr in H3. unfold ensure_room in Hr.
  destruct (capacity ar <=? size ar) eqn:E.
  - apply Z.leb_le in E. split; [|lia].
    apply expand_Ret in Hr; [|lia..].
    destruct Hr as [(_ & _ & ->)|(_ & c & Hg & [(_ & _ & ->)|(_ & _ & _ & _ & ->)])];
      [lia|..]; cbn [capacity set_capacity]; by apply (grown_ge M ar).
  - by injection Hr as <- <-.
Qed.

(** X12. Neither [add] nor [add_at] ever lowers the capacity, whatever
    status the call returns, as long as the capacity is within
    [CC_MAX_ELEMENTS]; while there is room the capacity stays as it is. *)
Theorem array_capacity_monotone M ok ar e i st ar' :
  wf ar → capacity ar ≤ M → 0 ≤ i →
  (cc_array_add M ok ar e = Ret (st, ar') →
   capacity ar ≤ capacity ar'
   ∧ (size ar < capacity ar → capacity ar' = capacity ar))
  ∧ (cc_array_add_at M ok ar e i = Ret (st, ar') →
     capacity ar ≤ capacity ar'
     ∧ (size ar < capacity ar → capacity ar' = capacity ar)).
Proof.
  intros Hwf HM Hi. pose proof Hwf as (H0 & H1 & H2 & H3).
  unfold sizeof_ptr in H3. assert (0 ≤ SIZE_MAX) by done.
  assert (Hadd : cc_array_add M ok ar e = Ret (st, ar') →
    capacity ar ≤ capacity ar'
    ∧ (size ar < capacity ar → capacity ar' = capacity ar)).
  { rewrite add_unfold.
    destruct (ensure_room M ok ar) as [[st1 ar1]| |] eqn:Hr; [|done..]. step.
    destruct (ensure_room_capacity M ok ar st1 ar1 Hwf HM Hr) as [Hle Hsame].
    destruct (decide (st1 ≠ CC_OK)) as [Hst|Hst].
    - intros [= _ <-]. split; [done|]. intros Hlt. by rewrite Hsame.
    - apply dec_stable in Hst as ->.
      apply ensure_room_OK in Hr as (Hs & _ & _ & Hl1 & Hl2); [|done].
      intros Ha. apply append_body_Ret in Ha as (_ & _ & ->); [|lia..].
      cbn [capacity]. split; [done|]. intros Hlt. by rewrite Hsame. }
  split; [done|].
  unfold cc_array_add_at. destruct (i =? size ar) eqn:Ei; [done|].
  apply Z.eqb_neq in Ei.
  destruct (((size ar =? 0) && negb (i =? 0)) || (wrap (size ar - 1) <? i))
    eqn:Eo.
  { intros [= _ <-]. done. }
  apply orb_false_iff in Eo as [Eo1 Eo2]. apply Z.ltb_ge in Eo2.
  assert (Hs0 : size ar ≠ 0).
  { intros Hz. rewrite Hz in Eo1, Ei. cbn in Eo1.
    apply negb_false_iff, Z.eqb_eq in Eo1. lia. }
  rewrite wrap_small in Eo2 by lia.
  fold (ensure_room M ok ar). fold (insert_body).
  destruct (ensure_room M ok ar) as [[st1 ar1]| |] eqn:Hr; [|done..]. step.
  destruct (ensure_room_capacity M ok ar st1 ar1 Hwf HM Hr) as [Hle Hsame].
  destruct (decide (st1 ≠ CC_OK)) as [Hst|Hst].
  - intros [= _ <-]. split; [done|]. intros Hlt. by rewrite Hsame.
  - apply dec_stable in Hst as ->.
    apply ensure_room_OK in Hr as (Hs & _ & _ & Hl1 & Hl2); [|done].
    intros Ha. change (insert_body ar1 e i = Ret (st, ar')) in Ha.
    apply insert_body_Ret in Ha as (_ & _ & _ & Hc & _); [|lia..].
    rewrite Hc. split; [done|]. intros Hlt. by rewrite Hsame.
Qed.

Lemma array_capacity_monotone_witness :
  ∃ ar', cc_array_add (2 ^ 64 - 2) false full8 109 = Ret (CC_ERR_ALLOC, ar')
    ∧ 8 ≤ capacity ar'.
Proof.
  exists (set_capacity full8 16). split; [reflexivity|].
  destruct (array_capacity_monotone (2 ^ 64 - 2) false full8 109 0
              CC_ERR_ALLOC (set_capacity full8 16)
              full8_wf ltac:(done) ltac:(done)) as [H _].
  by destruct (H eq_refl).
Defined.

Lemma add_at_block M ok ar e i ar' :
  wf ar → 0 ≤ i ≤ size ar →
  cc_array_add_at M ok ar e i = Ret (CC_OK, ar') →
  size ar' = size ar + 1
  ∧ elements ar' = take (Z.to_nat i) (elements ar)
                   ++ Some e :: drop (Z.to_nat i) (elements ar)
  ∧ size ar' ≤ Z.of_nat (length (buffer ar'))
  ∧ Z.of_nat (length (buffer ar')) * 8 ≤ SIZE_MAX.
Proof.
  intros Hwf Hi. pose proof Hwf as (H0 & H1 & H2 & H3).
  unfold sizeof_ptr in H3.
  destruct (decide (i = size ar)) as [->|Hne].
  - unfold cc_array_add_at. rewrite Z.eqb_refl, add_unfold.
    destruct (ensure_room M ok ar) as [[st ar1]| |] eqn:Hr; [|done..]. step.
    destruct (decide (st ≠ CC_OK)) as [Hst|Hst]; [by intros [= -> _]|].
    apply dec_stable in Hst as ->.
    apply ensure_room_OK in Hr as (Hs & _ & He & Hl1 & Hl2); [|done].
    intros Ha. apply append_body_Ret in Ha as (Hlt & _ & ->); [|lia..].
    cbn [size buffer]. rewrite append_elements by lia.
    rewrite length_insert, He, Hs.
    pose proof (elements_length ar Hwf).
    rewrite take_ge, drop_ge by lia. repeat split; lia.
  - rewrite add_at_unfold by lia.
    destruct (ensure_room M ok ar) as [[st ar1]| |] eqn:Hr; [|done..]. step.
    destruct (decide (st ≠ CC_OK)) as [Hst|Hst]; [by intros [= -> _]|].
    apply dec_stable in Hst as ->.
    apply ensure_room_OK in Hr as (Hs & _ & He & Hl1 & Hl2); [|done].
    intros Ha. apply insert_body_Ret in Ha
      as (Hlt & _ & Hs' & _ & _ & Hlen & Hel); [|lia..].
    rewrite Hel, He, Hs', Hs, Hlen. repeat split; lia.
Qed.

(** X13. A successful [add_at(e, i)] (which for [i = size] is [add])
    followed by [remove_at(i)] hands back [e] and leaves the elements and
    the size as they were before the two calls; the capacity stays as the
    insertion left it. *)
Theorem array_add_at_remove_at M ok ar e i ar1 :
  wf ar → 0 ≤ i ≤ size ar →
  cc_array_add_at M ok ar e i = Ret (CC_OK, ar1) →
  ∃ ar2, cc_array_remove_at ar1 i (Slot None)
         = Ret (CC_OK, ar2, Slot (Some e))
    ∧ size ar2 = size ar ∧ capacity ar2 = capacity ar1
    ∧ elements ar2 = elements ar.
Proof.
  intros Hwf Hi Hadd. pose proof Hwf as (H0 & H1 & H2 & H3).
  destruct (add_at_block M ok ar e i ar1 Hwf Hi Hadd) as (Hs & Hel & Hl & Hb).
  pose proof (elements_length ar Hwf) as Hlen.
  destruct (remove_slot_block ar1 i ltac:(lia) Hl Hb)
    as (ar2 & Hr & Hs2 & Hc2 & _ & _ & Hel2).
  assert (Hti : length (take (Z.to_nat i) (elements ar)) = Z.to_nat i)
    by (rewrite length_take; lia).
  assert (Hlk : buffer ar1 !! Z.to_nat i = Some (Some e)).
  { assert (elements ar1 !! Z.to_nat i = Some (Some e)) as Hx.
    { rewrite Hel. rewrite <- Hti at 1. apply list_lookup_middle. done. }
    unfold elements in Hx. by rewrite lookup_take_lt in Hx by lia. }
  exists ar2. split.
  { unfold cc_array_remove_at.
    replace (size ar1 <=? i) with false by (symmetry; apply Z.leb_gt; lia).
    step. rewrite load_ok by lia. rewrite Hlk. step. rewrite Hr. done. }
  split; [lia|]. split; [done|].
  rewrite Hel2, Hel. rewrite <- Hti at 1. rewrite delete_middle.
  apply take_drop.
Qed.

Lemma array_add_at_remove_at_witness :
  let ar := mkArray 3 4 (F_fin false 2 0) [Some 11; Some 12; Some 13; None] in
  ∃ ar1 ar2, cc_array_add_at 0 false ar 99 1 = Ret (CC_OK, ar1)
    ∧ cc_array_remove_at ar1 1 (Slot None) = Ret (CC_OK, ar2, Slot (Some 99))
    ∧ elements ar2 = [Some 11; Some 12; Some 13].
Proof.
  intros ar.
  assert (Hwf : wf ar).
  { unfold wf, ar, sizeof_ptr, SIZE_MAX, SIZE_MODULUS.
    cbn [size capacity buffer length]. lia. }
  eexists.
  destruct (array_add_at_remove_at 0 false ar 99 1 _ Hwf ltac:(done) eq_refl)
    as (ar2 & Hr & _ & _ & Hel).
  exists ar2. split; [reflexivity|]. split; [exact Hr|exact Hel].
Defined.

(** Powers of two are exact in single precision. *)
Lemma pow2_exact j : 0 ≤ j ≤ 63 → exact (2 ^ j).
Proof.
  intros Hj.
  assert (Hall : forallb (λ k : nat,
            match to_size_t (of_size_t (2 ^ Z.of_nat k)) with
            | Some c => c =? 2 ^ Z.of_nat k
            | None => false
            end) (seq 0 64) = true) by (vm_compute; reflexivity).
  rewrite forallb_forall in Hall.
  specialize (Hall (Z.to_nat j)). rewrite Z2Nat.id in Hall by lia.
  unfold exact.
  destruct (to_size_t (of_size_t (2 ^ j))) as [c|].
  - f_equal. apply Z.eqb_eq. apply Hall. apply in_seq. lia.
  - discriminate Hall. apply in_seq. lia.
Qed.

Lemma grown_pow2 M ar j :
  0 ≤ j ≤ 62 → capacity ar = 2 ^ j → exp_factor ar = F_fin false 2 0 →
  grown M ar = Some (2 ^ (j + 1)).
Proof.
  intros Hj Hc Hf. unfold grown. rewrite Hc, Hf, <- f_two_eq.
  assert (0 < 2 ^ j) by (apply Z.pow_pos_nonneg; lia).
  assert (2 ^ (j + 1) = 2 * 2 ^ j) as Hp
    by (rewrite Z.pow_add_r by lia; change (2 ^ 1) with 2; lia).
  assert (2 ^ j ≤ 2 ^ 62) by (apply Z.pow_le_mono_r; lia).
  rewrite mul_two_exact.
  - cbn. replace (2 * 2 ^ j <=? 2 ^ j) with false
      by (symmetry; apply Z.leb_gt; lia).
    by rewrite Hp.
  - lia.
  - unfold SIZE_MODULUS. change (2 ^ 64) with (4 * 2 ^ 62). lia.
  - apply pow2_exact. lia.
Qed.

Lemma add_all_grows M ok : 2 ^ 60 ≤ M → ∀ es ar,
  wf ar → exp_factor ar = F_fin false 2 0 →
  (∃ j, 3 ≤ j ≤ 60 ∧ capacity ar = 2 ^ j) →
  (size ar ≤ 8 → capacity ar = 8) →
  (8 < size ar → capacity ar < 2 * size ar) →
  size ar + Z.of_nat (length es) ≤ 2 ^ 60 →
  (ok = true ∨ size ar + Z.of_nat (length es) ≤ capacity ar) →
  ∃ ar', add_all M ok ar es = Ret (CC_OK, ar') ∧ wf ar'
    ∧ elements ar' = elements ar ++ (Some <$> es)
    ∧ size ar' = size ar + Z.of_nat (length es)
    ∧ (∃ j, 3 ≤ j ≤ 60 ∧ capacity ar' = 2 ^ j)
    ∧ (size ar' ≤ 8 → capacity ar' = 8)
    ∧ (8 < size ar' → capacity ar' < 2 * size ar').
Proof.
  intros HM es. induction es as [|e es IH];
    intros ar Hwf Hf Hpow Hsmall Hbig Hlen Hok.
  - exists ar. cbn [add_all length fmap list_fmap].
    rewrite app_nil_r, Z.add_0_r. done.
  - cbn [length] in Hlen, Hok. pose proof Hwf as (H0 & H1 & H2 & H3).
    unfold sizeof_ptr in H3. assert (0 ≤ SIZE_MAX) by done.
    destruct Hpow as (j & Hj & Hc).
    assert (0 < 2 ^ j) by (apply Z.pow_pos_nonneg; lia).
    assert (Hstep : ∃ ar1, cc_array_add M ok ar e = Ret (CC_OK, ar1)
      ∧ wf ar1 ∧ exp_factor ar1 = F_fin false 2 0
      ∧ elements ar1 = elements ar ++ [Some e]
      ∧ size ar1 = size ar + 1
      ∧ (∃ j, 3 ≤ j ≤ 60 ∧ capacity ar1 = 2 ^ j)
      ∧ (size ar1 ≤ 8 → capacity ar1 = 8)
      ∧ (8 < size ar1 → capacity ar1 < 2 * size ar1)
      ∧ (ok = true ∨ size ar1 + Z.of_nat (length es) ≤ capacity ar1)).
    { destruct (decide (size ar < capacity ar)) as [Hroom|Hfull].
      - exists (mkArray (size ar + 1) (capacity ar) (exp_factor ar)
                  (<[Z.to_nat (size ar) := Some e]> (buffer ar))).
        split.
        { rewrite add_unfold, ensure_room_ready by done. step.
          destruct (decide (CC_OK ≠ CC_OK)); [done|].
          by rewrite append_body_ok by lia. }
        split.
        { unfold wf, sizeof_ptr. cbn [size capacity buffer].
          rewrite length_insert. lia. }
        split; [done|]. split; [by rewrite append_elements by lia|].
        split; [done|]. cbn [size capacity].
        split; [by exists j|]. split; [lia|]. split; [lia|].
        destruct Hok as [Hok|Hok]; [by left|right; lia].
      - assert (Hsc : size ar = capacity ar) by lia.
        assert (ok = true) as -> by (destruct Hok as [Hok|Hok]; [done|lia]).
        assert (Hj59 : j ≤ 59).
        { destruct (decide (j ≤ 59)) as [?|Hgt]; [done|].
          assert (j = 60) as -> by lia. lia. }
        assert (Hp : 2 ^ (j + 1) = 2 * 2 ^ j)
          by (rewrite Z.pow_add_r by lia; change (2 ^ 1) with 2; lia).
        assert (Hle : 2 ^ j ≤ 2 ^ 59) by (apply Z.pow_le_mono_r; lia).
        assert (H8 : 2 ^ 3 ≤ 2 ^ j) by (apply Z.pow_le_mono_r; lia).
        change (2 ^ 3) with 8 in H8. change (2 ^ 59) with 576460752303423488 in Hle.
        change (2 ^ 60) with 1152921504606846976 in *.
        assert (HSM : SIZE_MAX = 18446744073709551615) by reflexivity.
        destruct (ensure_room_expand_ok M ar (2 ^ (j + 1)))
          as (ar1 & Hr & Hs1 & Hc1 & Hf1 & Hl1); [done|lia|lia| |lia|lia|].
        { apply (grown_pow2 M ar j); [lia|done..]. }
        pose proof Hr as Hr'.
        apply ensure_room_OK in Hr' as (_ & _ & He1 & _ & _); [|done].
        exists (mkArray (size ar1 + 1) (capacity ar1) (exp_factor ar1)
                  (<[Z.to_nat (size ar1) := Some e]> (buffer ar1))).
        split.
        { rewrite add_unfold, Hr. step.
          destruct (decide (CC_OK ≠ CC_OK)); [done|].
          by rewrite append_body_ok by lia. }
        split.
        { unfold wf, sizeof_ptr. cbn [size capacity buffer].
          rewrite length_insert. lia. }
        split; [by rewrite Hf1|]. split.
        { rewrite append_elements by lia. by rewrite He1. }
        split; [cbn [size]; lia|]. cbn [size capacity].
        split; [exists (j + 1); split; [lia|by rewrite Hc1]|].
        split; [lia|]. split; [lia|]. by left. }
    destruct Hstep as (ar1 & Hadd & Hwf1 & Hf1 & Hel1 & Hs1 & Hpow1 & Hsm1
                       & Hbg1 & Hok1).
    destruct (IH ar1 Hwf1 Hf1 Hpow1 Hsm1 Hbg1 ltac:(lia) Hok1)
      as (ar' & Hrun & Hwf' & Hel' & Hs' & Hpow' & Hsm' & Hbg').
    exists ar'. split.
    { cbn [add_all]. rewrite Hadd. step.
      by destruct (decide (CC_OK ≠ CC_OK)). }
    split; [done|]. split.
    { rewrite Hel', Hel1, <- app_assoc. done. }
    split; [cbn [length]; lia|]. done.
Qed.

Lemma add_all_room M ok ar es :
  wf ar → size ar + Z.of_nat (length es) ≤ capacity ar →
  add_all M ok ar es = add_all M true ar es.
Proof.
  revert ar. induction es as [|e es IH]; intros ar Hwf Hroom; [done|].
  cbn [length] in Hroom. pose proof Hwf as (H0 & H1 & H2 & H3).
  unfold sizeof_ptr in H3. assert (0 ≤ SIZE_MAX) by done.
  cbn [add_all]. rewrite !add_unfold, !ensure_room_ready by lia. step.
  destruct (decide (CC_OK ≠ CC_OK)); [done|].
  rewrite append_body_ok by lia. step.
  destruct (decide (CC_OK ≠ CC_OK)); [done|].
  apply IH.
  - unfold wf, sizeof_ptr. cbn [size capacity buffer].
    rewrite length_insert. lia.
  - cbn [size capacity]. lia.
Qed.

(** X14. Adding elements one after the other to a new array (with
    [CC_MAX_ELEMENTS] at least [2^60], and at most [2^60] elements): every
    [add] succeeds when the allocator does, the array holds the elements in
    the order they were added, and the capacity is 8 for up to eight
    elements and after that the power of two with
    [size <= capacity < 2 * size].  Up to eight elements no [add] asks the
    allocator for anything. *)
Theorem array_new_add_all M es ar0 :
  2 ^ 60 ≤ M → Z.of_nat (length es) ≤ 2 ^ 60 →
  cc_array_new true true = (CC_OK, Some ar0) →
  ∃ ar, add_all M true ar0 es = Ret (CC_OK, ar)
    ∧ wf ar ∧ elements ar = Some <$> es
    ∧ size ar = Z.of_nat (length es)
    ∧ (Z.of_nat (length es) ≤ 8 →
       capacity ar = 8 ∧ add_all M false ar0 es = Ret (CC_OK, ar))
    ∧ (8 < Z.of_nat (length es) →
       (∃ j, capacity ar = 2 ^ j)
       ∧ Z.of_nat (length es) ≤ capacity ar < 2 * Z.of_nat (length es)).
Proof.
  intros HM Hlen. rewrite empty8_is_new. intros [= <-].
  assert (Hwf : wf empty8).
  { unfold wf, empty8, sizeof_ptr, SIZE_MAX, SIZE_MODULUS.
    cbn [size capacity buffer]. rewrite length_replicate. lia. }
  assert (Hpow : ∃ j, 3 ≤ j ≤ 60 ∧ capacity empty8 = 2 ^ j)
    by (exists 3; split; [lia|reflexivity]).
  destruct (add_all_grows M true HM es empty8 Hwf eq_refl Hpow)
    as (ar & Hrun & Hwf' & Hel & Hs & (j & Hj & Hc) & Hsm & Hbg);
    [done|cbn [size empty8]; lia|cbn [size empty8]; lia|by left|].
  cbn [size empty8] in Hs. rewrite Z.add_0_l in Hs.
  exists ar. split; [done|]. split; [done|]. split; [done|].
  split; [done|]. split.
  - intros Hle. split; [apply Hsm; lia|].
    rewrite (add_all_room M false empty8 es Hwf); [done|].
    cbn [size capacity empty8]. lia.
  - intros Hgt. split; [by exists j|].
    pose proof Hwf' as (_ & H1 & _). specialize (Hbg ltac:(lia)). lia.
Qed.

Lemma array_new_add_all_witness :
  ∃ ar, add_all (2 ^ 64 - 2) true empty8
          [101; 102; 103; 104; 105; 106; 107; 108; 109] = Ret (CC_OK, ar)
    ∧ size ar = 9 ∧ capacity ar = 16.
Proof.
  destruct (array_new_add_all (2 ^ 64 - 2)
              [101; 102; 103; 104; 105; 106; 107; 108; 109] empty8
              ltac:(done) ltac:(done) empty8_is_new)
    as (ar & Hr & _ & _ & Hs & _ & Hc).
  exists ar. split; [exact Hr|]. split; [exact Hs|].
  destruct Hc as [[j Hj] Hb]; [done|].
  cbn [length] in Hb.
  assert (Hj0 : 0 ≤ j).
  { destruct (Z_lt_le_dec j 0) as [Hn|?]; [|done].
    rewrite Z.pow_neg_r in Hj by done. lia. }
  rewrite Hj in *.
  destruct (Z_le_gt_dec j 3) as [H3|H3].
  - assert (2 ^ j ≤ 2 ^ 3) by (apply Z.pow_le_mono_r; lia).
    change (2 ^ 3) with 8 in *. lia.
  - destruct (Z_le_gt_dec 5 j) as [H5|H5].
    + assert (2 ^ 5 ≤ 2 ^ j) by (apply Z.pow_le_mono_r; lia).
      change (2 ^ 5) with 32 in *. lia.
    + assert (j = 4) as -> by lia. reflexivity.
Defined.

Lemma free_loop_distinct (post : list cell) : ∀ ps pre live,
  NoDup ps → (∀ p, p ∈ ps → p ≠ NULL ∧ p ∈ live) →
  free_loop (length ps) (Z.of_nat (length pre))
    (pre ++ (Some <$> ps) ++ post) live
  = Ret (live ∖ list_to_set ps).
Proof.
  induction ps as [|p ps IH]; intros pre live Hnd Hin.
  - cbn [free_loop length list_to_set]. by rewrite difference_empty_L.
  - apply NoDup_cons in Hnd as [Hp Hnd].
    destruct (Hin p ltac:(apply list_elem_of_here)) as [Hnz Hlive].
    cbn [app length free_loop fmap list_fmap].
    rewrite load_ok by (rewrite !length_app; cbn [length]; lia).
    rewrite Nat2Z.id, list_lookup_middle by done. step.
    unfold free_element.
    replace (p =? NULL) with false by (symmetry; by apply Z.eqb_neq).
    destruct (decide (p ∈ live)); [|done]. step.
    replace (Z.of_nat (length pre) + 1) with (Z.of_nat (length (pre ++ [Some p])))
      by (rewrite length_app; cbn [length]; lia).
    replace (pre ++ Some p :: (Some <$> ps) ++ post)
      with ((pre ++ [Some p]) ++ (Some <$> ps) ++ post)
      by (by rewrite <- app_assoc).
    rewrite IH; [|done|].
    + cbn [list_to_set]. by rewrite difference_difference_l_L.
    + intros q Hq. destruct (Hin q ltac:(by apply list_elem_of_further)).
      split; [done|]. apply elem_of_difference. split; [done|].
      intros ->%elem_of_singleton. done.
Qed.

Lemma free_loop_released (post : list cell) p l3 : ∀ l2 pre live,
  p ≠ NULL → p ∉ live →
  free_loop (length (l2 ++ p :: l3)) (Z.of_nat (length pre))
    (pre ++ (Some <$> l2 ++ p :: l3) ++ post) live
  = Fault.
Proof.
  induction l2 as [|q l2 IH]; intros pre live Hnz Hp.
  - cbn [app length free_loop fmap list_fmap].
    rewrite load_ok by (rewrite !length_app; cbn [length]; lia).
    rewrite Nat2Z.id, list_lookup_middle by done. step.
    unfold free_element.
    replace (p =? NULL) with false by (symmetry; by apply Z.eqb_neq).
    by destruct (decide (p ∈ live)).
  - cbn [app length free_loop fmap list_fmap].
    rewrite load_ok by (rewrite !length_app; cbn [length]; lia).
    rewrite Nat2Z.id, list_lookup_middle by done. step.
    replace (Z.of_nat (length pre) + 1) with (Z.of_nat (length (pre ++ [Some q])))
      by (rewrite length_app; cbn [length]; lia).
    replace (pre ++ Some q :: (Some <$> l2 ++ p :: l3) ++ post)
      with ((pre ++ [Some q]) ++ (Some <$> l2 ++ p :: l3) ++ post)
      by (by rewrite <- app_assoc).
    unfold free_element. destruct (q =? NULL).
    + step. by apply IH.
    + destruct (decide (q ∈ live)); [|done]. step. apply IH; [done|].
      intros [? _]%elem_of_difference. done.
Qed.

Lemma free_loop_twice (post : list cell) p l2 l3 : ∀ l1 pre live,
  p ≠ NULL →
  free_loop (length (l1 ++ p :: l2 ++ p :: l3)) (Z.of_nat (length pre))
    (pre ++ (Some <$> l1 ++ p :: l2 ++ p :: l3) ++ post) live
  = Fault.
Proof.
  induction l1 as [|q l1 IH]; intros pre live Hnz.
  - cbn [app length free_loop fmap list_fmap].
    rewrite load_ok by (rewrite !length_app; cbn [length]; lia).
    rewrite Nat2Z.id, list_lookup_middle by done. step.
    replace (Z.of_nat (length pre) + 1) with (Z.of_nat (length (pre ++ [Some p])))
      by (rewrite length_app; cbn [length]; lia).
    replace (pre ++ Some p :: (Some <$> l2 ++ p :: l3) ++ post)
      with ((pre ++ [Some p]) ++ (Some <$> l2 ++ p :: l3) ++ post)
      by (by rewrite <- app_assoc).
    unfold free_element.
    replace (p =? NULL) with false by (symmetry; by apply Z.eqb_neq).
    destruct (decide (p ∈ live)); [|done]. step.
    apply free_loop_released; [done|].
    intros [_ Hn]%elem_of_difference. apply Hn. by apply elem_of_singleton.
  - cbn [app length free_loop fmap list_fmap].
    rewrite load_ok by (rewrite !length_app; cbn [length]; lia).
    rewrite Nat2Z.id, list_lookup_middle by done. step.
    replace (Z.of_nat (length pre) + 1) with (Z.of_nat (length (pre ++ [Some q])))
      by (rewrite length_app; cbn [length]; lia).
    replace (pre ++ Some q :: (Some <$> l1 ++ p :: l2 ++ p :: l3) ++ post)
      with ((pre ++ [Some q]) ++ (Some <$> l1 ++ p :: l2 ++ p :: l3) ++ post)
      by (by rewrite <- app_assoc).
    unfold free_element. destruct (q =? NULL).
    + step. by apply IH.
    + destruct (decide (q ∈ live)); [|done]. step. by apply IH.
Qed.

(** X15. [remove_all_free] passes every stored element to [free], in index
    order, and then resets the size.  When the elements are distinct
    non-null pointers to live blocks, all of these blocks are released and
    no other.  When a non-null pointer is stored twice the second [free] of
    it is a double free. *)
Theorem array_remove_all_free_spec ar ps live :
  wf ar → elements ar = Some <$> ps →
  (NoDup ps → (∀ p, p ∈ ps → p ≠ NULL ∧ p ∈ live) →
   cc_array_remove_all_free ar live
   = Ret (cc_array_remove_all ar, live ∖ list_to_set ps))
  ∧ (∀ p l1 l2 l3, p ≠ NULL → ps = l1 ++ p :: l2 ++ p :: l3 →
     cc_array_remove_all_free ar live = Fault).
Proof.
  intros Hwf Hel. pose proof (elements_length ar Hwf) as Hlen.
  rewrite Hel, length_fmap in Hlen.
  assert (Hb : buffer ar
               = [] ++ (Some <$> ps) ++ drop (Z.to_nat (size ar)) (buffer ar)).
  { rewrite <- Hel. unfold elements. cbn [app]. by rewrite take_drop. }
  assert (Hn : Z.to_nat (size ar) = length ps) by lia.
  unfold cc_array_remove_all_free. rewrite Hn. split.
  - intros Hnd Hin. rewrite Hb at 1.
    change 0 with (Z.of_nat (length (@nil cell))).
    by rewrite free_loop_distinct.
  - intros p l1 l2 l3 Hnz ->. rewrite Hb at 1.
    change 0 with (Z.of_nat (length (@nil cell))).
    by rewrite free_loop_twice.
Qed.

Lemma array_remove_all_free_spec_witness :
  cc_array_remove_all_free
    (mkArray 3 4 (F_fin false 2 0) [Some 16; Some 32; Some 48; None])
    {[16; 32; 48; 64]}
  = Ret (mkArray 0 4 (F_fin false 2 0) [Some 16; Some 32; Some 48; None],
         {[16; 32; 48; 64]} ∖ list_to_set [16; 32; 48])
  ∧ cc_array_remove_all_free
      (mkArray 3 4 (F_fin false 2 0) [Some 16; Some 32; Some 16; None])
      {[16; 32; 48; 64]}
    = Fault.
Proof.
  assert (Hwf : ∀ b, length b = 4%nat → wf (mkArray 3 4 (F_fin false 2 0) b)).
  { intros b Hb. unfold wf, sizeof_ptr, SIZE_MAX, SIZE_MODULUS.
    cbn [size capacity buffer]. rewrite Hb. lia. }
  split.
  - destruct (array_remove_all_free_spec
                (mkArray 3 4 (F_fin false 2 0) [Some 16; Some 32; Some 48; None])
                [16; 32; 48] {[16; 32; 48; 64]}
                (Hwf [Some 16; Some 32; Some 48; None] eq_refl) eq_refl)
      as [H _].
    apply H.
    + repeat (apply NoDup_cons; split;
        [intros Hx; repeat (apply elem_of_cons in Hx as [Hx|Hx]; [done|]);
         by apply elem_of_nil in Hx|]).
      apply NoDup_nil_2.
    + intros p Hp. rewrite !elem_of_union, !elem_of_singleton.
      repeat (apply elem_of_cons in Hp as [->|Hp]; [split; [done|tauto]|]).
      by apply elem_of_nil in Hp.
  - destruct (array_remove_all_free_spec
                (mkArray 3 4 (F_fin false 2 0) [Some 16; Some 32; Some 16; None])
                [16; 32; 16] {[16; 32; 48; 64]}
                (Hwf [Some 16; Some 32; Some 16; None] eq_refl) eq_refl)
      as [_ H].
    by apply (H 16 [] [32] []).
Defined.

End ArrayOps.

(** * More of the list *)
Module SListOps.
Import SList SListFacts.

(** The element at an index, and the elements before and after it. *)
Lemma contents_split h l ns i :
  repr h l ns → 0 ≤ i < size l →
  ∃ l1 node l2 nd, ns = l1 ++ node :: l2 ∧ Z.of_nat (length l1) = i
    ∧ h !! node = Some nd
    ∧ length (contents h l1) = length l1
    ∧ contents h ns = contents h l1 ++ data nd :: contents h l2.
Proof.
  intros Hrepr Hi. pose proof Hrepr as (Hseg & _ & Hsize).
  destruct (split_at_index ns i ltac:(lia)) as (l1 & node & l2 & -> & Hl1 & _).
  pose proof Hseg as (m & Hseg1 & (-> & nd & Hnode & _))%seg_app.
  exists l1, node, l2, nd. split; [done|]. split; [done|]. split; [done|].
  split; [by eapply contents_length|].
  by rewrite contents_app, (contents_cons _ _ _ _ Hnode).
Qed.

(** X16. [add_first] and [add_last] with a node allocated at an unused
    address: the element becomes the first, respectively the last, of the
    list, the other elements keep their order, the size grows by one, and a
    following [get_at] of index 0, respectively of the old size, delivers
    the element; [add_last] makes the new node the tail. *)
Theorem slist_add_first_last_spec h l ns p e :
  heap_ok h → repr h l ns → h !! p = None → 0 < p ≤ SIZE_MAX →
  (∃ h' l', cc_slist_add_first h l p e = Ret (CC_OK, h', l')
     ∧ heap_ok h' ∧ repr h' l' (p :: ns)
     ∧ contents h' (p :: ns) = e :: contents h ns
     ∧ size l' = size l + 1 ∧ head l' = p
     ∧ ∀ c, cc_slist_get_at h' l' 0 (Slot c) = Ret (CC_OK, Slot (Some e)))
  ∧ (∃ h' l', cc_slist_add_last h l p e = Ret (CC_OK, h', l')
       ∧ heap_ok h' ∧ repr h' l' (ns ++ [p])
       ∧ contents h' (ns ++ [p]) = contents h ns ++ [e]
       ∧ size l' = size l + 1 ∧ tail l' = p
       ∧ ∀ c, cc_slist_get_at h' l' (size l) (Slot c)
              = Ret (CC_OK, Slot (Some e))).
Proof.
  intros Hok Hrepr Hp Hpr. pose proof Hrepr as (Hseg & _ & Hsize). split.
  - destruct (add_first_spec h l ns p e Hok Hrepr Hp Hpr)
      as (h' & l' & Hr & Hok' & Hrepr' & Hc & _).
    exists h', l'. split; [done|]. split; [done|]. split; [done|].
    split; [done|].
    pose proof Hrepr' as (Hseg' & _ & Hsize').
    split; [rewrite Hsize', Hsize; cbn [length]; lia|].
    split; [by apply seg_head in Hseg'|].
    destruct (get_at_spec h' l' [] p ns Hrepr') as (nd & Hnd & Hlk & Hget & _).
    cbn [app length] in Hlk, Hget. rewrite Hc in Hlk.
    intros c. rewrite Hget. cbn in Hlk. congruence.
  - destruct (add_last_spec h l ns p e Hok Hrepr Hp Hpr)
      as (h' & l' & Hr & Hok' & Hrepr' & Hc & _).
    exists h', l'. split; [done|]. split; [done|]. split; [done|].
    split; [done|].
    pose proof Hrepr' as (Hseg' & Htail' & Hsize').
    split; [rewrite Hsize', Hsize, length_app; cbn [length]; lia|].
    split; [by rewrite Htail', last_snoc|].
    pose proof Hrepr' as Hrepr''.
    replace (ns ++ [p]) with (ns ++ p :: []) in Hrepr'' by done.
    destruct (get_at_spec h' l' ns p [] Hrepr'') as (nd & Hnd & Hlk & Hget & _).
    rewrite Hc in Hlk.
    rewrite <- (contents_length _ _ _ _ Hseg) in Hlk.
    rewrite list_lookup_middle in Hlk by done.
    intros c. rewrite Hsize, Hget. congruence.
Qed.

Lemma slist_add_first_last_spec_witness :
  (∃ h' l', cc_slist_add_first heap4 list3 80 500 = Ret (CC_OK, h', l')
     ∧ contents h' [80; 16; 32; 48] = [500; 100; 200; 300])
  ∧ (∃ h' l', cc_slist_add_last heap4 list3 80 500 = Ret (CC_OK, h', l')
       ∧ contents h' [16; 32; 48; 80] = [100; 200; 300; 500]
       ∧ tail l' = 80).
Proof.
  destruct (slist_add_first_last_spec heap4 list3 [16; 32; 48] 80 500
              heap4_ok list3_repr eq_refl ltac:(done))
    as [(h1 & l1 & Hr1 & _ & _ & Hc1 & _)
        (h2 & l2 & Hr2 & _ & _ & Hc2 & _ & Ht & _)].
  split; [by exists h1, l1|by exists h2, l2].
Defined.

(** X17. [add_at] with an index below the size and a node allocated at an
    unused address puts the element at that index, before the element that
    was there: the elements before keep their places, the others move up by
    one, the size grows by one and the tail stays the tail. *)
Theorem slist_add_at_spec h l ns p e i :
  heap_ok h → repr h l ns → 0 ≤ i < size l →
  h !! p = None → 0 < p ≤ SIZE_MAX →
  ∃ h' l', cc_slist_add_at h l p e i = Ret (CC_OK, h', l')
    ∧ heap_ok h'
    ∧ repr h' l' (take (Z.to_nat i) ns ++ p :: drop (Z.to_nat i) ns)
    ∧ contents h' (take (Z.to_nat i) ns ++ p :: drop (Z.to_nat i) ns)
      = take (Z.to_nat i) (contents h ns)
        ++ e :: drop (Z.to_nat i) (contents h ns)
    ∧ size l' = size l + 1 ∧ tail l' = tail l
    ∧ ∀ c, cc_slist_get_at h' l' i (Slot c) = Ret (CC_OK, Slot (Some e)).
Proof.
  intros Hok Hrepr Hi Hp Hpr. pose proof Hrepr as (Hseg & Htail & Hsize).
  destruct (contents_split h l ns i Hrepr Hi)
    as (l1 & node & l2 & nd & -> & Hl1 & Hnode & Hcl & Hc).
  destruct (add_at_spec h l l1 node l2 p e Hok Hrepr Hp Hpr)
    as (h' & l' & Hr & Hok' & Hrepr' & Hc' & _).
  rewrite Hl1 in Hr.
  assert (Hn : Z.to_nat i = length l1) by lia.
  rewrite Hn, take_app_length, drop_app_length.
  rewrite Hc, take_app_length', drop_app_length' by (by rewrite Hcl).
  exists h', l'. split; [done|]. split; [done|]. split; [done|].
  split.
  { rewrite Hc'. by rewrite (contents_cons _ _ _ _ Hnode). }
  pose proof Hrepr' as (_ & Htail' & Hsize').
  split.
  { rewrite Hsize', Hsize, !length_app. cbn [length]. lia. }
  split.
  { rewrite Htail', Htail. rewrite !last_app. done. }
  destruct (get_at_spec h' l' l1 p (node :: l2) Hrepr')
    as (pd & Hpd & Hlk & Hget & _).
  rewrite Hc' in Hlk. rewrite <- Hcl in Hlk.
  rewrite list_lookup_middle in Hlk by done.
  intros c. rewrite <- Hl1, Hget. congruence.
Qed.

Lemma slist_add_at_spec_witness :
  ∃ h' l', cc_slist_add_at heap4 list3 80 500 1 = Ret (CC_OK, h', l')
    ∧ contents h' [16; 80; 32; 48] = [100; 500; 200; 300]
    ∧ size l' = 4 ∧ tail l' = 48.
Proof.
  destruct (slist_add_at_spec heap4 list3 [16; 32; 48] 80 500 1
              heap4_ok list3_repr ltac:(done) eq_refl ltac:(done))
    as (h' & l' & Hr & _ & _ & Hc & Hs & Ht & _).
  by exists h', l'.
Defined.

Lemma delete_at_length {A} (l1 : list A) x l2 n :
  n = length l1 → delete n (l1 ++ x :: l2) = l1 ++ l2.
Proof. intros ->. apply delete_middle. Qed.

(** X18. [remove_at] with an index below the size unlinks the node at that
    index and frees it: its element goes to the output slot (if there is
    one), the other elements keep their order, the size drops by one, and
    no other node is touched.  With an index at or above the size it
    answers [CC_ERR_OUT_OF_RANGE] and changes nothing. *)
Theorem slist_remove_at_spec h l ns i out :
  heap_ok h → repr h l ns → 0 ≤ i →
  (size l ≤ i →
   cc_slist_remove_at h l i out = Ret (CC_ERR_OUT_OF_RANGE, h, l, out))
  ∧ (i < size l →
     ∃ node x h' l', ns !! Z.to_nat i = Some node
       ∧ contents h ns !! Z.to_nat i = Some x
       ∧ cc_slist_remove_at h l i out
         = Ret (CC_OK, h', l', store_out_opt out (Some x))
       ∧ heap_ok h' ∧ repr h' l' (delete (Z.to_nat i) ns)
       ∧ contents h' (delete (Z.to_nat i) ns)
         = delete (Z.to_nat i) (contents h ns)
       ∧ size l' = size l - 1
       ∧ h' !! node = None
       ∧ ∀ q, q ∉ ns → h' !! q = h !! q).
Proof.
  intros Hok Hrepr Hi. split.
  - intros Hge. by destruct (index_out_of_range h l NULL 0 i out Hge) as (_ & -> & _).
  - intros Hlt. pose proof Hrepr as (Hseg & Htail & Hsize).
    destruct (contents_split h l ns i Hrepr ltac:(lia))
      as (l1 & node & l2 & nd & -> & Hl1 & Hnode & Hcl & Hc).
    assert (Hn : Z.to_nat i = length l1) by lia.
    destruct (unlinkn_spec h l l1 node l2 Hok Hrepr)
      as (nd' & h' & l' & Hnode' & Hun & Hok' & Hrepr' & Hc' & _ & Hfree & Hframe).
    assert (nd' = nd) as -> by congruence.
    exists node, (data nd), h', l'. rewrite Hn.
    split; [by apply list_lookup_middle|].
    split; [rewrite Hc; by apply list_lookup_middle|].
    split.
    { unfold cc_slist_remove_at. rewrite <- Hl1.
      rewrite (get_node_at_spec _ _ _ _ _ Hrepr). step.
      destruct (decide (CC_OK ≠ CC_OK)); [done|]. rewrite Hun. done. }
    split; [done|]. rewrite delete_at_length by done. split; [done|].
    split.
    { rewrite Hc', Hc. by rewrite delete_at_length by done. }
    pose proof Hrepr' as (_ & _ & Hsize').
    split.
    { rewrite Hsize', Hsize, !length_app. cbn [length]. lia. }
    split; [done|].
    intros q Hq. apply Hframe.
    + intros Hin. apply Hq. apply elem_of_app. by left.
    + intros ->. apply Hq. apply elem_of_app. right. apply list_elem_of_here.
Qed.

Lemma slist_remove_at_spec_witness :
  ∃ h' l', cc_slist_remove_at heap4 list3 1 (Slot None)
           = Ret (CC_OK, h', l', Slot (Some 200))
    ∧ contents h' [16; 48] = [100; 300] ∧ size l' = 2 ∧ h' !! 32 = None.
Proof.
  destruct (slist_remove_at_spec heap4 list3 [16; 32; 48] 1 (Slot None)
              heap4_ok list3_repr ltac:(done)) as [_ H].
  destruct H as (node & x & h' & l' & Hn & Hx & Hr & _ & _ & Hc & Hs & Hf & _);
    [done|].
  injection Hn as <-. injection Hx as <-. by exists h', l'.
Defined.

Lemma no_match_not_in h e (ms : list Z) :
  Forall (λ n, ∀ d, h !! n = Some d → data d ≠ e) ms → e ∉ contents h ms.
Proof.
  intros Hall Hin. unfold contents in Hin.
  apply list_elem_of_omap in Hin as (n & Hn & Hdn).
  rewrite Forall_forall in Hall.
  destruct (h !! n) as [d|] eqn:E; [|done]. injection Hdn as Hdn.
  by eapply Hall.
Qed.

(** [remove] at the first node that holds the element: what it does to the
    heap and the list does not depend on the output slot. *)
Lemma remove_first_match h l l1 node l2 nd e fuel :
  heap_ok h → repr h l (l1 ++ node :: l2) →
  h !! node = Some nd → data nd = e →
  Forall (λ n, ∀ d, h !! n = Some d → data d ≠ e) l1 →
  (length (l1 ++ node :: l2) ≤ fuel)%nat →
  ∃ h' l', (∀ out, cc_slist_remove fuel h l e out
                   = Ret (CC_OK, h', l', store_out_opt out (Some e)))
    ∧ heap_ok h' ∧ repr h' l' (l1 ++ l2)
    ∧ contents h' (l1 ++ l2) = contents h l1 ++ contents h l2
    ∧ h' !! node = None
    ∧ ∀ q, q ∉ l1 → q ≠ node → h' !! q = h !! q.
Proof.
  intros Hok Hrepr Hn Hd Hall Hfuel. pose proof Hrepr as (Hseg & _ & _).
  destruct (unlinkn_spec _ _ _ _ _ Hok Hrepr)
    as (nd' & h' & l' & Hnd' & Hun & Hok' & Hrepr' & Hc & _ & Hfree & Hframe).
  rewrite Hn in Hnd'. injection Hnd' as <-.
  exists h', l'. split; [|done].
  intros out. unfold cc_slist_remove, get_node.
  rewrite (get_node_loop_found _ _ _ _ _ _ _ _ _ _ Hseg Hn Hd Hall).
  - step. destruct (decide (CC_OK ≠ CC_OK)); [done|]. rewrite Hun. step.
    by rewrite Hd.
  - intros n Hin. apply (seg_not_null _ _ _ _ n Hok Hseg).
    apply elem_of_app in Hin as [Hin|Hin].
    + apply elem_of_app. by left.
    + apply elem_of_app. right. apply list_elem_of_singleton in Hin as ->.
      apply list_elem_of_here.
  - rewrite length_app in Hfuel. cbn [length] in Hfuel. lia.
Qed.

(** The first occurrence of an element in the list, as a node. *)
Lemma first_occurrence h l ns e c1 c2 :
  repr h l ns → contents h ns = c1 ++ e :: c2 → e ∉ c1 →
  ∃ l1 node l2 nd, ns = l1 ++ node :: l2 ∧ h !! node = Some nd
    ∧ data nd = e
    ∧ Forall (λ n, ∀ d, h !! n = Some d → data d ≠ e) l1
    ∧ length l1 = length c1
    ∧ contents h l1 = c1 ∧ contents h l2 = c2.
Proof.
  intros Hrepr Hc Hno. pose proof Hrepr as (Hseg & _ & _).
  destruct (first_match _ e _ _ _ Hseg) as
    [Hall|(l1 & node & l2 & nd & -> & Hn & Hd & Hall)].
  - destruct (no_match_not_in _ _ _ Hall). rewrite Hc.
    apply elem_of_app. right. apply list_elem_of_here.
  - exists l1, node, l2, nd. split; [done|]. split; [done|]. split; [done|].
    split; [done|].
    pose proof Hseg as (m & Hseg1 & _)%seg_app.
    rewrite contents_app, (contents_cons _ _ _ _ Hn), Hd in Hc.
    destruct (not_elem_of_app_cons_inv_l _ _ _ _ _ _ Hno
                (no_match_not_in _ _ _ Hall) Hc) as (<- & _ & <-).
    split; [|done]. symmetry. by eapply contents_length.
Qed.

(** X19. [remove] unlinks and frees the first node that holds the element
    (by pointer equality) and only that one: the node is no longer
    allocated, the other nodes of the list stay in their order with their
    elements, no node outside the list is touched, the size drops by one,
    and the element goes to the output slot (if there is one).  If no node
    holds the element it answers [CC_ERR_VALUE_NOT_FOUND] and changes
    nothing. *)
Theorem slist_remove_spec h l ns e out fuel :
  heap_ok h → repr h l ns → (length ns ≤ fuel)%nat →
  (e ∉ contents h ns →
   cc_slist_remove fuel h l e out
   = Ret (CC_ERR_VALUE_NOT_FOUND, h, l, out))
  ∧ (∀ c1 c2, contents h ns = c1 ++ e :: c2 → e ∉ c1 →
     ∃ node h' l', ns !! length c1 = Some node
       ∧ cc_slist_remove fuel h l e out
         = Ret (CC_OK, h', l', store_out_opt out (Some e))
       ∧ heap_ok h'
       ∧ repr h' l' (delete (length c1) ns)
       ∧ contents h' (delete (length c1) ns) = c1 ++ c2
       ∧ size l' = size l - 1
       ∧ h' !! node = None
       ∧ ∀ q, q ∉ ns → h' !! q = h !! q).
Proof.
  intros Hok Hrepr Hfuel. pose proof Hrepr as (Hseg & _ & Hsize). split.
  - intros Hno.
    destruct (remove_spec h l ns e out fuel Hok Hrepr Hfuel)
      as [[_ Hr]|(l1 & node & l2 & h' & l' & -> & _ & _ & _ & _ & Hc & _)];
      [done|].
    destruct Hno. rewrite Hc. apply elem_of_app. right. apply list_elem_of_here.
  - intros c1 c2 Hc Hno.
    destruct (first_occurrence h l ns e c1 c2 Hrepr Hc Hno)
      as (l1 & node & l2 & nd & -> & Hn & Hd & Hall & Hlen & <- & <-).
    destruct (remove_first_match h l l1 node l2 nd e fuel
                Hok Hrepr Hn Hd Hall Hfuel)
      as (h' & l' & Hr & Hok' & Hrepr' & Hc' & Hfree & Hframe).
    exists node, h', l'. rewrite <- Hlen.
    split; [by apply list_lookup_middle|]. split; [done|]. split; [done|].
    rewrite delete_at_length by done.
    split; [done|]. split; [done|].
    pose proof Hrepr' as (_ & _ & Hsize').
    split.
    { rewrite Hsize', Hsize, !length_app. cbn [length]. lia. }
    split; [done|].
    intros q Hq. apply Hframe.
    + intros Hin. apply Hq. apply elem_of_app. by left.
    + intros ->. apply Hq. apply elem_of_app. right. apply list_elem_of_here.
Qed.

Lemma slist_remove_spec_witness :
  (∃ h' l', cc_slist_remove 3 heap4 list3 200 (Slot None)
            = Ret (CC_OK, h', l', Slot (Some 200))
     ∧ contents h' [16; 48] = [100; 300] ∧ size l' = 2
     ∧ h' !! 32 = None ∧ h' !! 64 = Some (mkNode 400 NULL))
  ∧ cc_slist_remove 3 heap4 list3 7 NullOut
    = Ret (CC_ERR_VALUE_NOT_FOUND, heap4, list3, NullOut).
Proof.
  split.
  - destruct (slist_remove_spec heap4 list3 [16; 32; 48] 200 (Slot None) 3%nat
                heap4_ok list3_repr ltac:(done)) as [_ H].
    destruct (H [100] [300] eq_refl)
      as (node & h' & l' & Hn & Hr & _ & _ & Hc & Hs & Hf & Hfr).
    + intros Hx. apply list_elem_of_singleton in Hx. done.
    + injection Hn as <-. exists h', l'. split; [exact Hr|].
      split; [exact Hc|]. split; [exact Hs|]. split; [exact Hf|].
      rewrite Hfr; [reflexivity|]. intros Hx.
      repeat (apply elem_of_cons in Hx as [Hx|Hx]; [done|]).
      by apply elem_of_nil in Hx.
  - destruct (slist_remove_spec heap4 list3 [16; 32; 48] 7 NullOut 3%nat
                heap4_ok list3_repr ltac:(done)) as [H _].
    apply H. intros Hx.
    repeat (apply elem_of_cons in Hx as [Hx|Hx]; [done|]).
    by apply elem_of_nil in Hx.
Defined.

(** X20. [remove_first] on a list that is not empty unlinks and frees the
    head node: its element goes to the output slot (if there is one), the
    second node becomes the head, and the other elements keep their order.
    On the empty list it answers [CC_ERR_VALUE_NOT_FOUND] and changes
    nothing. *)
Theorem slist_remove_first_spec h l ns out :
  heap_ok h → repr h l ns →
  (ns = [] →
   cc_slist_remove_first h l out = Ret (CC_ERR_VALUE_NOT_FOUND, h, l, out))
  ∧ (∀ node ns', ns = node :: ns' →
     ∃ x h' l', contents h ns = x :: contents h ns'
       ∧ cc_slist_remove_first h l out
         = Ret (CC_OK, h', l', store_out_opt out (Some x))
       ∧ heap_ok h' ∧ repr h' l' ns'
       ∧ contents h' ns' = contents h ns'
       ∧ size l' = size l - 1 ∧ head l' = hd NULL ns'
       ∧ h' !! node = None
       ∧ ∀ q, q ≠ node → h' !! q = h !! q).
Proof.
  intros Hok Hrepr. pose proof Hrepr as (Hseg & _ & Hsize). split.
  - intros ->. apply remove_first_empty. by rewrite Hsize.
  - intros node ns' ->.
    destruct (unlinkn_spec h l [] node ns' Hok Hrepr)
      as (nd & h' & l' & Hnode & Hun & Hok' & Hrepr' & Hc' & Hc & Hfree & Hframe).
    cbn [app last default contents_nil] in *.
    exists (data nd), h', l'. split; [done|]. split.
    { unfold cc_slist_remove_first.
      replace (size l =? 0) with false
        by (symmetry; apply Z.eqb_neq; rewrite Hsize; cbn [length]; lia).
      destruct Hseg as (-> & _). rewrite Hun. done. }
    split; [done|]. split; [done|]. split; [done|].
    pose proof Hrepr' as (Hseg' & _ & Hsize').
    split; [rewrite Hsize', Hsize; cbn [length]; lia|].
    split; [by apply seg_head in Hseg'|]. split; [done|].
    intros q Hq. apply Hframe; [|done]. intros Hin. by apply elem_of_nil in Hin.
Qed.

Lemma slist_remove_first_spec_witness :
  ∃ h' l', cc_slist_remove_first heap4 list3 (Slot None)
           = Ret (CC_OK, h', l', Slot (Some 100))
    ∧ contents h' [32; 48] = [200; 300] ∧ head l' = 32 ∧ h' !! 16 = None.
Proof.
  destruct (slist_remove_first_spec heap4 list3 [16; 32; 48] (Slot None)
              heap4_ok list3_repr) as [_ H].
  destruct (H 16 [32; 48] eq_refl)
    as (x & h' & l' & Hx & Hr & _ & _ & Hc & _ & Hh & Hf & _).
  injection Hx as <-. by exists h', l'.
Defined.

(** X21. [get_at] with an index below the size delivers the element at
    that index and changes nothing.  [replace_at] stores the new element in
    the node at that index, hands the old one to the output slot (if there
    is one), and leaves every other element, the nodes and the size as they
    were; a following [get_at] delivers the new element.  With an index at
    or above the size both answer [CC_ERR_OUT_OF_RANGE] and change
    nothing. *)
Theorem slist_get_replace_spec h l ns e i out :
  heap_ok h → repr h l ns → 0 ≤ i →
  (size l ≤ i →
   cc_slist_get_at h l i out = Ret (CC_ERR_OUT_OF_RANGE, out)
   ∧ cc_slist_replace_at h l e i out = Ret (CC_ERR_OUT_OF_RANGE, h, l, out))
  ∧ (i < size l →
     ∃ x h', contents h ns !! Z.to_nat i = Some x
       ∧ (∀ c, cc_slist_get_at h l i (Slot c) = Ret (CC_OK, Slot (Some x)))
       ∧ cc_slist_replace_at h l e i out
         = Ret (CC_OK, h', l, store_out_opt out (Some x))
       ∧ heap_ok h' ∧ repr h' l ns
       ∧ contents h' ns = <[Z.to_nat i := e]> (contents h ns)
       ∧ ∀ c, cc_slist_get_at h' l i (Slot c) = Ret (CC_OK, Slot (Some e))).
Proof.
  intros Hok Hrepr Hi. split.
  - intros Hge.
    by destruct (index_out_of_range h l NULL e i out Hge) as (_ & _ & -> & ->).
  - intros Hlt. pose proof Hrepr as (Hseg & Htail & Hsize).
    destruct (contents_split h l ns i Hrepr ltac:(lia))
      as (l1 & node & l2 & nd & -> & Hl1 & Hnode & Hcl & Hc).
    assert (Hn : Z.to_nat i = length l1) by lia.
    destruct (get_at_spec h l l1 node l2 Hrepr) as (nd1 & Hnd1 & _ & Hget & _).
    destruct (replace_at_spec h l l1 node l2 e out Hok Hrepr)
      as (nd2 & h' & Hnd2 & Hr & Hok' & Hrepr' & Hc').
    assert (nd1 = nd) as -> by congruence.
    assert (nd2 = nd) as -> by congruence.
    exists (data nd), h'. rewrite Hn, <- Hl1.
    split; [rewrite Hc; by apply list_lookup_middle|].
    split; [done|]. split; [done|]. split; [done|]. split; [done|].
    split.
    { rewrite Hc', Hc.
      rewrite insert_app_r_alt by lia. rewrite Hcl, Nat.sub_diag. done. }
    destruct (get_at_spec h' l l1 node l2 Hrepr') as (nd3 & _ & Hlk & Hget' & _).
    rewrite Hc' in Hlk. rewrite <- Hcl in Hlk.
    rewrite list_lookup_middle in Hlk by done.
    intros c. rewrite Hget'. congruence.
Qed.

Lemma slist_get_replace_spec_witness :
  cc_slist_get_at heap4 list3 2 (Slot None) = Ret (CC_OK, Slot (Some 300))
  ∧ ∃ h', cc_slist_replace_at heap4 list3 7 2 (Slot None)
          = Ret (CC_OK, h', list3, Slot (Some 300))
      ∧ contents h' [16; 32; 48] = [100; 200; 7].
Proof.
  destruct (slist_get_replace_spec heap4 list3 [16; 32; 48] 7 2 (Slot None)
              heap4_ok list3_repr ltac:(done)) as [_ H].
  destruct H as (x & h' & Hx & Hg & Hr & _ & _ & Hc & _); [done|].
  injection Hx as <-. split; [exact (Hg None)|]. by exists h'.
Defined.

Lemma remove_all_both h l ns fuel :
  heap_ok h → repr h l ns → (length ns ≤ fuel)%nat →
  ∃ st h' l', cc_slist_remove_all fuel h l = Ret (st, h', l')
    ∧ cc_slist_remove_all_cb fuel h l = Ret (st, h', l', contents h ns)
    ∧ heap_ok h'
    ∧ (∀ q, q ∈ ns → h' !! q = None)
    ∧ (∀ q, q ∉ ns → h' !! q = h !! q).
Proof.
  intros Hok Hrepr Hfuel.
  unfold cc_slist_remove_all, cc_slist_remove_all_cb.
  destruct (remove_all_with_spec h l ns false fuel Hok Hrepr Hfuel)
    as [[-> Hr1]|(Hne & h1 & Hr1 & Hok1 & Hf1 & Hfr1)].
  - destruct (remove_all_with_spec h l [] true fuel Hok Hrepr Hfuel)
      as [[_ Hr2]|[Hne _]]; [|done].
    exists CC_ERR_VALUE_NOT_FOUND, h, l. rewrite Hr1, Hr2.
    split; [done|]. split; [done|]. split; [done|]. split; [|done].
    intros q Hq. by apply elem_of_nil in Hq.
  - destruct (remove_all_with_spec h l ns true fuel Hok Hrepr Hfuel)
      as [[-> _]|(_ & h2 & Hr2 & _ & Hf2 & Hfr2)]; [done|].
    assert (h2 = h1) as ->.
    { apply map_eq. intros q. destruct (decide (q ∈ ns)).
      - by rewrite Hf1, Hf2.
      - by rewrite Hfr1, Hfr2. }
    exists CC_OK, h1, (mkList 0 NULL NULL). rewrite Hr1, Hr2. done.
Qed.

(** X22. [remove_all] and [remove_all_cb] on a list that is not empty free
    every node of the list and no other, and leave the list empty: size 0,
    head and tail null; [remove_all_cb] calls the callback on every
    element, once, in list order.  On the empty list both answer
    [CC_ERR_VALUE_NOT_FOUND] and change nothing. *)
Theorem slist_remove_all_spec h l ns fuel :
  heap_ok h → repr h l ns → (length ns ≤ fuel)%nat →
  (ns = [] →
   cc_slist_remove_all fuel h l = Ret (CC_ERR_VALUE_NOT_FOUND, h, l)
   ∧ cc_slist_remove_all_cb fuel h l
     = Ret (CC_ERR_VALUE_NOT_FOUND, h, l, []))
  ∧ (ns ≠ [] →
     ∃ h', cc_slist_remove_all fuel h l = Ret (CC_OK, h', mkList 0 NULL NULL)
       ∧ cc_slist_remove_all_cb fuel h l
         = Ret (CC_OK, h', mkList 0 NULL NULL, contents h ns)
       ∧ heap_ok h'
       ∧ (∀ q, q ∈ ns → h' !! q = None)
       ∧ (∀ q, q ∉ ns → h' !! q = h !! q)).
Proof.
  intros Hok Hrepr Hfuel. split.
  - intros ->. unfold cc_slist_remove_all, cc_slist_remove_all_cb.
    destruct (remove_all_with_spec h l [] false fuel Hok Hrepr Hfuel)
      as [[_ ->]|[Hne _]]; [|done].
    destruct (remove_all_with_spec h l [] true fuel Hok Hrepr Hfuel)
      as [[_ ->]|[Hne _]]; [|done].
    done.
  - intros Hne. unfold cc_slist_remove_all, cc_slist_remove_all_cb.
    destruct (remove_all_with_spec h l ns false fuel Hok Hrepr Hfuel)
      as [[-> _]|(_ & h1 & Hr1 & Hok1 & Hf1 & Hfr1)]; [done|].
    destruct (remove_all_with_spec h l ns true fuel Hok Hrepr Hfuel)
      as [[-> _]|(_ & h2 & Hr2 & _ & Hf2 & Hfr2)]; [done|].
    assert (h2 = h1) as ->.
    { apply map_eq. intros q. destruct (decide (q ∈ ns)).
      - by rewrite Hf1, Hf2.
      - by rewrite Hfr1, Hfr2. }
    exists h1. rewrite Hr1, Hr2. done.
Qed.

Lemma slist_remove_all_spec_witness :
  ∃ h', cc_slist_remove_all_cb 3 heap4 list3
        = Ret (CC_OK, h', mkList 0 NULL NULL, [100; 200; 300])
    ∧ h' !! 16 = None ∧ h' !! 32 = None ∧ h' !! 48 = None
    ∧ h' !! 64 = Some (mkNode 400 NULL).
Proof.
  destruct (slist_remove_all_spec heap4 list3 [16; 32; 48] 3%nat
              heap4_ok list3_repr ltac:(done)) as [_ H].
  destruct H as (h' & _ & Hr & _ & Hf & Hfr); [done|].
  exists h'. split; [exact Hr|].
  assert (Hin : ∀ q, q = 16 ∨ q = 32 ∨ q = 48 → q ∈ [16; 32; 48]).
  { intros q Hq. rewrite !elem_of_cons. tauto. }
  split; [apply Hf, Hin; tauto|]. split; [apply Hf, Hin; tauto|].
  split; [apply Hf, Hin; tauto|].
  rewrite Hfr; [reflexivity|]. intros Hx.
  repeat (apply elem_of_cons in Hx as [Hx|Hx]; [done|]).
  by apply elem_of_nil in Hx.
Defined.

(** X23. [copy_shallow] with enough unused addresses for the nodes builds
    a list of new nodes that holds the same elements in the same order; the
    source list, its nodes and its elements are as before.  When the list
    structure cannot be allocated, or when the allocation of a node fails
    on the way, it answers [CC_ERR_ALLOC], delivers no list, and the heap
    is as it was before the call: the nodes made so far are freed again. *)
Theorem slist_copy_shallow_spec h l ns fuel :
  heap_ok h → repr h l ns →
  (∀ ps, (length ns ≤ length ps)%nat → NoDup (take (length ns) ps) →
     (∀ p, p ∈ take (length ns) ps → h !! p = None ∧ 0 < p ≤ SIZE_MAX) →
     ∃ h' copy, cc_slist_copy_shallow true ps fuel h l
                = Ret (CC_OK, h', Some copy)
       ∧ heap_ok h'
       ∧ repr h' copy (take (length ns) ps)
       ∧ contents h' (take (length ns) ps) = contents h ns
       ∧ size copy = size l
       ∧ repr h' l ns ∧ contents h' ns = contents h ns
       ∧ ∀ n, n ∈ ns → n ∉ take (length ns) ps)
  ∧ (∀ ps, cc_slist_copy_shallow false ps fuel h l
           = Ret (CC_ERR_ALLOC, h, None))
  ∧ (∀ good rest, (length good < length ns)%nat → (length good ≤ fuel)%nat →
     NoDup good → (∀ p, p ∈ good → h !! p = None ∧ 0 < p ≤ SIZE_MAX) →
     cc_slist_copy_shallow true (good ++ NULL :: rest) fuel h l
     = Ret (CC_ERR_ALLOC, h, None)).
Proof.
  intros Hok Hrepr. pose proof Hrepr as (Hseg & _ & Hsize).
  split; [|split].
  - intros ps Hlen Hnd Hfresh.
    destruct (copy_shallow_ok h l ns ps fuel Hok Hrepr Hlen Hnd Hfresh)
      as (h' & copy & Hr & Hok' & Hcopy & Hc & Hl & Hcl).
    exists h', copy. split; [done|]. split; [done|]. split; [done|].
    split; [done|]. split.
    { destruct Hcopy as (_ & _ & ->). rewrite Hsize, length_take. lia. }
    split; [done|]. split; [done|].
    intros n Hn Hin. destruct (Hfresh n Hin) as [Hnone _].
    destruct (seg_in_heap _ _ _ _ n Hseg Hn) as [nd Hnd']. congruence.
  - intros ps. apply copy_shallow_alloc_failure.
  - intros good rest Hlt Hfuel Hnd Hfresh. by eapply copy_shallow_fail.
Qed.

Lemma slist_copy_shallow_spec_witness :
  (∃ h' copy, cc_slist_copy_shallow true [80; 96; 112] 3 heap4 list3
              = Ret (CC_OK, h', Some copy)
     ∧ contents h' [80; 96; 112] = [100; 200; 300]
     ∧ contents h' [16; 32; 48] = [100; 200; 300])
  ∧ cc_slist_copy_shallow true [80; 96; NULL] 3 heap4 list3
    = Ret (CC_ERR_ALLOC, heap4, None).
Proof.
  destruct (slist_copy_shallow_spec heap4 list3 [16; 32; 48] 3
              heap4_ok list3_repr) as (Hok & _ & Hfail).
  assert (Hnd : ∀ a b c : Z, a ≠ b → a ≠ c → b ≠ c → NoDup [a; b; c]).
  { intros a b c Hab Hac Hbc. apply NoDup_cons. split.
    - rewrite !elem_of_cons. intros [?|[?|Hx]]; [done..|].
      by apply elem_of_nil in Hx.
    - apply NoDup_cons. split.
      + rewrite !elem_of_cons. intros [?|Hx]; [done|]. by apply elem_of_nil in Hx.
      + apply NoDup_singleton. }
  split.
  - destruct (Hok [80; 96; 112]) as (h' & copy & Hr & _ & _ & Hc & _ & _ & Hcl & _).
    + done.
    + by apply Hnd.
    + intros p Hp. cbn [length take] in Hp.
      repeat (apply elem_of_cons in Hp as [->|Hp]; [done|]).
      by apply elem_of_nil in Hp.
    + by exists h', copy.
  - apply (Hfail [80; 96] []).
    + cbn [length]. lia.
    + cbn [length]. lia.
    + apply NoDup_cons. split; [|apply NoDup_singleton].
      intros Hx. by apply list_elem_of_singleton in Hx.
    + intros p Hp.
      repeat (apply elem_of_cons in Hp as [->|Hp]; [done|]).
      by apply elem_of_nil in Hp.
Defined.

Lemma count_if_bounds f (l : list Z) : 0 ≤ count_if f l ≤ Z.of_nat (length l).
Proof.
  induction l as [|x l IH]; cbn [count_if length]; [lia|].
  destruct (f x); lia.
Qed.

Lemma count_if_zero f (l : list Z) :
  count_if f l = 0 ↔ ∀ x, x ∈ l → f x = false.
Proof.
  induction l as [|x l IH]; cbn [count_if].
  - split; [|done]. intros _ y Hy. by apply elem_of_nil in Hy.
  - pose proof (count_if_bounds f l). split.
    + intros H0 y Hy. destruct (f x) eqn:E; [lia|].
      apply elem_of_cons in Hy as [->|Hy]; [done|]. apply IH; [lia|done].
    + intros Hall. rewrite (Hall x) by apply list_elem_of_here.
      apply IH. intros y Hy. apply Hall. by apply list_elem_of_further.
Qed.

Lemma count_if_ext f g (l : list Z) :
  (∀ x, x ∈ l → f x = g x) → count_if f l = count_if g l.
Proof.
  induction l as [|x l IH]; intros H; cbn [count_if]; [done|].
  rewrite (H x) by apply list_elem_of_here.
  rewrite IH; [done|]. intros y Hy. apply H. by apply list_elem_of_further.
Qed.

(** The counting loops walk the chain to its end and add up the nodes that
    pass the test. *)
Lemma slist_count_loop h (f : Z → bool) : ∀ ns p c fuel,
  heap_ok h → seg h p ns NULL → (length ns ≤ fuel)%nat →
  0 ≤ c → c + Z.of_nat (length ns) ≤ SIZE_MAX →
  (∀ e, (∀ x, f x = (x =? e)) →
     contains_loop fuel h p e c = Ret (c + count_if f (contents h ns)))
  ∧ (∀ e cmp, (∀ x, f x = (cmp x e =? 0)) →
       contains_value_loop fuel h p e cmp c
       = Ret (c + count_if f (contents h ns))).
Proof.
  induction ns as [|n ns IH]; intros p c fuel Hok Hseg Hfuel Hc Hmax.
  - cbn [seg] in Hseg. subst p. cbn [contents omap count_if].
    rewrite Z.add_0_r.
    split; intros; destruct fuel; done.
  - pose proof (seg_not_null _ _ _ _ n Hok Hseg ltac:(apply list_elem_of_here))
      as Hnz.
    destruct Hseg as (-> & nd & Hnd & Hseg).
    destruct fuel as [|fuel]; [cbn [length] in Hfuel; lia|].
    cbn [length] in Hfuel, Hmax.
    rewrite (contents_cons _ _ _ _ Hnd). cbn [count_if].
    assert (Hw : wrap (c + 1) = c + 1) by (apply wrap_small; lia).
    split.
    + intros e Hf. cbn [contains_loop].
      replace (n =? NULL) with false by (symmetry; by apply Z.eqb_neq).
      rewrite (load_node_Some _ _ _ Hnd). step.
      destruct (IH (next nd) (if data nd =? e then wrap (c + 1) else c) fuel)
        as [H _]; [done|done|lia| | |].
      * destruct (data nd =? e); lia.
      * destruct (data nd =? e); lia.
      * rewrite (H e Hf). f_equal. rewrite Hf. destruct (data nd =? e); lia.
    + intros e cmp Hf. cbn [contains_value_loop].
      replace (n =? NULL) with false by (symmetry; by apply Z.eqb_neq).
      rewrite (load_node_Some _ _ _ Hnd). step.
      destruct (IH (next nd) (if cmp (data nd) e =? 0 then wrap (c + 1) else c)
                  fuel) as [_ H]; [done|done|lia| | |].
      * destruct (cmp (data nd) e =? 0); lia.
      * destruct (cmp (data nd) e =? 0); lia.
      * rewrite (H e cmp Hf). f_equal. rewrite Hf.
        destruct (cmp (data nd) e =? 0); lia.
Qed.

(** X24. [contains] returns the number of nodes of the list that hold the
    element (by pointer equality): a number between 0 and the size, and 0
    exactly when the element is not in the list.  [contains_value] returns
    the number of nodes whose element the comparator, called with the
    node's element first and the sought one second, finds equal (returns 0
    for); with a comparator that returns 0 exactly on the same pointer that
    is what [contains] returns. *)
Theorem slist_contains_spec h l ns e fuel :
  heap_ok h → repr h l ns → (length ns ≤ fuel)%nat →
  cc_slist_contains fuel h l e
  = Ret (count_if (λ x, x =? e) (contents h ns))
  ∧ 0 ≤ count_if (λ x, x =? e) (contents h ns) ≤ size l
  ∧ (count_if (λ x, x =? e) (contents h ns) = 0 ↔ e ∉ contents h ns)
  ∧ (∀ cmp, cc_slist_contains_value fuel h l e cmp
            = Ret (count_if (λ x, cmp x e =? 0) (contents h ns)))
  ∧ (∀ cmp, (∀ x, cmp x e = 0 ↔ x = e) →
       cc_slist_contains_value fuel h l e cmp = cc_slist_contains fuel h l e).
Proof.
  intros Hok Hrepr Hfuel. pose proof Hrepr as (Hseg & _ & Hsize).
  pose proof (seg_length_bound _ _ _ Hok Hseg) as Hb.
  assert (Hrun : cc_slist_contains fuel h l e
                 = Ret (count_if (λ x, x =? e) (contents h ns))).
  { unfold cc_slist_contains.
    destruct (slist_count_loop h (λ x, x =? e) ns (head l) 0 fuel)
      as [H _]; [done|done|done|done|lia|].
    by rewrite (H e). }
  assert (Hrunv : ∀ cmp, cc_slist_contains_value fuel h l e cmp
                 = Ret (count_if (λ x, cmp x e =? 0) (contents h ns))).
  { intros cmp. unfold cc_slist_contains_value.
    destruct (slist_count_loop h (λ x, cmp x e =? 0) ns (head l) 0 fuel)
      as [_ H]; [done|done|done|done|lia|].
    by rewrite (H e cmp). }
  split; [done|]. split.
  { pose proof (count_if_bounds (λ x, x =? e) (contents h ns)).
    rewrite (contents_length _ _ _ _ Hseg) in H. lia. }
  split.
  { rewrite count_if_zero. split.
    - intros Hall Hin. specialize (Hall e Hin). cbn in Hall.
      by rewrite Z.eqb_refl in Hall.
    - intros Hno x Hx. apply Z.eqb_neq. by intros ->. }
  split; [done|].
  intros cmp Hcmp. rewrite Hrun, Hrunv. f_equal. apply count_if_ext.
  intros x _.
  destruct (cmp x e =? 0) eqn:E1, (x =? e) eqn:E2; try done.
  - apply Z.eqb_eq, Hcmp in E1. apply Z.eqb_neq in E2. done.
  - apply Z.eqb_eq in E2. apply Z.eqb_neq in E1. destruct E1. by apply Hcmp.
Qed.

Lemma slist_contains_spec_witness :
  cc_slist_contains 3 heap4 list3 200 = Ret 1
  ∧ cc_slist_contains 3 heap4 list3 7 = Ret 0
  ∧ cc_slist_contains_value 3 heap4 list3 0 (λ a b, a mod 200 - b) = Ret 1.
Proof.
  destruct (slist_contains_spec heap4 list3 [16; 32; 48] 200 3
              heap4_ok list3_repr ltac:(done)) as (H1 & _).
  destruct (slist_contains_spec heap4 list3 [16; 32; 48] 7 3
              heap4_ok list3_repr ltac:(done)) as (H2 & _).
  destruct (slist_contains_spec heap4 list3 [16; 32; 48] 0 3
              heap4_ok list3_repr ltac:(done)) as (_ & _ & _ & H3 & _).
  split; [exact H1|]. split; [exact H2|]. exact (H3 (λ a b, a mod 200 - b)).
Defined.

(** X25. [add_first] with a node at an unused address followed by
    [remove_first] hands back the element and restores the heap and the
    list structure exactly as they were before the two calls. *)
Theorem slist_add_remove_first h l ns p e :
  heap_ok h → repr h l ns → h !! p = None → 0 < p ≤ SIZE_MAX →
  ∃ h1 l1, cc_slist_add_first h l p e = Ret (CC_OK, h1, l1)
    ∧ cc_slist_remove_first h1 l1 (Slot None)
      = Ret (CC_OK, h, l, Slot (Some e)).
Proof.
  intros Hok Hrepr Hp Hpr.
  destruct (add_first_spec h l ns p e Hok Hrepr Hp Hpr)
    as (h1 & l1 & Hr & Hok1 & Hrepr1 & Hc1 & Hfr1).
  exists h1, l1. split; [done|].
  destruct (unlinkn_spec h1 l1 [] p ns Hok1 Hrepr1)
    as (nd & h2 & l2 & Hnd & Hun & Hok2 & Hrepr2 & _ & Hc & Hfree & Hfr2).
  cbn [app last default] in *.
  assert (Hd : data nd = e).
  { rewrite Hc1 in Hc. rewrite contents_nil in Hc. cbn [app] in Hc. congruence. }
  assert (h2 = h) as ->.
  { apply map_eq. intros q. destruct (decide (q = p)) as [->|Hne].
    - by rewrite Hfree, Hp.
    - rewrite Hfr2; [by apply Hfr1| |done].
      intros Hin. by apply elem_of_nil in Hin. }
  assert (l2 = l) as -> by (by eapply repr_unique).
  unfold cc_slist_remove_first.
  pose proof Hrepr1 as (Hseg1 & _ & Hsize1).
  replace (size l1 =? 0) with false
    by (symmetry; apply Z.eqb_neq; rewrite Hsize1; cbn [length]; lia).
  destruct Hseg1 as (-> & _). rewrite Hun. step. by rewrite Hd.
Qed.

Lemma slist_add_remove_first_witness :
  ∃ h1 l1, cc_slist_add_first heap4 list3 80 500 = Ret (CC_OK, h1, l1)
    ∧ cc_slist_remove_first h1 l1 (Slot None)
      = Ret (CC_OK, heap4, list3, Slot (Some 500)).
Proof.
  exact (slist_add_remove_first heap4 list3 [16; 32; 48] 80 500
           heap4_ok list3_repr eq_refl ltac:(done)).
Defined.

(** X26. [destroy] and [destroy_cb] return on every list in good order,
    empty or not, and free exactly its nodes: none of them is left in the
    heap and every other node is untouched.  [destroy_cb] calls the
    callback on every element, once, in list order. *)
Theorem slist_destroy_spec h l ns fuel :
  heap_ok h → repr h l ns → (length ns ≤ fuel)%nat →
  ∃ h', cc_slist_destroy fuel h l = Ret h'
    ∧ cc_slist_destroy_cb fuel h l = Ret (h', contents h ns)
    ∧ heap_ok h'
    ∧ (∀ q, q ∈ ns → h' !! q = None)
    ∧ (∀ q, q ∉ ns → h' !! q = h !! q).
Proof.
  intros Hok Hrepr Hfuel.
  destruct (remove_all_both h l ns fuel Hok Hrepr Hfuel)
    as (st & h' & l' & Hr1 & Hr2 & Hok' & Hf & Hfr).
  exists h'. unfold cc_slist_destroy, cc_slist_destroy_cb.
  rewrite Hr1, Hr2. done.
Qed.

Lemma slist_destroy_spec_witness :
  ∃ h', cc_slist_destroy_cb 3 heap4 list3 = Ret (h', [100; 200; 300])
    ∧ h' !! 16 = None ∧ h' !! 64 = Some (mkNode 400 NULL).
Proof.
  destruct (slist_destroy_spec heap4 list3 [16; 32; 48] 3%nat
              heap4_ok list3_repr ltac:(done))
    as (h' & _ & Hr & _ & Hf & Hfr).
  exists h'. split; [exact Hr|]. split.
  - apply Hf. apply list_elem_of_here.
  - rewrite Hfr; [reflexivity|]. intros Hx.
    repeat (apply elem_of_cons in Hx as [Hx|Hx]; [done|]).
    by apply elem_of_nil in Hx.
Defined.

End SListOps.

(** * Output slots *)
Module OutputSlotFacts.

(** ** In the array *)
Section ArraySlots.
Import Array ArrayFacts ArrayOps.

(** What [replace_at] does to the array does not depend on the output
    slot. *)
Lemma array_replace_at_any_out ar e i :
  wf ar → 0 ≤ i < size ar →
  ∃ old ar', elements ar !! Z.to_nat i = Some old
    ∧ (∀ out, cc_array_replace_at ar e i out
              = Ret (CC_OK, ar', store_out_opt out old))
    ∧ size ar' = size ar ∧ capacity ar' = capacity ar
    ∧ elements ar' = <[Z.to_nat i := Some e]> (elements ar).
Proof.
  intros Hwf Hi. pose proof Hwf as (H0 & H1 & H2 & H3).
  destruct (live_slot ar i Hwf Hi) as (old & Hb & He).
  exists old, (set_buffer ar (<[Z.to_nat i := Some e]> (buffer ar))).
  split; [done|]. split.
  { intros out. unfold cc_array_replace_at.
    replace (size ar <=? i) with false by (symmetry; apply Z.leb_gt; lia).
    destruct out as [|c]; step.
    - rewrite store_ok by lia. done.
    - rewrite load_ok by lia. rewrite Hb. step.
      rewrite store_ok by lia. done. }
  split; [done|]. split; [done|].
  unfold elements. cbn [size buffer set_buffer].
  rewrite take_insert_lt by lia. done.
Qed.

Lemma array_remove_at_any_out ar i :
  wf ar → 0 ≤ i < size ar →
  ∃ old ar', elements ar !! Z.to_nat i = Some old
    ∧ (∀ out, cc_array_remove_at ar i out
              = Ret (CC_OK, ar', store_out_opt out old))
    ∧ size ar' = size ar - 1 ∧ capacity ar' = capacity ar
    ∧ elements ar' = delete (Z.to_nat i) (elements ar).
Proof.
  intros Hwf Hi. pose proof Hwf as (H0 & H1 & H2 & H3).
  destruct (live_slot ar i Hwf Hi) as (old & Hb & He).
  destruct (remove_slot_elements ar i Hwf Hi)
    as (ar' & Hr & _ & Hs & Hc & _ & Hel).
  exists old, ar'. split; [done|]. split; [|done].
  intros out. unfold cc_array_remove_at.
  replace (size ar <=? i) with false by (symmetry; apply Z.leb_gt; lia).
  destruct out as [|c]; step.
  - rewrite Hr. done.
  - rewrite load_ok by lia. rewrite Hb. step. rewrite Hr. done.
Qed.

Lemma array_remove_any_out ar e l1 l2 :
  wf ar → initialized ar → elements ar = l1 ++ Some e :: l2 → Some e ∉ l1 →
  ∃ ar', (∀ out, cc_array_remove ar e out
                 = Ret (CC_OK, ar', store_out_opt out (Some e)))
    ∧ size ar' = size ar - 1 ∧ capacity ar' = capacity ar
    ∧ elements ar' = l1 ++ l2.
Proof.
  intros Hwf Hinit Hel Hno.
  pose proof (elements_length ar Hwf) as Hlen.
  rewrite Hel, length_app in Hlen. cbn [length] in Hlen.
  destruct (remove_slot_elements ar (Z.of_nat (length l1)) Hwf ltac:(lia))
    as (ar' & Hr & _ & Hs & Hc & _ & Hel').
  exists ar'. split.
  { intros out. unfold cc_array_remove.
    rewrite (index_of_first ar e l1 l2) by done.
    step. destruct (decide (CC_OK = CC_ERR_OUT_OF_RANGE)); [done|].
    step. rewrite Hr. done. }
  split; [done|]. split; [done|].
  rewrite Hel', Hel, Nat2Z.id. apply delete_middle.
Qed.

End ArraySlots.

(** ** In the list *)
Section ListSlots.
Import SList SListFacts SListOps.

Lemma slist_replace_at_any_out h l ns e i :
  heap_ok h → repr h l ns → 0 ≤ i < size l →
  ∃ x h', contents h ns !! Z.to_nat i = Some x
    ∧ (∀ out, cc_slist_replace_at h l e i out
              = Ret (CC_OK, h', l, store_out_opt out (Some x)))
    ∧ heap_ok h' ∧ repr h' l ns
    ∧ contents h' ns = <[Z.to_nat i := e]> (contents h ns).
Proof.
  intros Hok Hrepr Hi.
  destruct (contents_split h l ns i Hrepr Hi)
    as (l1 & node & l2 & nd & -> & Hl1 & Hnode & Hcl & Hc).
  subst i. rewrite Nat2Z.id.
  destruct (replace_at_spec h l l1 node l2 e NullOut Hok Hrepr)
    as (nd' & h' & Hnd' & Hr & Hok' & Hrepr' & Hc').
  assert (nd' = nd) as -> by congruence.
  exists (data nd), h'.
  split; [rewrite Hc; by apply list_lookup_middle|]. split.
  { intros out.
    destruct (replace_at_spec h l l1 node l2 e out Hok Hrepr)
      as (nd2 & h2 & Hnd2 & Hr2 & _).
    assert (nd2 = nd) as -> by congruence.
    rewrite Hr2.
    assert (h2 = h') as ->; [|done].
    revert Hr Hr2. unfold cc_slist_replace_at.
    destruct (get_node_at h l (Z.of_nat (length l1))) as [[[st n] p]| |];
      [|done..].
    step. destruct (decide (st ≠ CC_OK)) as [Hst|_];
      [intros Hx _; exfalso; inversion Hx; congruence|].
    destruct (load_node h n) as [d| |]; [|done..]. step.
    destruct (store_data h n e) as [h3| |]; [|done..]. step.
    by intros [= <-] [= <-]. }
  split; [done|]. split; [done|].
  rewrite Hc', Hc. rewrite insert_app_r_alt by lia.
  rewrite Hcl, Nat.sub_diag. done.
Qed.

Lemma slist_remove_at_any_out h l ns i :
  heap_ok h → repr h l ns → 0 ≤ i < size l →
  ∃ node x h' l', ns !! Z.to_nat i = Some node
    ∧ contents h ns !! Z.to_nat i = Some x
    ∧ (∀ out, cc_slist_remove_at h l i out
              = Ret (CC_OK, h', l', store_out_opt out (Some x)))
    ∧ heap_ok h' ∧ repr h' l' (delete (Z.to_nat i) ns)
    ∧ contents h' (delete (Z.to_nat i) ns)
      = delete (Z.to_nat i) (contents h ns)
    ∧ h' !! node = None.
Proof.
  intros Hok Hrepr Hi.
  destruct (contents_split h l ns i Hrepr Hi)
    as (l1 & node & l2 & nd & -> & Hl1 & Hnode & Hcl & Hc).
  assert (Hn : Z.to_nat i = length l1) by lia.
  destruct (unlinkn_spec h l l1 node l2 Hok Hrepr)
    as (nd' & h' & l' & Hnode' & Hun & Hok' & Hrepr' & Hc' & _ & Hfree & _).
  assert (nd' = nd) as -> by congruence.
  exists node, (data nd), h', l'. rewrite Hn.
  split; [by apply list_lookup_middle|].
  split; [rewrite Hc; by apply list_lookup_middle|].
  split.
  { intros out. unfold cc_slist_remove_at. rewrite <- Hl1.
    rewrite (get_node_at_spec _ _ _ _ _ Hrepr). step.
    destruct (decide (CC_OK ≠ CC_OK)); [done|]. rewrite Hun. done. }
  split; [done|]. rewrite delete_at_length by done. split; [done|].
  split; [|done].
  rewrite Hc', Hc. by rewrite delete_at_length by done.
Qed.

Lemma slist_remove_first_any_out h l node ns' :
  heap_ok h → repr h l (node :: ns') →
  ∃ x h' l', contents h (node :: ns') = x :: contents h ns'
    ∧ (∀ out, cc_slist_remove_first h l out
              = Ret (CC_OK, h', l', store_out_opt out (Some x)))
    ∧ heap_ok h' ∧ repr h' l' ns'
    ∧ contents h' ns' = contents h ns'
    ∧ h' !! node = None.
Proof.
  intros Hok Hrepr. pose proof Hrepr as (Hseg & _ & Hsize).
  destruct (unlinkn_spec h l [] node ns' Hok Hrepr)
    as (nd & h' & l' & Hnode & Hun & Hok' & Hrepr' & Hc' & Hc & Hfree & _).
  cbn [app last default contents_nil] in *.
  exists (data nd), h', l'. split; [done|]. split; [|done].
  intros out. unfold cc_slist_remove_first.
  replace (size l =? 0) with false
    by (symmetry; apply Z.eqb_neq; rewrite Hsize; cbn [length]; lia).
  destruct Hseg as (-> & _). rewrite Hun. done.
Qed.

End ListSlots.

(** C9. With a valid index, [replace_at], [remove_at], [remove] (of an
    element that is stored) and, on a list, [remove_first] succeed when the
    caller passes no output slot, and do to the container exactly what they
    do when there is one: the element is replaced, respectively removed;
    only the old value is not delivered.  [get_at] writes through its
    output slot without testing it: without a slot the call is outside the
    language's defined behaviour, with one it succeeds and delivers the
    element stored at the index. *)
Theorem null_out_by_design :
  (∀ ar e i, Array.wf ar → 0 ≤ i < Array.size ar →
     (∃ old ar', Array.elements ar !! Z.to_nat i = Some old
        ∧ Array.cc_array_replace_at ar e i NullOut
          = Ret (CC_OK, ar', NullOut)
        ∧ (∀ c, Array.cc_array_replace_at ar e i (Slot c)
                = Ret (CC_OK, ar', Slot old))
        ∧ Array.size ar' = Array.size ar
        ∧ Array.elements ar'
          = <[Z.to_nat i := Some e]> (Array.elements ar))
     ∧ (∃ old ar', Array.elements ar !! Z.to_nat i = Some old
        ∧ Array.cc_array_remove_at ar i NullOut = Ret (CC_OK, ar', NullOut)
        ∧ (∀ c, Array.cc_array_remove_at ar i (Slot c)
                = Ret (CC_OK, ar', Slot old))
        ∧ Array.size ar' = Array.size ar - 1
        ∧ Array.elements ar' = delete (Z.to_nat i) (Array.elements ar))
     ∧ (Array.initialized ar → ∀ l1 l2,
        Array.elements ar = l1 ++ Some e :: l2 → Some e ∉ l1 →
        ∃ ar', Array.cc_array_remove ar e NullOut = Ret (CC_OK, ar', NullOut)
          ∧ (∀ c, Array.cc_array_remove ar e (Slot c)
                  = Ret (CC_OK, ar', Slot (Some e)))
          ∧ Array.size ar' = Array.size ar - 1
          ∧ Array.elements ar' = l1 ++ l2)
     ∧ Array.cc_array_get_at ar i NullOut = Fault
     ∧ ∃ v, Array.elements ar !! Z.to_nat i = Some v
         ∧ ∀ c, Array.cc_array_get_at ar i (Slot c) = Ret (CC_OK, Slot v))
  ∧ (∀ h l ns e i fuel,
       SList.heap_ok h → SList.repr h l ns → 0 ≤ i < SList.size l →
       (length ns ≤ fuel)%nat →
       (∃ x h', SList.contents h ns !! Z.to_nat i = Some x
          ∧ SList.cc_slist_replace_at h l e i NullOut
            = Ret (CC_OK, h', l, NullOut)
          ∧ (∀ c, SList.cc_slist_replace_at h l e i (Slot c)
                  = Ret (CC_OK, h', l, Slot (Some x)))
          ∧ SList.repr h' l ns
          ∧ SList.contents h' ns
            = <[Z.to_nat i := e]> (SList.contents h ns))
       ∧ (∃ node x h' l', ns !! Z.to_nat i = Some node
          ∧ SList.contents h ns !! Z.to_nat i = Some x
          ∧ SList.cc_slist_remove_at h l i NullOut
            = Ret (CC_OK, h', l', NullOut)
          ∧ (∀ c, SList.cc_slist_remove_at h l i (Slot c)
                  = Ret (CC_OK, h', l', Slot (Some x)))
          ∧ SList.repr h' l' (delete (Z.to_nat i) ns)
          ∧ SList.contents h' (delete (Z.to_nat i) ns)
            = delete (Z.to_nat i) (SList.contents h ns)
          ∧ h' !! node = None)
       ∧ (∃ node x h' l', ns !! 0%nat = Some node
          ∧ SList.contents h ns !! 0%nat = Some x
          ∧ SList.cc_slist_remove_first h l NullOut
            = Ret (CC_OK, h', l', NullOut)
          ∧ (∀ c, SList.cc_slist_remove_first h l (Slot c)
                  = Ret (CC_OK, h', l', Slot (Some x)))
          ∧ SList.repr h' l' (drop 1 ns)
          ∧ SList.contents h' (drop 1 ns) = drop 1 (SList.contents h ns)
          ∧ h' !! node = None)
       ∧ (∀ c1 c2, SList.contents h ns = c1 ++ e :: c2 → e ∉ c1 →
          ∃ node h' l', ns !! length c1 = Some node
            ∧ SList.cc_slist_remove fuel h l e NullOut
              = Ret (CC_OK, h', l', NullOut)
            ∧ (∀ c, SList.cc_slist_remove fuel h l e (Slot c)
                    = Ret (CC_OK, h', l', Slot (Some e)))
            ∧ SList.repr h' l' (delete (length c1) ns)
            ∧ SList.contents h' (delete (length c1) ns) = c1 ++ c2
            ∧ h' !! node = None)
       ∧ SList.cc_slist_get_at h l i NullOut = Fault
       ∧ ∃ v, SList.contents h ns !! Z.to_nat i = Some v
           ∧ ∀ c, SList.cc_slist_get_at h l i (Slot c)
                  = Ret (CC_OK, Slot (Some v))).
Proof.
  split.
  - intros ar e i Hwf Hi. pose proof Hwf as (H0 & H1 & H2 & H3).
    split.
    { destruct (array_replace_at_any_out ar e i Hwf Hi)
        as (old & ar' & Hold & Hr & Hs & _ & Hel).
      exists old, ar'. split; [done|]. split; [exact (Hr NullOut)|].
      split; [intros c; exact (Hr (Slot c))|done]. }
    split.
    { destruct (array_remove_at_any_out ar i Hwf Hi)
        as (old & ar' & Hold & Hr & Hs & _ & Hel).
      exists old, ar'. split; [done|]. split; [exact (Hr NullOut)|].
      split; [intros c; exact (Hr (Slot c))|done]. }
    split.
    { intros Hinit l1 l2 Hel Hno.
      destruct (array_remove_any_out ar e l1 l2 Hwf Hinit Hel Hno)
        as (ar' & Hr & Hs & _ & Hel').
      exists ar'. split; [exact (Hr NullOut)|].
      split; [intros c; exact (Hr (Slot c))|done]. }
    destruct (ArrayOps.live_slot ar i Hwf Hi) as (v & Hb & He).
    split.
    { unfold Array.cc_array_get_at.
      replace (Array.size ar <=? i) with false
        by (symmetry; apply Z.leb_gt; lia).
      rewrite ArrayFacts.load_ok by lia. rewrite Hb. done. }
    exists v. split; [done|]. intros c. by apply ArrayOps.get_at_live.
  - intros h l ns e i fuel Hok Hrepr Hi Hfuel.
    pose proof Hrepr as (Hseg & _ & Hsize).
    split.
    { destruct (slist_replace_at_any_out h l ns e i Hok Hrepr Hi)
        as (x & h' & Hx & Hr & _ & Hrepr' & Hc).
      exists x, h'. split; [done|]. split; [exact (Hr NullOut)|].
      split; [intros c; exact (Hr (Slot c))|done]. }
    split.
    { destruct (slist_remove_at_any_out h l ns i Hok Hrepr Hi)
        as (node & x & h' & l' & Hn & Hx & Hr & _ & Hrepr' & Hc & Hf).
      exists node, x, h', l'. split; [done|]. split; [done|].
      split; [exact (Hr NullOut)|].
      split; [intros c; exact (Hr (Slot c))|done]. }
    split.
    { destruct ns as [|node ns']; [cbn [length] in Hsize; lia|].
      destruct (slist_remove_first_any_out h l node ns' Hok Hrepr)
        as (x & h' & l' & Hc0 & Hr & _ & Hrepr' & Hc & Hf).
      exists node, x, h', l'. split; [done|].
      split; [by rewrite Hc0|].
      split; [exact (Hr NullOut)|].
      split; [intros c; exact (Hr (Slot c))|].
      cbn [drop]. rewrite Hc0. cbn [drop]. done. }
    split.
    { intros c1 c2 Hc Hno.
      destruct (SListOps.first_occurrence h l ns e c1 c2 Hrepr Hc Hno)
        as (l1 & node & l2 & nd & -> & Hn & Hd & Hall & Hlen & <- & <-).
      destruct (SListOps.remove_first_match h l l1 node l2 nd e fuel
                  Hok Hrepr Hn Hd Hall Hfuel)
        as (h' & l' & Hr & _ & Hrepr' & Hc' & Hfree & _).
      exists node, h', l'. rewrite <- Hlen.
      split; [by apply list_lookup_middle|].
      split; [exact (Hr NullOut)|].
      split; [intros c; exact (Hr (Slot c))|].
      rewrite SListOps.delete_at_length by done. done. }
    destruct (SListOps.contents_split h l ns i Hrepr Hi)
      as (l1 & node & l2 & nd & -> & Hl1 & Hnode & Hcl & Hc).
    destruct (SListFacts.get_at_spec h l l1 node l2 Hrepr)
      as (nd' & Hnd' & _ & Hget & Hnull).
    assert (nd' = nd) as -> by congruence.
    rewrite Hl1 in Hget, Hnull.
    split; [done|]. exists (SList.data nd).
    split; [|done].
    rewrite Hc. apply list_lookup_middle. lia.
Qed.

Lemma null_out_by_design_witness :
  (∃ ar', Array.cc_array_replace_at Array.full8 7 0 NullOut
          = Ret (CC_OK, ar', NullOut)
     ∧ Array.elements ar'
       = [Some 7; Some 102; Some 103; Some 104;
          Some 105; Some 106; Some 107; Some 108])
  ∧ Array.cc_array_get_at Array.full8 0 NullOut = Fault
  ∧ (∃ h' l', SList.cc_slist_remove_at SList.heap4 SList.list3 1 NullOut
              = Ret (CC_OK, h', l', NullOut)
       ∧ SList.contents h' [16; 48] = [100; 300] ∧ h' !! 32 = None)
  ∧ SList.cc_slist_get_at SList.heap4 SList.list3 1 NullOut = Fault
  ∧ SList.cc_slist_get_at SList.heap4 SList.list3 1 (Slot None)
    = Ret (CC_OK, Slot (Some 200)).
Proof.
  destruct null_out_by_design as [Ha Hl].
  destruct (Ha Array.full8 7 0 ArrayFacts.full8_wf ltac:(done))
    as ((old & ar' & _ & Hrep & _ & _ & Hel) & _ & _ & Hget & _).
  destruct (Hl SList.heap4 SList.list3 [16; 32; 48] 0 1 3%nat
              SListFacts.heap4_ok SListFacts.list3_repr
              ltac:(done) ltac:(done))
    as (_ & (node & x & h' & l' & Hn & _ & Hrm & _ & _ & Hc & Hf) & _ & _
        & Hgl & v & Hv & Hgs).
  injection Hv as <-. injection Hn as <-.
  split; [by exists ar'|]. split; [exact Hget|].
  split; [by exists h', l'|].
  split; [exact Hgl|]. exact (Hgs None).
Defined.

End OutputSlotFacts.
